(** * The shared DuckDB manager of sql-workbench-embedded

    A shallow embedding of [src/duckdb-manager.ts] (class [DuckDBManager])
    and the properties of its single-flight initialisation, its one-time
    setup statements, its file registry, its result conversion and its
    teardown.

    The class is asynchronous JavaScript: every [async] method runs
    synchronously up to its next [await], and other callers run in between.
    The embedding keeps that structure.  The private fields of the class are
    a record; each stretch of code between two suspension points is one
    function on the world; a method suspended at an [await] is a value of
    [Task] that remembers where it stopped and its live local variables; the
    caller's side and the engine's side choose what happens next through a
    list of [Action]s.

    The file goes on to the code around the manager: the file references
    that [src/path-resolver.ts] finds in a statement, and the embeds of
    [src/embedded.ts], whose [run] is the caller of the manager on a page.
    A page is the manager's world together with its embeds and their
    suspended calls of [run]. *)

From stdpp Require Import base gmap sets list strings pretty.
From Stdlib Require Import ZArith Lia.

Open Scope string_scope.
Open Scope list_scope.
Open Scope stdpp_scope.

(** ** Values that cross the boundary with the engine *)

(** What a cell of the engine's columnar result may hold. *)
Inductive JsVal :=
| JUndefined
| JNull
| JBool (b : bool)
| JNum (n : Z)
| JStr (s : string).

(** A thrown value: an [Error] object with its message, or anything else,
    kept as what [String(error)] gives. *)
Inductive Thrown :=
| ErrObj (message : string)
| NonErr (text : string).

(** [error instanceof Error ? error.message : String(error)] *)
Definition errText (e : Thrown) : string :=
  match e with
  | ErrObj m => m
  | NonErr t => t
  end.

(** [String.prototype.includes] *)
Fixpoint includes (needle hay : string) : bool :=
  if String.prefix needle hay then true
  else match hay with
       | EmptyString => false
       | String _ hay' => includes needle hay'
       end.

Definition nl : string := String (Ascii.ascii_of_nat 10) EmptyString.

(** The part of an Arrow table the manager reads: [schema.fields],
    [numRows], [numCols], [getChildAt(j)] and [get(i)] on a column. *)
Record Field := { name : string }.

Record Table := {
  fields : list Field;
  numRows : nat;
  numCols : nat;
  children : list (option (list JsVal))
}.

(** [result.getChildAt(j)]: a column, or null. *)
Definition getChildAt (t : Table) (j : nat) : option (list JsVal) :=
  match children t !! j with
  | Some (Some col) => Some col
  | _ => None
  end.

(** [col.get(i)]: out of range reads give undefined. *)
Definition get (col : list JsVal) (i : nat) : JsVal :=
  match col !! i with
  | Some v => v
  | None => JUndefined
  end.

(** [x ?? null] *)
Definition nullish (v : JsVal) : JsVal :=
  match v with
  | JUndefined | JNull => JNull
  | _ => v
  end.

(** [col?.get(i) ?? null] with [col = result.getChildAt(j)] *)
Definition cell (t : Table) (i j : nat) : JsVal :=
  nullish (match getChildAt t j with
           | Some col => get col i
           | None => JUndefined
           end).

(** [QueryResult] of [src/types.ts]. Clock readings ([performance.now()])
    are integers here; the manager only subtracts them. *)
Record QueryResult := {
  columns : list string;
  rows : list (list JsVal);
  rowCount : nat;
  executionTime : Z
}.

(** The inner loop of [query]: [for (let j = 0; j < result.numCols; j++)],
    [n] iterations left, pushing onto [row]. *)
Fixpoint rowLoop (t : Table) (i : nat) (n j : nat) (row : list JsVal) : list JsVal :=
  match n with
  | 0 => row
  | S n' => rowLoop t i n' (S j) (row ++ [cell t i j])
  end.

(** The outer loop: [for (let i = 0; i < result.numRows; i++)]. *)
Fixpoint rowsLoop (t : Table) (n i : nat) (rows : list (list JsVal)) : list (list JsVal) :=
  match n with
  | 0 => rows
  | S n' => rowsLoop t n' (S i) (rows ++ [rowLoop t i (numCols t) 0 []])
  end.

(** The conversion done by [query] once the engine answered. *)
Definition toQueryResult (t : Table) (elapsed : Z) : QueryResult :=
  {| columns := map name (fields t);
     rows := rowsLoop t (numRows t) 0 [];
     rowCount := numRows t;
     executionTime := elapsed |}.

(** ** The fields of [DuckDBManager] *)

Record DuckDBManagerConfig := { version : string; cdn : string }.

(** [Partial<DuckDBManagerConfig>] *)
Record PartialConfig := { version' : option string; cdn' : option string }.

(** [{ ...this.config, ...config }] *)
Definition spread (c : DuckDBManagerConfig) (p : PartialConfig) : DuckDBManagerConfig :=
  {| version := default (version c) (version' p);
     cdn := default (cdn c) (cdn' p) |}.

(** A promise held in [initPromise] or in [initQueriesPromise]. *)
Inductive PState :=
| Pending
| Fulfilled
| Rejected (e : Thrown).

(** Engine instances, connections and client modules are object
    identities. Promises are indices into the store of their kind. *)
Record Manager := {
  db : option nat;
  connection : option nat;
  initPromise : option nat;
  config : DuckDBManagerConfig;
  registeredFiles : gset string;
  duckdbModule : option nat;
  initQueriesExecuted : bool;
  initQueriesPromise : option nat;
  initQueries : list string
}.

(** The constructor and the field initialisers. *)
Definition new_manager : Manager :=
  {| db := None;
     connection := None;
     initPromise := None;
     config := {| version := "1.31.1-dev1.0";
                  cdn := "https://cdn.jsdelivr.net/npm/@duckdb/duckdb-wasm" |};
     registeredFiles := ∅;
     duckdbModule := None;
     initQueriesExecuted := false;
     initQueriesPromise := None;
     initQueries := [] |}.

Definition set_db (v : option nat) (m : Manager) : Manager :=
  {| db := v; connection := connection m; initPromise := initPromise m;
     config := config m; registeredFiles := registeredFiles m;
     duckdbModule := duckdbModule m;
     initQueriesExecuted := initQueriesExecuted m;
     initQueriesPromise := initQueriesPromise m; initQueries := initQueries m |}.

Definition set_connection (v : option nat) (m : Manager) : Manager :=
  {| db := db m; connection := v; initPromise := initPromise m;
     config := config m; registeredFiles := registeredFiles m;
     duckdbModule := duckdbModule m;
     initQueriesExecuted := initQueriesExecuted m;
     initQueriesPromise := initQueriesPromise m; initQueries := initQueries m |}.

Definition set_initPromise (v : option nat) (m : Manager) : Manager :=
  {| db := db m; connection := connection m; initPromise := v;
     config := config m; registeredFiles := registeredFiles m;
     duckdbModule := duckdbModule m;
     initQueriesExecuted := initQueriesExecuted m;
     initQueriesPromise := initQueriesPromise m; initQueries := initQueries m |}.

Definition set_config (v : DuckDBManagerConfig) (m : Manager) : Manager :=
  {| db := db m; connection := connection m; initPromise := initPromise m;
     config := v; registeredFiles := registeredFiles m;
     duckdbModule := duckdbModule m;
     initQueriesExecuted := initQueriesExecuted m;
     initQueriesPromise := initQueriesPromise m; initQueries := initQueries m |}.

Definition set_registeredFiles (v : gset string) (m : Manager) : Manager :=
  {| db := db m; connection := connection m; initPromise := initPromise m;
     config := config m; registeredFiles := v;
     duckdbModule := duckdbModule m;
     initQueriesExecuted := initQueriesExecuted m;
     initQueriesPromise := initQueriesPromise m; initQueries := initQueries m |}.

Definition set_duckdbModule (v : option nat) (m : Manager) : Manager :=
  {| db := db m; connection := connection m; initPromise := initPromise m;
     config := config m; registeredFiles := registeredFiles m;
     duckdbModule := v;
     initQueriesExecuted := initQueriesExecuted m;
     initQueriesPromise := initQueriesPromise m; initQueries := initQueries m |}.

Definition set_initQueriesExecuted (v : bool) (m : Manager) : Manager :=
  {| db := db m; connection := connection m; initPromise := initPromise m;
     config := config m; registeredFiles := registeredFiles m;
     duckdbModule := duckdbModule m;
     initQueriesExecuted := v;
     initQueriesPromise := initQueriesPromise m; initQueries := initQueries m |}.

Definition set_initQueriesPromise (v : option nat) (m : Manager) : Manager :=
  {| db := db m; connection := connection m; initPromise := initPromise m;
     config := config m; registeredFiles := registeredFiles m;
     duckdbModule := duckdbModule m;
     initQueriesExecuted := initQueriesExecuted m;
     initQueriesPromise := v; initQueries := initQueries m |}.

Definition set_initQueries (v : list string) (m : Manager) : Manager :=
  {| db := db m; connection := connection m; initPromise := initPromise m;
     config := config m; registeredFiles := registeredFiles m;
     duckdbModule := duckdbModule m;
     initQueriesExecuted := initQueriesExecuted m;
     initQueriesPromise := initQueriesPromise m; initQueries := v |}.

(** ** Suspended methods, the engine's side, and what is observed *)

(** [bundle.mainWorker] and [bundle.mainModule] *)
Record Bundle := { mainWorker : string; mainModule : string }.

(** What an awaited call of the engine or of the network gives back. *)
Inductive Payload :=
| PUnit
| PModule (m : nat)
| PBundle (b : Bundle)
| PResponse (ok : bool) (status : N) (statusText : string)
| PTable (t : Table).

Inductive Resp :=
| Ok (v : Payload)
| Raise (e : Thrown).

(** Who submitted a statement to the connection: the setup loop at index
    [i], or the call of [query] that is task [t]. *)
Inductive Origin :=
| Setup (i : nat)
| User (t : nat).

(** Calls that leave the manager, answers of the connection, and the
    console's warnings and errors. *)
Inductive Event :=
| EImportPackage
| EImportUrl (url : string)
| ESelectBundle (m : nat)
| EFetch (url : string)
| EBlob
| ENewDb (h : nat)
| EInstantiate (h : nat) (mainModule mainWorker : string)
| EConnect (h : nat)
| ERevoke
| EQuery (c : nat) (o : Origin) (sql : string)
| EQueryDone (o : Origin) (ok : bool)
| ERegister (h : nat) (name url : string)
| ECloseConn (c : nat)
| ETerminate (h : nat)
| EWarn (msg : string)
| EError (msg : string).

(** How an [await] of one of the two memoised promises is pending: on an
    already fulfilled promise (the method returned without one), or on the
    stored promise [p]. *)
Inductive Wait :=
| WNow
| WPromise (p : nat).

Inductive RetVal :=
| RVoid
| RBool (b : bool)
| RResult (r : QueryResult).

Inductive Outcome :=
| Returned (v : RetVal)
| Threw (e : Thrown).

(** One constructor per [await] of the class. *)
Inductive Task :=
(* doInitialize, inside loadDuckDBModule *)
| DI_Import (p : nat)
| DI_ImportCdn (p : nat) (importError : Thrown)
(* doInitialize *)
| DI_Module (p : nat) (duckdb : nat)
| DI_SelectBundle (p : nat)
| DI_Fetch (p : nat) (bundle : Bundle)
| DI_Blob (p : nat) (bundle : Bundle)
| DI_Instantiate (p : nat)
| DI_Connect (p : nat)
(* the async function inside executeInitQueries *)
| IQ_Query (p : nat) (i : nat)
(* query *)
| Q_Initialize (sql : string) (w : Wait)
| Q_InitQueries (sql : string) (w : Wait)
| Q_Query (sql : string) (startTime : Z)
(* registerFile *)
| R_Initialize (name url : string) (w : Wait)
| R_Register (name url : string)
(* close *)
| C_Close
| C_Terminate
(* settled *)
| Done (o : Outcome).

Inductive Call :=
| CConfigure (c : PartialConfig)
| CConfigureInitQueries (queries : list string)
| CRegisterFile (name url : string)
| CQuery (sql : string)
| CClose
| CIsInitialized.

(** What can happen next: a caller invokes a public method; a task that
    awaits a memoised promise is resumed; the operation a task awaits
    outside the manager completes; time passes. *)
Inductive Action :=
| ACall (c : Call)
| AWake (t : nat)
| AResume (t : nat) (r : Resp)
| ATick (now : Z).

Record World := {
  mgr : Manager;
  global : option nat;
  initPromises : list PState;
  setupPromises : list PState;
  tasks : list Task;
  log : list Event;
  clock : Z;
  nextHandle : nat
}.

(** A page that has just loaded the script: [new DuckDBManager()], with
    [window.duckdb] holding [g]. *)
Definition boot (g : option nat) : World :=
  {| mgr := new_manager; global := g; initPromises := []; setupPromises := [];
     tasks := []; log := []; clock := 0%Z; nextHandle := 0 |}.

Definition upd_mgr (f : Manager → Manager) (w : World) : World :=
  {| mgr := f (mgr w); global := global w; initPromises := initPromises w;
     setupPromises := setupPromises w; tasks := tasks w; log := log w;
     clock := clock w; nextHandle := nextHandle w |}.

Definition set_global (g : option nat) (w : World) : World :=
  {| mgr := mgr w; global := g; initPromises := initPromises w;
     setupPromises := setupPromises w; tasks := tasks w; log := log w;
     clock := clock w; nextHandle := nextHandle w |}.

Definition upd_initPromises (f : list PState → list PState) (w : World) : World :=
  {| mgr := mgr w; global := global w; initPromises := f (initPromises w);
     setupPromises := setupPromises w; tasks := tasks w; log := log w;
     clock := clock w; nextHandle := nextHandle w |}.

Definition upd_setupPromises (f : list PState → list PState) (w : World) : World :=
  {| mgr := mgr w; global := global w; initPromises := initPromises w;
     setupPromises := f (setupPromises w); tasks := tasks w; log := log w;
     clock := clock w; nextHandle := nextHandle w |}.

Definition upd_tasks (f : list Task → list Task) (w : World) : World :=
  {| mgr := mgr w; global := global w; initPromises := initPromises w;
     setupPromises := setupPromises w; tasks := f (tasks w); log := log w;
     clock := clock w; nextHandle := nextHandle w |}.

Definition emit (e : Event) (w : World) : World :=
  {| mgr := mgr w; global := global w; initPromises := initPromises w;
     setupPromises := setupPromises w; tasks := tasks w; log := log w ++ [e];
     clock := clock w; nextHandle := nextHandle w |}.

Definition set_clock (now : Z) (w : World) : World :=
  {| mgr := mgr w; global := global w; initPromises := initPromises w;
     setupPromises := setupPromises w; tasks := tasks w; log := log w;
     clock := now; nextHandle := nextHandle w |}.

Definition bump_handle (w : World) : World :=
  {| mgr := mgr w; global := global w; initPromises := initPromises w;
     setupPromises := setupPromises w; tasks := tasks w; log := log w;
     clock := clock w; nextHandle := S (nextHandle w) |}.

Definition spawn (t : Task) : World → World := upd_tasks (λ ts, ts ++ [t]).
Definition set_task (tid : nat) (t : Task) : World → World := upd_tasks (<[tid := t]>).

(** ** The methods, one function per stretch between suspension points *)

(** What [this.connection.query] or [this.db.connect] throws when the
    receiver is null. *)
Definition typeErrorNull (prop : string) : Thrown :=
  ErrObj ("Cannot read properties of null (reading '" +:+ prop +:+ "')").

(** [configure] *)
Definition configure (c : PartialConfig) (w : World) : World :=
  match db (mgr w) with
  | Some _ => emit (EWarn "DuckDB already initialized, configuration will not take effect") w
  | None => upd_mgr (set_config (spread (config (mgr w)) c)) w
  end.

(** [configureInitQueries] *)
Definition configureInitQueries (queries : list string) (w : World) : World :=
  if initQueriesExecuted (mgr w)
  then emit (EWarn "Init queries already executed, configuration will not take effect") w
  else upd_mgr (set_initQueries queries) w.

(** [isInitialized] *)
Definition isInitialized (w : World) : bool :=
  bool_decide (db (mgr w) ≠ None).

(** [loadDuckDBModule], called by [doInitialize] whose promise is [p], up
    to the first suspension: the memoised module, the global one, or the
    dynamic import by package name. *)
Definition loadDuckDBModule (p : nat) (w : World) : World * Task :=
  match duckdbModule (mgr w) with
  | Some m => (w, DI_Module p m)
  | None =>
    match global w with
    | Some m => (upd_mgr (set_duckdbModule (Some m)) w, DI_Module p m)
    | None => (emit EImportPackage w, DI_Import p)
    end
  end.

(** The URL of the third attempt of [loadDuckDBModule]. *)
Definition cdnUrl (c : DuckDBManagerConfig) : string :=
  "https://cdn.jsdelivr.net/npm/@duckdb/duckdb-wasm@" +:+ version c +:+ "/+esm".

(** The error of [loadDuckDBModule] when both imports failed. *)
Definition loadError (importError cdnError : Thrown) : Thrown :=
  ErrObj ("Failed to load DuckDB. Tried:" +:+ nl +:+
          "1. Pre-loaded global: Not found" +:+ nl +:+
          "2. Dynamic import: " +:+ errText importError +:+ nl +:+
          "3. CDN import: " +:+ errText cdnError).

(** What the [catch] of [doInitialize] throws. *)
Definition initError (error : Thrown) : Thrown :=
  match error with
  | ErrObj m =>
    if includes "CORS" m
    then ErrObj "Failed to initialize DuckDB: CORS policy blocked worker loading. This may be a browser security restriction in development mode."
    else ErrObj ("Failed to initialize DuckDB: " +:+ m)
  | NonErr t => ErrObj ("Failed to initialize DuckDB: " +:+ t)
  end.

(** The [catch] block of [doInitialize], run by task [tid] whose promise
    is [p]. *)
Definition doInitialize_catch (tid p : nat) (error : Thrown) (w : World) : World :=
  let w := upd_mgr (set_initPromise None) w in
  let w := emit (EError ("DuckDB initialization error: " +:+ errText error)) w in
  let w := upd_initPromises (<[p := Rejected (initError error)]>) w in
  set_task tid (Done (Threw (initError error))) w.

(** [initialize]: what the caller's [await this.initialize()] waits on. *)
Definition initialize (w : World) : World * Wait :=
  match db (mgr w) with
  | Some _ => (w, WNow)
  | None =>
    match initPromise (mgr w) with
    | Some p => (w, WPromise p)
    | None =>
      let p := length (initPromises w) in
      let '(w1, t) := loadDuckDBModule p (upd_initPromises (λ ps, ps ++ [Pending]) w) in
      (upd_mgr (set_initPromise (Some p)) (spawn t w1), WPromise p)
    end
  end.

(** The [catch] block of the async function in [executeInitQueries]. *)
Definition initQueries_catch (p : nat) (error : Thrown) (w : World) : World * Task :=
  let thrown := ErrObj ("Initialization query failed: " +:+ errText error) in
  let w := upd_mgr (set_initQueriesPromise None) w in
  (upd_setupPromises (<[p := Rejected thrown]>) w, Done (Threw thrown)).

(** The loop of that function from the test [i < this.initQueries.length]
    on, up to the next [await] or to its end. The list and the connection
    are read from the fields each time round. *)
Definition initQueries_loop (p i : nat) (w : World) : World * Task :=
  match initQueries (mgr w) !! i with
  | Some query =>
    match connection (mgr w) with
    | Some c => (emit (EQuery c (Setup i) query) w, IQ_Query p i)
    | None => initQueries_catch p (typeErrorNull "query") w
    end
  | None =>
    let w := upd_mgr (set_initQueriesExecuted true) w in
    (upd_setupPromises (<[p := Fulfilled]>) w, Done (Returned RVoid))
  end.

(** [executeInitQueries]: what the caller's [await] waits on. The async
    function runs up to its first [await] before its promise is stored. *)
Definition executeInitQueries (w : World) : World * Wait :=
  if initQueriesExecuted (mgr w) then (w, WNow)
  else
    match initQueriesPromise (mgr w) with
    | Some p => (w, WPromise p)
    | None =>
      match initQueries (mgr w) with
      | [] => (upd_mgr (set_initQueriesExecuted true) w, WNow)
      | _ :: _ =>
        let p := length (setupPromises w) in
        let '(w1, t) := initQueries_loop p 0 (upd_setupPromises (λ ps, ps ++ [Pending]) w) in
        (upd_mgr (set_initQueriesPromise (Some p)) (spawn t w1), WPromise p)
      end
    end.

(** [query] after both awaits: the connection test and the submission. *)
Definition query_submit (tid : nat) (sql : string) (w : World) : World :=
  match connection (mgr w) with
  | None => set_task tid (Done (Threw (ErrObj "DuckDB connection not available"))) w
  | Some c => set_task tid (Q_Query sql (clock w)) (emit (EQuery c (User tid) sql) w)
  end.

(** [registerFile] after [await this.initialize()]. *)
Definition registerFile_body (tid : nat) (name url : string) (w : World) : World :=
  match db (mgr w) with
  | None => set_task tid (Done (Threw (ErrObj "DuckDB not initialized"))) w
  | Some h =>
    if decide (url ∈ registeredFiles (mgr w))
    then set_task tid (Done (Returned RVoid)) w
    else set_task tid (R_Register name url) (emit (ERegister h name url) w)
  end.

(** The end of [close]: the resets after both [if]s. *)
Definition close_reset (w : World) : World :=
  upd_mgr (λ m, set_initQueries []
                 (set_initQueriesPromise None
                   (set_initQueriesExecuted false
                     (set_registeredFiles ∅
                       (set_initPromise None m))))) w.

(** [close] from [if (this.db)] on. *)
Definition close_db (w : World) : World * Task :=
  match db (mgr w) with
  | Some h => (emit (ETerminate h) w, C_Terminate)
  | None => (close_reset w, Done (Returned RVoid))
  end.

(** [close] from its start. *)
Definition close (w : World) : World * Task :=
  match connection (mgr w) with
  | Some c => (emit (ECloseConn c) w, C_Close)
  | None => close_db w
  end.

(** A public method is called: it runs up to its first suspension, and
    the call becomes the newest task. *)
Definition call (c : Call) (w : World) : World :=
  match c with
  | CConfigure pc => spawn (Done (Returned RVoid)) (configure pc w)
  | CConfigureInitQueries queries =>
    spawn (Done (Returned RVoid)) (configureInitQueries queries w)
  | CIsInitialized => spawn (Done (Returned (RBool (isInitialized w)))) w
  | CQuery sql => let '(w1, wt) := initialize w in spawn (Q_Initialize sql wt) w1
  | CRegisterFile name url =>
    let '(w1, wt) := initialize w in spawn (R_Initialize name url wt) w1
  | CClose => let '(w1, t) := close w in spawn t w1
  end.

(** The state of the promise an [await] waits on. *)
Definition poll (ps : list PState) (wt : Wait) : PState :=
  match wt with
  | WNow => Fulfilled
  | WPromise p => default Pending (ps !! p)
  end.

(** Task [tid] continues after an [await] on a promise of the manager. *)
Definition wake (tid : nat) (w : World) : World :=
  match tasks w !! tid with
  | Some (DI_Module p duckdb) =>
    set_task tid (DI_SelectBundle p) (emit (ESelectBundle duckdb) w)
  | Some (Q_Initialize sql wt) =>
    match poll (initPromises w) wt with
    | Pending => w
    | Rejected e => set_task tid (Done (Threw e)) w
    | Fulfilled =>
      let '(w1, wt') := executeInitQueries w in
      set_task tid (Q_InitQueries sql wt') w1
    end
  | Some (Q_InitQueries sql wt) =>
    match poll (setupPromises w) wt with
    | Pending => w
    | Rejected e => set_task tid (Done (Threw e)) w
    | Fulfilled => query_submit tid sql w
    end
  | Some (R_Initialize name url wt) =>
    match poll (initPromises w) wt with
    | Pending => w
    | Rejected e => set_task tid (Done (Threw e)) w
    | Fulfilled => registerFile_body tid name url w
    end
  | _ => w
  end.

(** Task [tid] continues after an [await] on the engine or the network,
    which answered [r]. An answer of the wrong shape leaves the task
    waiting. *)
Definition resume (tid : nat) (r : Resp) (w : World) : World :=
  match tasks w !! tid with
  | Some (DI_Import p) =>
    match r with
    | Ok (PModule m) =>
      set_task tid (DI_Module p m) (upd_mgr (set_duckdbModule (Some m)) w)
    | Ok _ => w
    | Raise importError =>
      set_task tid (DI_ImportCdn p importError)
        (emit (EImportUrl (cdnUrl (config (mgr w)))) w)
    end
  | Some (DI_ImportCdn p importError) =>
    match r with
    | Ok (PModule m) =>
      set_task tid (DI_Module p m)
        (set_global (Some m) (upd_mgr (set_duckdbModule (Some m)) w))
    | Ok _ => w
    | Raise cdnError => doInitialize_catch tid p (loadError importError cdnError) w
    end
  | Some (DI_SelectBundle p) =>
    match r with
    | Ok (PBundle bundle) =>
      set_task tid (DI_Fetch p bundle) (emit (EFetch (mainWorker bundle)) w)
    | Ok _ => w
    | Raise e => doInitialize_catch tid p e w
    end
  | Some (DI_Fetch p bundle) =>
    match r with
    | Ok (PResponse true _ _) => set_task tid (DI_Blob p bundle) (emit EBlob w)
    | Ok (PResponse false status statusText) =>
      doInitialize_catch tid p
        (ErrObj ("Failed to fetch worker: " +:+ pretty status +:+ " " +:+ statusText)) w
    | Ok _ => w
    | Raise e => doInitialize_catch tid p e w
    end
  | Some (DI_Blob p bundle) =>
    match r with
    | Ok _ =>
      let h := nextHandle w in
      let w := upd_mgr (set_db (Some h)) (emit (ENewDb h) (bump_handle w)) in
      set_task tid (DI_Instantiate p)
        (emit (EInstantiate h (mainModule bundle) (mainWorker bundle)) w)
    | Raise e => doInitialize_catch tid p e w
    end
  | Some (DI_Instantiate p) =>
    match r with
    | Ok _ =>
      match db (mgr w) with
      | Some h => set_task tid (DI_Connect p) (emit (EConnect h) w)
      | None => doInitialize_catch tid p (typeErrorNull "connect") w
      end
    | Raise e => doInitialize_catch tid p e w
    end
  | Some (DI_Connect p) =>
    match r with
    | Ok _ =>
      let c := nextHandle w in
      let w := upd_mgr (set_connection (Some c)) (bump_handle w) in
      let w := upd_initPromises (<[p := Fulfilled]>) (emit ERevoke w) in
      set_task tid (Done (Returned RVoid)) w
    | Raise e => doInitialize_catch tid p e w
    end
  | Some (IQ_Query p i) =>
    match r with
    | Ok _ =>
      let '(w1, t) := initQueries_loop p (S i) (emit (EQueryDone (Setup i) true) w) in
      set_task tid t w1
    | Raise e =>
      let '(w1, t) := initQueries_catch p e (emit (EQueryDone (Setup i) false) w) in
      set_task tid t w1
    end
  | Some (Q_Query sql startTime) =>
    match r with
    | Ok (PTable result) =>
      let executionTime := (clock w - startTime)%Z in
      set_task tid (Done (Returned (RResult (toQueryResult result executionTime))))
        (emit (EQueryDone (User tid) true) w)
    | Ok _ => w
    | Raise e =>
      set_task tid (Done (Threw (ErrObj ("Query execution failed: " +:+ errText e))))
        (emit (EQueryDone (User tid) false) w)
    end
  | Some (R_Register name url) =>
    match r with
    | Ok _ =>
      set_task tid (Done (Returned RVoid))
        (upd_mgr (λ m, set_registeredFiles ({[url]} ∪ registeredFiles m) m) w)
    | Raise e =>
      set_task tid
        (Done (Threw (ErrObj ("Failed to register file " +:+ name +:+ ": " +:+ errText e)))) w
    end
  | Some C_Close =>
    match r with
    | Ok _ =>
      let '(w1, t) := close_db (upd_mgr (set_connection None) w) in
      set_task tid t w1
    | Raise e => set_task tid (Done (Threw e)) w
    end
  | Some C_Terminate =>
    match r with
    | Ok _ =>
      set_task tid (Done (Returned RVoid)) (close_reset (upd_mgr (set_db None) w))
    | Raise e => set_task tid (Done (Threw e)) w
    end
  | _ => w
  end.

Definition step (a : Action) (w : World) : World :=
  match a with
  | ACall c => call c w
  | AWake t => wake t w
  | AResume t r => resume t r w
  | ATick now => set_clock now w
  end.

(** The world after a whole schedule. *)
Definition run (sched : list Action) (w : World) : World :=
  fold_left (λ w a, step a w) sched w.

(** ** Schedules used as examples *)

Definition okU : Resp := Ok PUnit.

Definition example_bundle : Bundle :=
  {| mainWorker := "https://cdn.example.com/worker.js"; mainModule := "duckdb.wasm" |}.

(** The answers that carry task [t], a [doInitialize] started with no
    module at hand, from the package import to the open connection. *)
Definition init_ok (t : nat) : list Action :=
  [AResume t (Ok (PModule 7)); AWake t; AResume t (Ok (PBundle example_bundle));
   AResume t (Ok (PResponse true 200%N "OK")); AResume t okU; AResume t okU;
   AResume t okU].

(** The same, stopped while [instantiate] is awaited. *)
Definition init_until_instantiate (t : nat) : list Action :=
  [AResume t (Ok (PModule 7)); AWake t; AResume t (Ok (PBundle example_bundle));
   AResume t (Ok (PResponse true 200%N "OK")); AResume t okU].

(** One setup statement is configured, [query] is called, initialisation
    succeeds, the setup statement is run and succeeds. *)
Definition example_ready : list Action :=
  [ACall (CConfigureInitQueries ["SET x=1"]); ACall (CQuery "SELECT 1")]
  ++ init_ok 1 ++ [AWake 2; AResume 3 okU].

(** Two setup statements are configured, [query] is called, initialisation
    succeeds, and the setup loop has submitted its first statement. *)
Definition example_setup_running : list Action :=
  [ACall (CConfigureInitQueries ["A"; "B"]); ACall (CQuery "SELECT 1")]
  ++ init_ok 1 ++ [AWake 2].

(** [close] is called as task [t] and the engine answers both of its
    awaits without error. *)
Definition close_ok (t : nat) : list Action :=
  [ACall CClose; AResume t okU; AResume t okU].

(** [query] is called on a new page and initialisation succeeds. *)
Definition example_initialized : list Action :=
  [ACall (CQuery "SELECT 1")] ++ init_ok 0.

(** [registerFile] is called twice for one URL before either call has
    reached the engine; both calls then go on. *)
Definition example_register_twice : list Action :=
  [ACall (CRegisterFile "x" "https://h/x")] ++ init_ok 0
  ++ [ACall (CRegisterFile "x" "https://h/x"); AWake 1; AWake 2;
      AResume 1 okU; AResume 2 okU].

(** The URLs the engine was asked to register, in order. *)
Definition registrations (l : list Event) : list string :=
  omap (λ e, match e with ERegister _ _ url => Some url | _ => None end) l.

(** A first [query] has started initialisation, which now awaits
    [instantiate]; a second [query] is called and runs on. *)
Definition example_second_caller : list Action :=
  [ACall (CQuery "SELECT 1")] ++ init_until_instantiate 0
  ++ [ACall (CQuery "SELECT 2"); AWake 2; AWake 2].

(** Initialisation started by [query] fails at [instantiate]. *)
Definition example_instantiate_fails : list Action :=
  [ACall (CQuery "SELECT 1")] ++ init_until_instantiate 0
  ++ [AResume 0 (Raise (ErrObj "instantiate failed"))].

(** How many engine instances were constructed. *)
Definition constructions (l : list Event) : nat :=
  length (omap (λ e, match e with ENewDb h => Some h | _ => None end) l).

(** ** Reading the log *)

(** [P l1 e] holds of every event [e] of the log and the events [l1] that
    came before it. *)
Definition each_preceded (P : list Event → Event → Prop) (l : list Event) : Prop :=
  ∀ l1 e l2, l = l1 ++ e :: l2 → P l1 e.

(** [registerFile] is called on a new page with one setup statement
    configured; initialisation succeeds and the call goes on. *)
Definition example_register_before_setup : list Action :=
  [ACall (CConfigureInitQueries ["INSTALL spatial"]);
   ACall (CRegisterFile "x" "https://h/x")]
  ++ init_ok 1 ++ [AWake 2].

(** A registration names the engine instance it is sent to; that instance
    was constructed before. *)
Definition registered_on_constructed (l1 : list Event) (e : Event) : Prop :=
  ∀ h name url, e = ERegister h name url → ENewDb h ∈ l1.

(** The instance in [db], and every instance a registration was sent to,
    was constructed. *)
Definition db_constructed (d : option nat) (l : list Event) : Prop :=
  (∀ h, d = Some h → ENewDb h ∈ l) ∧ each_preceded registered_on_constructed l.

(** ** Forgetting the [cdn] field *)

Definition scrub_config (c : DuckDBManagerConfig) : DuckDBManagerConfig :=
  {| version := version c; cdn := "" |}.

(** The world with the [cdn] field of the configuration blanked. *)
Definition scrub (w : World) : World :=
  upd_mgr (λ m, set_config (scrub_config (config m)) m) w.

(** The action with the [cdn] key removed from the argument of
    [configure]. *)
Definition scrub_action (a : Action) : Action :=
  match a with
  | ACall (CConfigure c) => ACall (CConfigure {| version' := version' c; cdn' := None |})
  | _ => a
  end.

(** Two pages that differ in the [cdn] they configure. *)
Definition example_cdn (cdn : string) : list Action :=
  [ACall (CConfigure {| version' := Some "1.30.0"; cdn' := Some cdn |});
   ACall (CQuery "SELECT 1");
   AResume 1 (Raise (ErrObj "Cannot find package"))].

(** The statements the connection received, in order. *)
Definition received (l : list Event) : list string :=
  omap (λ e, match e with EQuery _ _ sql => Some sql | _ => None end) l.

(** [query] is called as task [t]; the setup run it starts is task [S t];
    its first [n] statements succeed, the next one fails with [e], and the
    caller is resumed. *)
Definition query_with_failing_setup (t : nat) (sql : string) (n : nat) (e : Thrown)
  : list Action :=
  [ACall (CQuery sql); AWake t] ++ repeat (AResume (S t) okU) n
  ++ [AResume (S t) (Raise e); AWake t].

(** [query] is called as task [t]; the setup run it starts is task [S t];
    all its [n] statements succeed, and the caller is resumed. *)
Definition query_with_setup (t : nat) (sql : string) (n : nat) : list Action :=
  [ACall (CQuery sql); AWake t] ++ repeat (AResume (S t) okU) n ++ [AWake t].

(** Three setup statements are configured and the connection is open
    ([registerFile] started the initialisation and is still waiting). *)
Definition example_connected_three_statements : list Action :=
  [ACall (CConfigureInitQueries ["A"; "B"; "C"]); ACall (CRegisterFile "x" "https://h/x")]
  ++ init_ok 1.

(** ** The setup statements in the log *)

(** What the connection sees of the setup runs: statement [i] with text
    [q] is submitted; statement [i] is answered, well or not. *)
Inductive SetupEv :=
| Sub (i : nat) (q : string)
| Fin (i : nat) (ok : bool).

Definition setup_event (e : Event) : option SetupEv :=
  match e with
  | EQuery _ (Setup i) q => Some (Sub i q)
  | EQueryDone (Setup i) ok => Some (Fin i ok)
  | _ => None
  end.

Definition setup_trace (l : list Event) : list SetupEv := omap setup_event l.

(** One complete pass over the statements [qs], numbered from [i]: each
    statement is submitted, then answered well, before the next one. *)
Fixpoint expected_from (i : nat) (qs : list string) : list SetupEv :=
  match qs with
  | [] => []
  | q :: qs' => Sub i q :: Fin i true :: expected_from (S i) qs'
  end.

Definition expected (qs : list string) : list SetupEv := expected_from 0 qs.

(** No setup statement was answered with an error. *)
Definition no_failure (l : list SetupEv) : Prop := ∀ i, Fin i false ∉ l.

(** A statement of a caller of [query] comes after a complete pass. *)
Definition user_after_setup (qs : list string) (l1 : list Event) (e : Event) : Prop :=
  ∀ c t sql, e = EQuery c (User t) sql → expected qs `suffix_of` setup_trace l1.

(** The setup runs in flight: promise and current index of each. *)
Definition is_iq (t : Task) : option (nat * nat) :=
  match t with
  | IQ_Query p i => Some (p, i)
  | _ => None
  end.

Definition iq_state (ts : list Task) : list (nat * nat) := omap is_iq ts.

(** Actions other than a call of [close] or of [configureInitQueries]:
    what can happen within one connection lifetime once the statements are
    configured. *)
Definition keeps_setup (a : Action) : Prop :=
  match a with
  | ACall CClose | ACall (CConfigureInitQueries _) => False
  | _ => True
  end.

(** A new page on which [configureInitQueries(qs)] was called. *)
Definition configured (qs : list string) (g : option nat) : World :=
  step (ACall (CConfigureInitQueries qs)) (boot g).

(** The setup state of the manager, the runs in flight and the setup
    events logged so far fit together. *)
Definition setup_core (qs : list string) (m : Manager)
    (iq : list (nat * nat)) (T : list SetupEv) : Prop :=
  initQueries m = qs
  ∧ match iq with
    | [] =>
      if initQueriesExecuted m
      then expected qs `suffix_of` T ∧ (no_failure T → T = expected qs)
      else no_failure T → T = []
    | [(p, i)] =>
      initQueriesExecuted m = false
      ∧ initQueriesPromise m = Some p
      ∧ is_Some (connection m)
      ∧ ∃ F q, T = F ++ expected (take i qs) ++ [Sub i q]
               ∧ qs !! i = Some q
               ∧ (no_failure F → F = [])
    | _ => False
    end.

(** What a suspended task may be, given the setup flag. *)
Definition task_ok (executed : bool) (t : Task) : Prop :=
  match t with
  | Q_InitQueries _ WNow => executed = true
  | C_Close | C_Terminate => False
  | _ => True
  end.

Definition setup_inv (qs : list string) (w : World) : Prop :=
  setup_core qs (mgr w) (iq_state (tasks w)) (setup_trace (log w))
  ∧ (∀ p, setupPromises w !! p = Some Fulfilled → initQueriesExecuted (mgr w) = true)
  ∧ Forall (task_ok (initQueriesExecuted (mgr w))) (tasks w)
  ∧ each_preceded (user_after_setup qs) (log w).

(** With the setup statements configured: [query] is called,
    initialisation succeeds, the setup run succeeds, and the call submits
    its statement. *)
Definition example_query_with_setup : list Action :=
  [ACall (CQuery "SELECT 1")] ++ init_ok 1 ++ [AWake 2; AResume 3 okU; AWake 2].

(** ** The initialisations in the log and in the task list *)

(** The initialisations in flight: the promise of each, and whether it
    has constructed its engine instance. *)
Definition di_stage (t : Task) : option (nat * bool) :=
  match t with
  | DI_Import p | DI_ImportCdn p _ | DI_Module p _ | DI_SelectBundle p
  | DI_Fetch p _ | DI_Blob p _ => Some (p, false)
  | DI_Instantiate p | DI_Connect p => Some (p, true)
  | _ => None
  end.

Definition di_state (ts : list Task) : list (nat * bool) := omap di_stage ts.

(** Actions other than a call of [close]: one connection lifetime. *)
Definition no_close (a : Action) : Prop :=
  match a with
  | ACall CClose => False
  | _ => True
  end.

Definition task_no_close (t : Task) : Prop :=
  match t with
  | C_Close | C_Terminate => False
  | _ => True
  end.

(** The memoised promise, the promise store, the engine instance and the
    initialisations in flight fit together. *)
Definition init_core (m : Manager) (ps : list PState) (di : list (nat * bool)) : Prop :=
  match di with
  | [] => True
  | [(p, built)] =>
    initPromise m = Some p ∧ ps !! p = Some Pending
    ∧ (built = false → db m = None)
  | _ => False
  end.

Definition init_inv (w : World) : Prop :=
  constructions (log w) = match db (mgr w) with Some _ => 1 | None => 0 end
  ∧ init_core (mgr w) (initPromises w) (di_state (tasks w))
  ∧ (∀ p, initPromises w !! p = Some Pending → ∃ b, (p, b) ∈ di_state (tasks w))
  ∧ Forall task_no_close (tasks w).

(** Initialisation started by [query] fails at the fetch of the worker. *)
Definition example_fetch_fails : list Action :=
  [ACall (CQuery "SELECT 1"); AResume 0 (Ok (PModule 7)); AWake 0;
   AResume 0 (Ok (PBundle example_bundle));
   AResume 0 (Raise (ErrObj "Network error"))].

(** The same with a setup statement configured; then the initialisation
    completes and the first caller runs on. *)
Definition example_second_caller_with_setup : list Action :=
  [ACall (CConfigureInitQueries ["A"]); ACall (CQuery "SELECT 1")]
  ++ init_until_instantiate 1
  ++ [ACall (CQuery "SELECT 2"); AWake 3; AWake 3;
      AResume 1 okU; AResume 1 okU; AWake 2; AWake 2].

(** ** Calls of [registerFile] and the state of the initialisation *)




(** A [query] has started initialisation, which now awaits [instantiate];
    [registerFile] is called and runs on. *)
Definition example_register_in_window : list Action :=
  [ACall (CQuery "SELECT 1")] ++ init_until_instantiate 0
  ++ [ACall (CRegisterFile "x" "https://h/x"); AWake 2].

(** ** The acquisition that follows a teardown *)

(** The client module that [loadDuckDBModule] finds without importing: the
    memoised one, or else the global one. *)
Definition module_at_hand (w : World) : option nat :=
  match duckdbModule (mgr w) with
  | Some m => Some m
  | None => global w
  end.

(** The answers that carry task [t], a [doInitialize] that holds the
    client module, from the bundle selection to the open connection. *)
Definition init_from_module (t : nat) (b : Bundle) : list Action :=
  [AWake t; AResume t (Ok (PBundle b)); AResume t (Ok (PResponse true 200%N "OK"));
   AResume t okU; AResume t okU; AResume t okU].

(** One complete pass over the setup statements [qs] on connection [c],
    numbered from [i]: each statement is submitted, then answered well. *)
Fixpoint setup_pass (c i : nat) (qs : list string) : list Event :=
  match qs with
  | [] => []
  | q :: qs' => EQuery c (Setup i) q :: EQueryDone (Setup i) true :: setup_pass c (S i) qs'
  end.

(** What follows a [close] that was task [t] of the world [w]: the
    statements [qs] are configured (task [t + 1]); [query] is called (task
    [t + 3]) and starts an initialisation (task [t + 2]); the package
    import, when no module is at hand, answers with [m]; the initialisation
    goes through with bundle [b]; the caller is resumed and starts the
    setup run (task [t + 4]), whose statements all succeed; the caller is
    resumed again. *)
Definition reacquisition (w : World) (t : nat) (qs : list string) (sql : string)
    (m : nat) (b : Bundle) : list Action :=
  ([ACall (CConfigureInitQueries qs); ACall (CQuery sql)]
   ++ match module_at_hand w with
      | Some _ => []
      | None => [AResume (t + 2) (Ok (PModule m))]
      end)
  ++ init_from_module (t + 2) b
  ++ [AWake (t + 3)] ++ repeat (AResume (t + 4) okU) (length qs) ++ [AWake (t + 3)].

(** ** The errors the manager raises *)

(** The texts with which the messages of the manager's own errors begin:
    the [catch] of [doInitialize], the [catch] in [executeInitQueries], the
    connection test and the [catch] of [query], the [catch] and the engine
    test of [registerFile]. *)
Definition manager_prefixes : list string :=
  ["Failed to initialize DuckDB: "; "Initialization query failed: ";
   "DuckDB connection not available"; "Query execution failed: ";
   "Failed to register file "; "DuckDB not initialized"].

(** An [Error] object whose message begins with one of them. *)
Definition is_wrapped (e : Thrown) : bool :=
  match e with
  | ErrObj m => existsb (λ p, String.prefix p m) manager_prefixes
  | NonErr _ => false
  end.

Definition task_wrapped (t : Task) : Prop :=
  match t with
  | Done (Threw e) => is_wrapped e = true
  | C_Close | C_Terminate => False
  | _ => True
  end.

Definition promise_wrapped (s : PState) : Prop :=
  match s with
  | Rejected e => is_wrapped e = true
  | _ => True
  end.

Definition errors_wrapped (w : World) : Prop :=
  Forall task_wrapped (tasks w)
  ∧ Forall promise_wrapped (initPromises w)
  ∧ Forall promise_wrapped (setupPromises w).

(** ** The registered set and the registrations sent *)

(** Every URL of the registered set, and the URL of every [registerFile]
    that awaits the engine, was sent to the engine. *)
Definition register_inv (w : World) : Prop :=
  (∀ url, url ∈ registeredFiles (mgr w) → url ∈ registrations (log w))
  ∧ (∀ t name url, tasks w !! t = Some (R_Register name url) →
       url ∈ registrations (log w)).

(** [registerFile] is called on a new page and reaches the engine; the
    manager is closed before the engine answers; the answer arrives; a
    [query] then initialises the manager again. *)
Definition example_register_across_close : list Action :=
  [ACall (CRegisterFile "x" "https://h/x")] ++ init_ok 0 ++ [AWake 1]
  ++ close_ok 2 ++ [AResume 1 okU; ACall (CQuery "SELECT 1")]
  ++ [AWake 3; AResume 3 (Ok (PBundle example_bundle));
      AResume 3 (Ok (PResponse true 200%N "OK")); AResume 3 okU; AResume 3 okU;
      AResume 3 okU].

(** ** A page that preloads the client module *)

(** No import was started, and every use of a module is a use of [m]. *)
Definition event_preloaded (m : nat) (e : Event) : Prop :=
  match e with
  | EImportPackage | EImportUrl _ => False
  | ESelectBundle m' => m' = m
  | _ => True
  end.

Definition task_preloaded (m : nat) (t : Task) : Prop :=
  match t with
  | DI_Import _ | DI_ImportCdn _ _ => False
  | DI_Module _ m' => m' = m
  | _ => True
  end.

Definition preloaded_inv (m : nat) (w : World) : Prop :=
  global w = Some m
  ∧ (duckdbModule (mgr w) = None ∨ duckdbModule (mgr w) = Some m)
  ∧ Forall (event_preloaded m) (log w)
  ∧ Forall (task_preloaded m) (tasks w).

(** ** Clock readings *)

(** [performance.now()] never goes back: every reading in the schedule is
    at least the one before, starting from [now]. *)
Fixpoint ticks_monotone (now : Z) (sched : list Action) : Prop :=
  match sched with
  | [] => True
  | ATick n :: rest => (now ≤ n)%Z ∧ ticks_monotone n rest
  | _ :: rest => ticks_monotone now rest
  end.

Definition task_timed (now : Z) (t : Task) : Prop :=
  match t with
  | Q_Query _ startTime => (startTime ≤ now)%Z
  | Done (Returned (RResult r)) => (0 ≤ executionTime r)%Z
  | _ => True
  end.

(** ** One engine instance and one connection for all callers *)

(** The event names the engine instance or the connection that the
    manager [m] holds. *)
Definition sent_to (m : Manager) (e : Event) : Prop :=
  match e with
  | EQuery c _ _ => connection m = Some c
  | ENewDb h | EInstantiate h _ _ | EConnect h | ERegister h _ _ => db m = Some h
  | _ => True
  end.

Definition lifetime_inv (w : World) : Prop :=
  Forall (sent_to (mgr w)) (log w)
  ∧ (∀ t y p b, tasks w !! t = Some y → di_stage y = Some (p, b) →
       connection (mgr w) = None ∧ (b = true → is_Some (db (mgr w))))
  ∧ (is_Some (connection (mgr w)) →
       is_Some (db (mgr w))
       ∧ ∃ p, initPromise (mgr w) = Some p ∧ initPromises w !! p = Some Fulfilled).

(** ** Failures before the engine instance is constructed *)

(** The promise of the initialisation and the error that reaches the
    [catch] of [doInitialize] when the step that task [y] awaits, one of
    those before [new AsyncDuckDB], is answered with [r]: both imports
    failed, the bundle selection failed, the fetch of the worker failed or
    came back not ok, or reading its body failed. *)
Definition early_failure (y : Task) (r : Resp) : option (nat * Thrown) :=
  match y, r with
  | DI_ImportCdn p importError, Raise cdnError =>
    Some (p, loadError importError cdnError)
  | DI_SelectBundle p, Raise e => Some (p, e)
  | DI_Fetch p _, Raise e => Some (p, e)
  | DI_Fetch p _, Ok (PResponse false status statusText) =>
    Some (p, ErrObj ("Failed to fetch worker: " +:+ pretty status +:+ " " +:+ statusText))
  | DI_Blob p _, Raise e => Some (p, e)
  | _, _ => None
  end.

(** The message that replaces an error which mentions CORS. *)
Definition corsMessage : string :=
  "Failed to initialize DuckDB: CORS policy blocked worker loading. This may be a browser security restriction in development mode.".

(** * File references in a statement: [src/path-resolver.ts] *)

(** A [string] is the text in UTF-8. The functions below test characters
    against ASCII characters only and cut texts only next to ASCII
    characters, so they read the same on UTF-8 bytes as on the UTF-16 code
    units of the JavaScript string. *)

Definition chars : string → list Ascii.ascii := String.list_ascii_of_string.
Definition str : list Ascii.ascii → string := String.string_of_list_ascii.

(** The character written as a text of length one. *)
Definition charOf (s : string) : Ascii.ascii :=
  match s with
  | String c _ => c
  | EmptyString => Ascii.zero
  end.

(** [s.startsWith(p)] and [s.endsWith(p)] *)
Definition startsWith (p s : string) : bool := String.prefix p s.
Definition endsWith (p s : string) : bool :=
  bool_decide (chars p `suffix_of` chars s).

(** [s.slice(n)] for [0 ≤ n] and [s.slice(0, -1)] *)
Definition sliceFrom (n : nat) (s : string) : string := str (drop n (chars s)).
Definition sliceButLast (s : string) : string :=
  str (take (length (chars s) - 1) (chars s)).

Record PathResolutionOptions := { baseUrl : string }.

(** [resolvePath]; [origin] is [window.location.origin]. *)
Definition resolvePath (origin : string) (path : string)
    (options : PathResolutionOptions) : string :=
  if startsWith "http://" path || startsWith "https://" path then path
  else if startsWith "/" path then origin +:+ path
  else
    let baseUrl' := if endsWith "/" (baseUrl options)
                    then sliceButLast (baseUrl options)
                    else baseUrl options in
    let cleanPath := if startsWith "./" path then sliceFrom 2 path else path in
    baseUrl' +:+ "/" +:+ cleanPath.

(** ** The regular expressions of [extractFilePaths] *)

(** The constructs the two expressions use. *)
Inductive Atom :=
| Lit (c : Ascii.ascii)       (* the character c *)
| Except (c : Ascii.ascii).   (* [^c] *)

Inductive Re :=
| Eps
| One (a : Atom)
| Many (a : Atom)       (* a+, greedy *)
| Seq (r1 r2 : Re)
| Alt (r1 r2 : Re)
| Group (n : nat) (r : Re).

(** Canonicalisation under the flag [i]: an ASCII lower-case letter
    becomes its upper-case letter; no other character changes, and no
    character outside ASCII is canonicalised into ASCII. *)
Definition canon (x : Ascii.ascii) : Ascii.ascii :=
  let n := Ascii.nat_of_ascii x in
  if Nat.leb 97 n && Nat.leb n 122 then Ascii.ascii_of_nat (n - 32) else x.

Definition sameChar (ignoreCase : bool) (x c : Ascii.ascii) : bool :=
  if ignoreCase then Ascii.eqb (canon x) (canon c) else Ascii.eqb x c.

Definition atomMatches (ignoreCase : bool) (a : Atom) (x : Ascii.ascii) : bool :=
  match a with
  | Lit c => sameChar ignoreCase x c
  | Except c => negb (sameChar ignoreCase x c)
  end.

(** A greedy repetition, one time or more: as many characters as match,
    then one fewer each time the rest of the expression fails. *)
Fixpoint many {R : Type} (ok : Ascii.ascii → bool) (s : list Ascii.ascii)
    (k : list Ascii.ascii → option R) : option R :=
  match s with
  | [] => None
  | x :: s' =>
    if ok x
    then match many ok s' k with
         | Some r => Some r
         | None => k s'
         end
    else None
  end.

(** The backtracking matcher: [r] is matched at the start of [s], then the
    continuation [k] is given what is left of [s] and the captures; the
    first success in the order of the alternatives is the result. *)
Fixpoint matchRe {R : Type} (ignoreCase : bool) (r : Re) (s : list Ascii.ascii)
    (caps : list (nat * list Ascii.ascii))
    (k : list Ascii.ascii → list (nat * list Ascii.ascii) → option R) : option R :=
  match r with
  | Eps => k s caps
  | One a =>
    match s with
    | x :: s' => if atomMatches ignoreCase a x then k s' caps else None
    | [] => None
    end
  | Many a => many (atomMatches ignoreCase a) s (λ s', k s' caps)
  | Seq r1 r2 =>
    matchRe ignoreCase r1 s caps (λ s1 caps1, matchRe ignoreCase r2 s1 caps1 k)
  | Alt r1 r2 =>
    match matchRe ignoreCase r1 s caps k with
    | Some x => Some x
    | None => matchRe ignoreCase r2 s caps k
    end
  | Group n r =>
    matchRe ignoreCase r s caps
      (λ s' caps', k s' ((n, take (length s - length s') s) :: caps'))
  end.

(** The characters of a word, one after the other. *)
Fixpoint word (w : list Ascii.ascii) : Re :=
  match w with
  | [] => Eps
  | c :: w' => Seq (One (Lit c)) (word w')
  end.

(** [/'([^']+\.(parquet|csv|json|arrow))'/] and the same with the double
    quote, [q] being the quote character. *)
Definition fileRe (q : Ascii.ascii) : Re :=
  Seq (One (Lit q))
    (Seq (Group 1
            (Seq (Many (Except q))
               (Seq (One (Lit (charOf ".")))
                  (Group 2
                     (Alt (word (chars "parquet"))
                        (Alt (word (chars "csv"))
                           (Alt (word (chars "json")) (word (chars "arrow")))))))))
       (One (Lit q))).

(** [match[n]]: what group [n] matched last. *)
Fixpoint capture (n : nat) (caps : list (nat * list Ascii.ascii)) : list Ascii.ascii :=
  match caps with
  | [] => []
  | (m, g) :: caps' => if Nat.eqb m n then g else capture n caps'
  end.

(** One attempt of [exec] at the start of [s], flags [gi]: the text of
    group 1 and the length of the match. *)
Definition matchAt (q : Ascii.ascii) (s : list Ascii.ascii) : option (list Ascii.ascii * nat) :=
  matchRe true (fileRe q) s []
    (λ s' caps, Some (capture 1 caps, length s - length s')).

(** The [while ((match = re.exec(sql)) !== null)] loop over the text from
    index 0: [exec] tries each index from [lastIndex] on; when the
    expression matches at an index, [match[1]] is pushed and [lastIndex]
    moves to the end of the match. [skip] counts the characters up to
    [lastIndex]. *)
Fixpoint execLoop (q : Ascii.ascii) (s : list Ascii.ascii) (skip : nat) : list (list Ascii.ascii) :=
  match s with
  | [] => []
  | _ :: s' =>
    match skip with
    | S n => execLoop q s' n
    | 0 =>
      match matchAt q s with
      | Some (g, len) => g :: execLoop q s' (len - 1)
      | None => execLoop q s' 0
      end
    end
  end.

(** [new Set(paths)], then the spread of the set: each element once, at
    the place of its first occurrence. *)
Definition setAdd (acc : list string) (x : string) : list string :=
  if decide (x ∈ acc) then acc else acc ++ [x].

Definition setOf (l : list string) : list string := foldl setAdd [] l.

Definition singleQuote : Ascii.ascii := charOf "'".
Definition doubleQuote : Ascii.ascii := Ascii.ascii_of_nat 34.

(** [extractFilePaths] *)
Definition extractFilePaths (sql : string) : list string :=
  let paths := str <$> execLoop singleQuote (chars sql) 0 in
  let paths := paths ++ (str <$> execLoop doubleQuote (chars sql) 0) in
  setOf paths.

(** [Map.prototype.set] on a map kept in insertion order. *)
Fixpoint mapSet (k v : string) (m : list (string * string)) : list (string * string) :=
  match m with
  | [] => [(k, v)]
  | (k', v') :: m' => if decide (k' = k) then (k, v) :: m' else (k', v') :: mapSet k v m'
  end.

(** [resolvePathsInSQL]: the map, as the list of its entries in
    iteration order. *)
Definition resolvePathsInSQL (origin : string) (sql : string)
    (options : PathResolutionOptions) : list (string * string) :=
  foldl (λ pathMap path, mapSet path (resolvePath origin path options) pathMap)
        [] (extractFilePaths sql).

(** What a text must look like to be taken for a file: a stem that is
    not empty, a dot, and one of the four extensions in any case. *)
Definition extensions : list (list Ascii.ascii) :=
  [chars "parquet"; chars "csv"; chars "json"; chars "arrow"].

Definition isDataFile (p : list Ascii.ascii) : Prop :=
  ∃ stem ext, p = stem ++ charOf "." :: ext ∧ stem ≠ []
              ∧ ∃ e, e ∈ extensions ∧ canon <$> ext = canon <$> e.

(** A URL that [resolvePath] returns as it is. *)
Definition isAbsoluteUrl (s : string) : bool :=
  startsWith "http://" s || startsWith "https://" s.

(** What it means for [r] to match at the start of [s] leaving [s'], from
    the captures [caps] to the captures [caps']: the matches among which
    the backtracking matcher looks for the first one that lets the rest of
    the expression match. *)
Fixpoint Matches (ignoreCase : bool) (r : Re) (s s' : list Ascii.ascii)
    (caps caps' : list (nat * list Ascii.ascii)) : Prop :=
  match r with
  | Eps => s' = s ∧ caps' = caps
  | One a => ∃ x, s = x :: s' ∧ atomMatches ignoreCase a x = true ∧ caps' = caps
  | Many a =>
    ∃ pre, pre ≠ [] ∧ s = pre ++ s'
           ∧ Forall (λ x, atomMatches ignoreCase a x = true) pre ∧ caps' = caps
  | Seq r1 r2 =>
    ∃ s1 caps1, Matches ignoreCase r1 s s1 caps caps1
                ∧ Matches ignoreCase r2 s1 s' caps1 caps'
  | Alt r1 r2 =>
    Matches ignoreCase r1 s s' caps caps' ∨ Matches ignoreCase r2 s s' caps caps'
  | Group n r =>
    ∃ caps1, Matches ignoreCase r s s' caps caps1
             ∧ caps' = (n, take (length s - length s') s) :: caps1
  end.

Definition isQuote (q : Ascii.ascii) : Prop := q = singleQuote ∨ q = doubleQuote.

(** * The embeds that share the manager: [src/embedded.ts] *)

(** ** Texts *)

Definition dq : string := String (Ascii.ascii_of_nat 34) EmptyString.

(** [class="v"] *)
Definition class (v : string) : string := "class=" +:+ dq +:+ v +:+ dq.

Definition byte (x : Ascii.ascii) : nat := Ascii.nat_of_ascii x.

(** The white space and the line terminators of ECMAScript, as [trim]
    removes them, in UTF-8: U+0009 to U+000D and U+0020; U+00A0; U+1680,
    U+2000 to U+200A, U+2028, U+2029, U+202F, U+205F, U+3000 and U+FEFF. *)
Definition isSpace1 (a : Ascii.ascii) : bool :=
  (Nat.leb 9 (byte a) && Nat.leb (byte a) 13) || Nat.eqb (byte a) 32.

Definition isSpace2 (a b : Ascii.ascii) : bool :=
  Nat.eqb (byte a) 194 && Nat.eqb (byte b) 160.

Definition isSpace3 (a b c : Ascii.ascii) : bool :=
  (Nat.eqb (byte a) 225 && Nat.eqb (byte b) 154 && Nat.eqb (byte c) 128)
  || (Nat.eqb (byte a) 226 && Nat.eqb (byte b) 128
      && ((Nat.leb 128 (byte c) && Nat.leb (byte c) 138)
          || Nat.eqb (byte c) 168 || Nat.eqb (byte c) 169 || Nat.eqb (byte c) 175))
  || (Nat.eqb (byte a) 226 && Nat.eqb (byte b) 129 && Nat.eqb (byte c) 159)
  || (Nat.eqb (byte a) 227 && Nat.eqb (byte b) 128 && Nat.eqb (byte c) 128)
  || (Nat.eqb (byte a) 239 && Nat.eqb (byte b) 187 && Nat.eqb (byte c) 191).

(** The text is white space from end to end. *)
Fixpoint allSpace (s : list Ascii.ascii) : bool :=
  match s with
  | [] => true
  | a :: s1 =>
    if isSpace1 a then allSpace s1
    else
      match s1 with
      | [] => false
      | b :: s2 =>
        if isSpace2 a b then allSpace s2
        else
          match s2 with
          | [] => false
          | c :: s3 => isSpace3 a b c && allSpace s3
          end
      end
  end.

(** [!sql.trim()] *)
Definition isBlank (sql : string) : bool := allSpace (chars sql).

(** [s.split(sep)] for a separator of one character; [cur] is the piece
    being read. *)
Fixpoint split (sep : Ascii.ascii) (s cur : list Ascii.ascii) : list (list Ascii.ascii) :=
  match s with
  | [] => [cur]
  | x :: s' =>
    if Ascii.eqb x sep then cur :: split sep s' [] else split sep s' (cur ++ [x])
  end.

(** [originalPath.split('/').pop() ?? originalPath] *)
Definition fileName (originalPath : string) : string :=
  match last (split (charOf "/") (chars originalPath) []) with
  | Some piece => str piece
  | None => originalPath
  end.

(** What the browser writes for the text of a node when it serialises it:
    the ampersand, the no-break space (U+00A0) and the two angle brackets
    become character references. *)
Fixpoint escapeChars (s : list Ascii.ascii) : list Ascii.ascii :=
  match s with
  | [] => []
  | a :: s1 =>
    if Ascii.eqb a (charOf "&") then chars "&amp;" ++ escapeChars s1
    else if Ascii.eqb a (charOf "<") then chars "&lt;" ++ escapeChars s1
    else if Ascii.eqb a (charOf ">") then chars "&gt;" ++ escapeChars s1
    else
      match s1 with
      | b :: s2 =>
        if isSpace2 a b then chars "&nbsp;" ++ escapeChars s2
        else a :: escapeChars s1
      | [] => [a]
      end
  end.

(** [escapeHtml]: [div.textContent = text; return div.innerHTML] *)
Definition escapeHtml (text : string) : string := str (escapeChars (chars text)).

(** [String(cell)] *)
Definition jsString (v : JsVal) : string :=
  match v with
  | JUndefined => "undefined"
  | JNull => "null"
  | JBool true => "true"
  | JBool false => "false"
  | JNum n => pretty n
  | JStr s => s
  end.

(** [x.toFixed(2)] of a whole number *)
Definition toFixed2 (x : Z) : string := pretty x +:+ ".00".

(** ** The fields of [Embedded] *)

Inductive EmbeddedState := StIdle | StLoading | StSuccess | StError.

#[global] Instance EmbeddedState_eq_dec : EqDecision EmbeddedState.
Proof. solve_decision. Defined.

(** The options that the methods below read. *)
Record EmbeddedOptions := {
  baseUrl' : string;
  duckdbVersion : string;
  duckdbCDN : string
}.

(** The output element: its class attribute and the markup assigned to
    it. *)
Record OutputElement := { className : string; innerHTML : string }.

(** A button: its [disabled] property, and whether its class list has
    [sql-workbench-button-hidden]. *)
Record Button := { disabled : bool; hidden : bool }.

(** The elements are null once the embed is destroyed. The editor is kept
    as its text content. *)
Record Embedded := {
  options : EmbeddedOptions;
  initialCode : string;
  editorElement : option string;
  outputElement : option OutputElement;
  runButton : option Button;
  resetButton : option Button;
  state : EmbeddedState;
  destroyed : bool
}.

Definition set_editorElement (v : option string) (em : Embedded) : Embedded :=
  {| options := options em; initialCode := initialCode em; editorElement := v;
     outputElement := outputElement em; runButton := runButton em;
     resetButton := resetButton em; state := state em; destroyed := destroyed em |}.

Definition set_outputElement (v : option OutputElement) (em : Embedded) : Embedded :=
  {| options := options em; initialCode := initialCode em;
     editorElement := editorElement em; outputElement := v;
     runButton := runButton em; resetButton := resetButton em; state := state em;
     destroyed := destroyed em |}.

Definition set_runButton (v : option Button) (em : Embedded) : Embedded :=
  {| options := options em; initialCode := initialCode em;
     editorElement := editorElement em; outputElement := outputElement em;
     runButton := v; resetButton := resetButton em; state := state em;
     destroyed := destroyed em |}.

Definition set_resetButton (v : option Button) (em : Embedded) : Embedded :=
  {| options := options em; initialCode := initialCode em;
     editorElement := editorElement em; outputElement := outputElement em;
     runButton := runButton em; resetButton := v; state := state em;
     destroyed := destroyed em |}.

Definition set_state (v : EmbeddedState) (em : Embedded) : Embedded :=
  {| options := options em; initialCode := initialCode em;
     editorElement := editorElement em; outputElement := outputElement em;
     runButton := runButton em; resetButton := resetButton em; state := v;
     destroyed := destroyed em |}.

Definition set_destroyed (v : bool) (em : Embedded) : Embedded :=
  {| options := options em; initialCode := initialCode em;
     editorElement := editorElement em; outputElement := outputElement em;
     runButton := runButton em; resetButton := resetButton em; state := state em;
     destroyed := v |}.

(** The constructor: the elements as [createUI] makes them, the editor
    after [updateEditor]. *)
Definition new_Embedded (displayed : string → string) (opts : EmbeddedOptions)
    (code : string) : Embedded :=
  {| options := opts; initialCode := code;
     editorElement := Some (displayed code);
     outputElement :=
       Some {| className := "sql-workbench-output sql-workbench-output-hidden";
               innerHTML := "" |};
     runButton := Some {| disabled := false; hidden := false |};
     resetButton := Some {| disabled := false; hidden := true |};
     state := StIdle; destroyed := false |}.

(** ** The methods that do not suspend *)

(** [getCode] *)
Definition getCode (em : Embedded) : string := default "" (editorElement em).

(** [setState] *)
Definition setState (st : EmbeddedState) (em : Embedded) : Embedded :=
  let em := set_state st em in
  match runButton em, resetButton em with
  | Some run, Some reset =>
    let isLoading := bool_decide (st = StLoading) in
    set_resetButton (Some {| disabled := isLoading; hidden := hidden reset |})
      (set_runButton (Some {| disabled := isLoading; hidden := hidden run |}) em)
  | _, _ => em
  end.

(** [showResetButton] *)
Definition showResetButton (em : Embedded) : Embedded :=
  match resetButton em with
  | Some reset => set_resetButton (Some {| disabled := disabled reset; hidden := false |}) em
  | None => em
  end.

(** [showLoading] *)
Definition showLoading (em : Embedded) : Embedded :=
  match outputElement em with
  | None => em
  | Some _ =>
    set_outputElement
      (Some {| className := "sql-workbench-output sql-workbench-loading";
               innerHTML :=
                 nl +:+ "      <div " +:+ class "sql-workbench-loading" +:+ ">" +:+ nl +:+
                 "        <div " +:+ class "sql-workbench-spinner" +:+ "></div>" +:+ nl +:+
                 "        <span>Executing query...</span>" +:+ nl +:+
                 "      </div>" +:+ nl +:+
                 "    " |}) em
  end.

(** The markup of [showError]. *)
Definition errorHTML (message : string) : string :=
  nl +:+ "      <div " +:+ class "sql-workbench-error" +:+ ">" +:+ nl +:+
  "        <div " +:+ class "sql-workbench-error-title" +:+ ">Error</div>" +:+ nl +:+
  "        <div>" +:+ escapeHtml message +:+ "</div>" +:+ nl +:+
  "      </div>" +:+ nl +:+
  "    ".

(** [showError] *)
Definition showError (message : string) (em : Embedded) : Embedded :=
  match outputElement em with
  | None => em
  | Some _ =>
    set_outputElement
      (Some {| className := "sql-workbench-output"; innerHTML := errorHTML message |}) em
  end.

(** The loops of [showResult]: [tableHTML +=] for each column, for each
    cell of a row, for each row. *)
Definition headerCells (tableHTML : string) (cols : list string) : string :=
  foldl (λ html column, html +:+ "<th>" +:+ escapeHtml column +:+ "</th>") tableHTML cols.

Definition rowCells (tableHTML : string) (row : list JsVal) : string :=
  foldl (λ html cell,
           let cellValue := match cell with
                            | JNull | JUndefined => "NULL"
                            | _ => jsString cell
                            end in
           html +:+ "<td>" +:+ escapeHtml cellValue +:+ "</td>")
        tableHTML row.

Definition bodyRows (tableHTML : string) (rs : list (list JsVal)) : string :=
  foldl (λ html row, rowCells (html +:+ "<tr>") row +:+ "</tr>") tableHTML rs.

(** The markup of [showResult]. *)
Definition resultHTML (result : QueryResult) : string :=
  if Nat.eqb (rowCount result) 0
  then
    nl +:+ "        <div>Query executed successfully. No rows returned.</div>" +:+ nl +:+
    "        <div " +:+ class "sql-workbench-metadata" +:+ ">" +:+ nl +:+
    "          <span>Execution time: " +:+ toFixed2 (executionTime result) +:+ "ms</span>"
    +:+ nl +:+
    "        </div>" +:+ nl +:+
    "      "
  else
    let tableHTML := "<div " +:+ class "sql-workbench-result-table" +:+ "><table><thead><tr>" in
    let tableHTML := headerCells tableHTML (columns result) in
    let tableHTML := tableHTML +:+ "</tr></thead><tbody>" in
    let tableHTML := bodyRows tableHTML (rows result) in
    let tableHTML := tableHTML +:+ "</tbody></table></div>" in
    tableHTML +:+
    nl +:+ "      <div " +:+ class "sql-workbench-metadata" +:+ ">" +:+ nl +:+
    "        <span>" +:+ pretty (rowCount result) +:+ " row"
    +:+ (if Nat.eqb (rowCount result) 1 then "" else "s") +:+ "</span>" +:+ nl +:+
    "        <span>" +:+ pretty (length (columns result)) +:+ " column"
    +:+ (if Nat.eqb (length (columns result)) 1 then "" else "s") +:+ "</span>" +:+ nl +:+
    "        <span>Execution time: " +:+ toFixed2 (executionTime result) +:+ "ms</span>"
    +:+ nl +:+
    "      </div>" +:+ nl +:+
    "    ".

(** [showResult] *)
Definition showResult (result : QueryResult) (em : Embedded) : Embedded :=
  match outputElement em with
  | None => em
  | Some _ =>
    set_outputElement
      (Some {| className := "sql-workbench-output"; innerHTML := resultHTML result |}) em
  end.

(** [setCode]; [displayed code] is the text content of the editor once
    [updateEditor] has replaced its markup by the highlighted [code]. *)
Definition setCode (displayed : string → string) (code : string) (em : Embedded) : Embedded :=
  match editorElement em with
  | None => em
  | Some _ => set_editorElement (Some (displayed code)) em
  end.

(** [reset] *)
Definition Embedded_reset (displayed : string → string) (em : Embedded) : Embedded :=
  let em := setCode displayed (initialCode em) em in
  let em := setState StIdle em in
  let em := match outputElement em with
            | Some _ =>
              set_outputElement
                (Some {| className := "sql-workbench-output sql-workbench-output-hidden";
                         innerHTML := "" |}) em
            | None => em
            end in
  match resetButton em with
  | Some reset => set_resetButton (Some {| disabled := disabled reset; hidden := true |}) em
  | None => em
  end.

(** [destroy] *)
Definition Embedded_destroy (em : Embedded) : Embedded :=
  if destroyed em then em
  else
    set_destroyed true
      (set_resetButton None
         (set_runButton None (set_outputElement None (set_editorElement None em)))).

(** ** [run], its suspension points, and the page *)

(** A call of [registerFile] or of [query] made by [run]: the task in the
    manager's world that is the call. *)
Inductive Request :=
| ReqRegister (name url : string) (task : nat)
| ReqQuery (sql : string) (task : nat).

(** What [run] shows when its waiting is over. *)
Inductive RunResult :=
| Shown (result : QueryResult)
| Caught (message : string).

(** What is observed of the runs: run [r] of embed [e] read the text
    [sql] of the editor and the clock; it called [configure]; it called
    [registerFile] or [query]; it set the final state and showed [res], at
    a time when the clock read [now]. *)
Inductive PageEvent :=
| Started (r e : nat) (sql : string) (startTime : Z)
| Configured (r : nat) (c : PartialConfig)
| Requested (r : nat) (req : Request)
| Finished (r e : nat) (now : Z) (res : RunResult).

(** One constructor per [await] of [run]. *)
Inductive RunTask :=
| Run_Register (e : nat) (sql : string) (startTime : Z)
    (rest : list (string * string)) (task : nat)
| Run_Query (e : nat) (sql : string) (startTime : Z) (task : nat)
| Run_Delay (e : nat) (res : RunResult) (due : Z)
| Run_Done.

(** The page: the manager's world, [window.location.origin], what the
    text content of the editor is once the highlighted markup of a code
    has been assigned to it, the embeds, the calls of [run], what was
    observed of them, and everything that happened in the manager's
    world. *)
Record Page := {
  manager : World;
  origin : string;
  displayed : string → string;
  embeds : list Embedded;
  runs : list RunTask;
  trace : list PageEvent;
  history : list Action
}.

(** The page when the script has loaded, with [window.duckdb] holding
    [g]. *)
Definition load (g : option nat) (o : string) (d : string → string) : Page :=
  {| manager := boot g; origin := o; displayed := d; embeds := []; runs := [];
     trace := []; history := [] |}.

(** Something happens in the manager's world. *)
Definition act (a : Action) (pg : Page) : Page :=
  {| manager := step a (manager pg); origin := origin pg; displayed := displayed pg;
     embeds := embeds pg; runs := runs pg; trace := trace pg;
     history := history pg ++ [a] |}.

Definition upd_embeds (f : list Embedded → list Embedded) (pg : Page) : Page :=
  {| manager := manager pg; origin := origin pg; displayed := displayed pg;
     embeds := f (embeds pg); runs := runs pg; trace := trace pg;
     history := history pg |}.

Definition upd_runs (f : list RunTask → list RunTask) (pg : Page) : Page :=
  {| manager := manager pg; origin := origin pg; displayed := displayed pg;
     embeds := embeds pg; runs := f (runs pg); trace := trace pg;
     history := history pg |}.

Definition observe (ev : PageEvent) (pg : Page) : Page :=
  {| manager := manager pg; origin := origin pg; displayed := displayed pg;
     embeds := embeds pg; runs := runs pg; trace := trace pg ++ [ev];
     history := history pg |}.

(** The method [f] is applied to embed [e]. *)
Definition on_embed (e : nat) (f : Embedded → Embedded) : Page → Page :=
  upd_embeds (λ es, match es !! e with
                    | Some em => <[e := f em]> es
                    | None => es
                    end).

(** [await duckDBManager.registerFile(filename, resolvedUrl)] and [await
    duckDBManager.query(sql)], up to the suspension: the call runs to its
    first suspension point inside the manager and is its newest task. *)
Definition request (r : nat) (c : Call) (req : nat → Request) (pg : Page) : Page * nat :=
  let pg := act (ACall c) pg in
  let task := length (tasks (manager pg)) - 1 in
  (observe (Requested r (req task)) pg, task).

(** [run] from the head of its [for] loop over the entries that are left,
    up to the next [await]. *)
Definition run_loop (r e : nat) (sql : string) (startTime : Z)
    (entries : list (string * string)) (pg : Page) : Page * RunTask :=
  match entries with
  | (originalPath, resolvedUrl) :: rest =>
    let filename := fileName originalPath in
    let '(pg, task) := request r (CRegisterFile filename resolvedUrl)
                         (ReqRegister filename resolvedUrl) pg in
    (pg, Run_Register e sql startTime rest task)
  | [] =>
    let '(pg, task) := request r (CQuery sql) (ReqQuery sql) pg in
    (pg, Run_Query e sql startTime task)
  end.

(** The end of [run], in the [try] block and in the [catch] block alike:
    the final state, what is shown, and the Reset button. *)
Definition run_finish (r e : nat) (res : RunResult) (pg : Page) : Page :=
  let now := clock (manager pg) in
  observe (Finished r e now res)
    (on_embed e
       (λ em, match res with
              | Shown result => showResetButton (showResult result (setState StSuccess em))
              | Caught message => showResetButton (showError message (setState StError em))
              end) pg).

(** [run] once the query has returned or something was caught: the
    elapsed time is measured and, when it is short of 200, [run] waits for
    a timer that is due when the rest of the 200 has passed. *)
Definition run_settle (r e : nat) (startTime : Z) (res : RunResult) (pg : Page)
  : Page * RunTask :=
  let elapsed := (clock (manager pg) - startTime)%Z in
  if (elapsed <? 200)%Z
  then (pg, Run_Delay e res (clock (manager pg) + (200 - elapsed))%Z)
  else (run_finish r e res pg, Run_Done).

(** [run] from [setState('loading')] to the call of [configure]: the
    page, and the reading of the clock. *)
Definition run_begin (r e : nat) (em : Embedded) (sql : string) (pg : Page) : Page * Z :=
  let pg := on_embed e (λ em, showLoading (setState StLoading em)) pg in
  let startTime := clock (manager pg) in
  let pg := observe (Started r e sql startTime) pg in
  let pg :=
    if isInitialized (manager pg) then pg
    else
      let c := {| version' := Some (duckdbVersion (options em));
                  cdn' := Some (duckdbCDN (options em)) |} in
      observe (Configured r c) (act (ACall (CConfigure c)) pg) in
  (pg, startTime).

(** [run], called on embed [e]; the call is run task [r]. *)
Definition Embedded_run (r e : nat) (pg : Page) : Page * RunTask :=
  match embeds pg !! e with
  | None => (pg, Run_Done)
  | Some em =>
    if bool_decide (state em = StLoading) then (pg, Run_Done)
    else
      let sql := getCode em in
      if isBlank sql
      then (on_embed e (showError "No SQL query to execute") pg, Run_Done)
      else
        let '(pg, startTime) := run_begin r e em sql pg in
        let pathMap := resolvePathsInSQL (origin pg) sql
                         {| baseUrl := baseUrl' (options em) |} in
        run_loop r e sql startTime pathMap pg
  end.

(** Run task [r] continues after the call of the manager that it awaits
    has settled. *)
Definition run_continue (r : nat) (pg : Page) : Page :=
  match runs pg !! r with
  | Some (Run_Register e sql startTime rest task) =>
    match tasks (manager pg) !! task with
    | Some (Done (Returned _)) =>
      let '(pg, t) := run_loop r e sql startTime rest pg in
      upd_runs (<[r := t]>) pg
    | Some (Done (Threw error)) =>
      let '(pg, t) := run_settle r e startTime (Caught (errText error)) pg in
      upd_runs (<[r := t]>) pg
    | _ => pg
    end
  | Some (Run_Query e sql startTime task) =>
    match tasks (manager pg) !! task with
    | Some (Done (Returned (RResult result))) =>
      let '(pg, t) := run_settle r e startTime (Shown result) pg in
      upd_runs (<[r := t]>) pg
    | Some (Done (Threw error)) =>
      let '(pg, t) := run_settle r e startTime (Caught (errText error)) pg in
      upd_runs (<[r := t]>) pg
    | _ => pg
    end
  | _ => pg
  end.

(** The timer of run task [r] fires; it does not before it is due. *)
Definition run_timer (r : nat) (pg : Page) : Page :=
  match runs pg !! r with
  | Some (Run_Delay e res due) =>
    if (due <=? clock (manager pg))%Z
    then upd_runs (<[r := Run_Done]>) (run_finish r e res pg)
    else pg
  | _ => pg
  end.

(** What can happen on the page: something in the manager's world (an
    answer of the engine, a task of the manager continuing, time passing,
    a call of the manager by other code); an embed is constructed;
    [run()] is called on an embed, by its Run button, by the keyboard or
    by a script; the Reset button is clicked, which the browser delivers
    only while the button is enabled; Ctrl+Backspace is pressed in the
    editor; [reset()] or [destroy()] is called by a script; the user
    changes the text of the editor; [updateEditor] highlights it; a run
    continues; the timer of a run fires. *)
Inductive PageAction :=
| PManager (a : Action)
| PCreate (opts : EmbeddedOptions) (code : string)
| PRun (e : nat)
| PResetClick (e : nat)
| PResetKey (e : nat)
| PReset (e : nat)
| PDestroy (e : nat)
| PInput (e : nat) (code : string)
| PHighlight (e : nat)
| PContinue (r : nat)
| PTimer (r : nat).

Definition pageStep (a : PageAction) (pg : Page) : Page :=
  match a with
  | PManager a => act a pg
  | PCreate opts code =>
    upd_embeds (λ es, es ++ [new_Embedded (displayed pg) opts code]) pg
  | PRun e =>
    let '(pg1, t) := Embedded_run (length (runs pg)) e pg in
    upd_runs (λ rs, rs ++ [t]) pg1
  | PResetClick e =>
    match embeds pg !! e with
    | Some em =>
      match resetButton em with
      | Some reset =>
        if disabled reset then pg else on_embed e (Embedded_reset (displayed pg)) pg
      | None => pg
      end
    | None => pg
    end
  | PResetKey e =>
    match embeds pg !! e with
    | Some em =>
      match editorElement em with
      | Some _ =>
        if bool_decide (state em = StLoading) then pg
        else on_embed e (Embedded_reset (displayed pg)) pg
      | None => pg
      end
    | None => pg
    end
  | PReset e => on_embed e (Embedded_reset (displayed pg)) pg
  | PDestroy e => on_embed e Embedded_destroy pg
  | PInput e code =>
    on_embed e (λ em, match editorElement em with
                      | Some _ => set_editorElement (Some code) em
                      | None => em
                      end) pg
  | PHighlight e => on_embed e (λ em, setCode (displayed pg) (getCode em) em) pg
  | PContinue r => run_continue r pg
  | PTimer r => run_timer r pg
  end.

Definition pageRun (sched : list PageAction) (pg : Page) : Page :=
  fold_left (λ pg a, pageStep a pg) sched pg.

(** ** What the properties of the page speak of *)

(** No call of [close] by other code. *)
Definition page_no_close (a : PageAction) : Prop :=
  match a with
  | PManager a => no_close a
  | _ => True
  end.

(** No call of [configure] or of [configureInitQueries] by other code. *)
Definition no_outside_configure (a : PageAction) : Prop :=
  match a with
  | PManager (ACall (CConfigure _)) | PManager (ACall (CConfigureInitQueries _)) => False
  | _ => True
  end.

(** No call of [reset()] by a script; the Reset button and the keyboard
    remain. *)
Definition no_scripted_reset (a : PageAction) : Prop :=
  match a with
  | PReset _ => False
  | _ => True
  end.

Definition is_warning (ev : Event) : bool :=
  match ev with
  | EWarn _ => true
  | _ => false
  end.

(** The calls of [registerFile] and [query] that run [r] made, in
    order. *)
Definition requests_of (r : nat) (l : list PageEvent) : list Request :=
  omap (λ ev, match ev with
              | Requested r' req => if decide (r' = r) then Some req else None
              | _ => None
              end) l.

(** The call that is task [t] of the manager has returned. *)
Definition returned (ts : list Task) (t : nat) : Prop :=
  ∃ v, ts !! t = Some (Done (Returned v)).

(** The run task is a call of [run] on embed [e] that has not
    finished. *)
Definition in_flight (e : nat) (t : RunTask) : bool :=
  match t with
  | Run_Register e' _ _ _ _ | Run_Query e' _ _ _ | Run_Delay e' _ _ => bool_decide (e' = e)
  | Run_Done => false
  end.

(** How many calls of [run] on embed [e] have not finished. *)
Definition flying (e : nat) (rs : list RunTask) : nat :=
  length (List.filter (in_flight e) rs).

(** The request of one entry of the path map, made as task [t]. *)
Definition registration (entry : string * string) (t : nat) : Request :=
  ReqRegister (fileName entry.1) entry.2 t.

(** What a run shows, when it is a message, is a message of the
    manager. *)
Definition shows_wrapped (res : RunResult) : Prop :=
  match res with
  | Caught m => is_wrapped (ErrObj m) = true
  | Shown _ => True
  end.

Definition run_wrapped (t : RunTask) : Prop :=
  match t with
  | Run_Delay _ res _ => shows_wrapped res
  | _ => True
  end.

Definition event_wrapped (ev : PageEvent) : Prop :=
  match ev with
  | Finished _ _ _ res => shows_wrapped res
  | _ => True
  end.

Definition caught_inv (pg : Page) : Prop :=
  errors_wrapped (manager pg)
  ∧ Forall run_wrapped (runs pg)
  ∧ Forall event_wrapped (trace pg).

(** ** Pages used as examples *)

Definition example_options : EmbeddedOptions :=
  {| baseUrl' := "https://data.example.org/files";
     duckdbVersion := "1.31.1-dev1.0";
     duckdbCDN := "https://cdn.jsdelivr.net/npm/@duckdb/duckdb-wasm" |}.

(** One embed is run; both imports of the client module fail; the run
    waits for the rest of its 200 and shows the error. *)
Definition example_page_import_fails : list PageAction :=
  [PCreate example_options "SELECT 1"; PRun 0;
   PManager (AResume 1 (Raise (ErrObj "no package")));
   PManager (AResume 1 (Raise (ErrObj "offline")));
   PManager (AWake 2); PManager (ATick 40); PContinue 0;
   PManager (ATick 200); PTimer 0].

(** ** How long a run lasts *)

(** The run task [t], which is run [r], has its start in the trace [tr];
    when it waits for its timer, the timer is not due before 200 have
    passed since the start. *)
Definition run_started (tr : list PageEvent) (r : nat) (t : RunTask) : Prop :=
  match t with
  | Run_Register e sql startTime _ _ | Run_Query e sql startTime _ =>
    Started r e sql startTime ∈ tr
  | Run_Delay e _ due => ∃ sql startTime, Started r e sql startTime ∈ tr ∧ (startTime + 200 ≤ due)%Z
  | Run_Done => True
  end.

Definition event_started (tr : list PageEvent) (ev : PageEvent) : Prop :=
  match ev with
  | Finished r e now _ => ∃ sql startTime, Started r e sql startTime ∈ tr ∧ (startTime + 200 ≤ now)%Z
  | _ => True
  end.

Definition loading_inv (pg : Page) : Prop :=
  (∀ r t, runs pg !! r = Some t → run_started (trace pg) r t)
  ∧ Forall (event_started (trace pg)) (trace pg).

(** ** The elements of an embed and its runs *)

(** Until [destroy] the embed has its four elements, and the two buttons
    are disabled exactly in the loading state; after it has none. *)
Definition elements_ok (em : Embedded) : Prop :=
  if destroyed em
  then editorElement em = None ∧ outputElement em = None
       ∧ runButton em = None ∧ resetButton em = None
  else is_Some (editorElement em) ∧ is_Some (outputElement em)
       ∧ ∃ run reset, runButton em = Some run ∧ resetButton em = Some reset
           ∧ disabled run = bool_decide (state em = StLoading)
           ∧ disabled reset = bool_decide (state em = StLoading).

(** Embed [e] has a call of [run] that has not finished exactly when it
    is in the loading state, and then it has one. *)
Definition flight_ok (pg : Page) (e : nat) : Prop :=
  flying e (runs pg)
  = match embeds pg !! e with
    | Some em => if bool_decide (state em = StLoading) then 1 else 0
    | None => 0
    end.

(** The Run button of one embed is pressed twice. *)
Definition example_page_run_twice : list PageAction :=
  [PCreate example_options "SELECT 1"; PRun 0; PRun 0].

(** ** The calls that a run makes *)

(** The path map that [run] computes for the text [sql], on an embed with
    the options [opts]. *)
Definition pathMapOf (o : string) (opts : EmbeddedOptions) (sql : string)
  : list (string * string) :=
  resolvePathsInSQL o sql {| baseUrl := baseUrl' opts |}.

(** Run [r] has called [query] as task [task] of the manager: it had read
    [sql] on its embed, and what it asked of the manager is one
    [registerFile] for each entry of the path map of [sql], in the order
    of the map, and then this [query]; each of the registrations has
    returned. *)
Definition queried (pg : Page) (r : nat) (sql : string) (task : nat) : Prop :=
  ∃ e em startTime ts,
    Started r e sql startTime ∈ trace pg
    ∧ embeds pg !! e = Some em
    ∧ requests_of r (trace pg)
      = zip_with registration (pathMapOf (origin pg) (options em) sql) ts
        ++ [ReqQuery sql task]
    ∧ length ts = length (pathMapOf (origin pg) (options em) sql)
    ∧ Forall (returned (tasks (manager pg))) ts.

(** Run [r] awaits a registration: what it asked of the manager so far is
    one [registerFile] for each entry of the path map up to the one it
    awaits, the earlier ones have returned, and [rest] is what is left of
    the map. *)
Definition run_requests (pg : Page) (r : nat) (t : RunTask) : Prop :=
  match t with
  | Run_Register e sql startTime rest task =>
    ∃ em ts,
      Started r e sql startTime ∈ trace pg
      ∧ embeds pg !! e = Some em
      ∧ requests_of r (trace pg)
        = zip_with registration (pathMapOf (origin pg) (options em) sql) (ts ++ [task])
      ∧ rest = drop (S (length ts)) (pathMapOf (origin pg) (options em) sql)
      ∧ length ts < length (pathMapOf (origin pg) (options em) sql)
      ∧ Forall (returned (tasks (manager pg))) ts
  | _ => True
  end.

Definition requests_inv (pg : Page) : Prop :=
  (∀ r req, Requested r req ∈ trace pg → r < length (runs pg))
  ∧ (∀ r t, runs pg !! r = Some t → run_requests pg r t)
  ∧ (∀ r sql task, ReqQuery sql task ∈ requests_of r (trace pg) → queried pg r sql task).

(** The page [pg'] is the page [pg] later on. *)
Definition extends (pg pg' : Page) : Prop :=
  origin pg' = origin pg
  ∧ (∀ ev, ev ∈ trace pg → ev ∈ trace pg')
  ∧ (∀ e em, embeds pg !! e = Some em →
       ∃ em', embeds pg' !! e = Some em' ∧ options em' = options em)
  ∧ (∀ t o, tasks (manager pg) !! t = Some (Done o) →
       tasks (manager pg') !! t = Some (Done o)).

(** An embed whose text reads one file is run: the manager is configured,
    the file is registered once the engine is up, and the statement is
    submitted. *)
Definition example_page_file : list PageAction :=
  [PCreate example_options "SELECT * FROM 'data/sales.parquet'"; PRun 0]
  ++ map PManager (init_ok 1)
  ++ [PManager (AWake 2); PManager (AResume 2 okU); PContinue 0].

(** ** What a run shows *)

(** The statements that the connection was sent for the call of [query]
    that is task [t], in order. *)
Definition user_stmts (t : nat) (l : list Event) : list string :=
  omap (λ ev, match ev with
              | EQuery _ (User t') sql => if decide (t' = t) then Some sql else None
              | _ => None
              end) l.

(** Task [t] of the manager is a call [query(sql)]: before it has passed
    its two awaits nothing was sent for it; then [sql] was sent, once; a
    result is returned only after the connection has answered. *)
Definition query_call (sql : string) (w : World) (t : nat) : Prop :=
  match tasks w !! t with
  | Some (Q_Initialize s _) | Some (Q_InitQueries s _) =>
    s = sql ∧ user_stmts t (log w) = []
  | Some (Q_Query s _) => s = sql ∧ user_stmts t (log w) = [sql]
  | Some (Done (Returned (RResult _))) =>
    user_stmts t (log w) = [sql] ∧ EQueryDone (User t) true ∈ log w
  | Some (Done _) => True
  | _ => False
  end.

(** No statement was sent for a call that has not been made. *)
Definition stmts_fresh (w : World) : Prop :=
  ∀ t, (length (tasks w) ≤ t)%nat → user_stmts t (log w) = [].

(** The result that run [r] shows on embed [e] is what the call of
    [query] returned that the run made with the text it had read. *)
Definition shown_ok (pg : Page) (r e : nat) (result : QueryResult) : Prop :=
  ∃ sql startTime task,
    Started r e sql startTime ∈ trace pg
    ∧ Requested r (ReqQuery sql task) ∈ trace pg
    ∧ tasks (manager pg) !! task = Some (Done (Returned (RResult result)))
    ∧ query_call sql (manager pg) task.

Definition run_shows (pg : Page) (r : nat) (t : RunTask) : Prop :=
  match t with
  | Run_Register e sql startTime _ _ => Started r e sql startTime ∈ trace pg
  | Run_Query e sql startTime task =>
    Started r e sql startTime ∈ trace pg
    ∧ Requested r (ReqQuery sql task) ∈ trace pg
    ∧ query_call sql (manager pg) task
  | Run_Delay e (Shown result) _ => shown_ok pg r e result
  | _ => True
  end.

Definition event_shows (pg : Page) (ev : PageEvent) : Prop :=
  match ev with
  | Finished r e _ (Shown result) => shown_ok pg r e result
  | _ => True
  end.

(** The page [pg'] is the page [pg] after more has been observed and
    more has happened in the manager's world. *)
Definition later (pg pg' : Page) : Prop :=
  (∀ ev, ev ∈ trace pg → ev ∈ trace pg')
  ∧ ∃ l, manager pg' = run l (manager pg).

Definition shows_inv (pg : Page) : Prop :=
  stmts_fresh (manager pg)
  ∧ (∀ r t, runs pg !! r = Some t → run_shows pg r t)
  ∧ Forall (event_shows pg) (trace pg).

(** A table of one column and two rows. *)
Definition example_table : Table :=
  {| fields := [{| name := "total" |}]; numRows := 2; numCols := 1;
     children := [Some [JNum 3; JNull]] |}.

(** The run of [example_page_file] goes on: the statement is submitted,
    the connection answers after 250, and the run shows the result. *)
Definition example_page_result : list PageAction :=
  example_page_file
  ++ [PManager (AWake 3); PManager (AWake 3); PManager (ATick 250);
      PManager (AResume 3 (Ok (PTable example_table))); PContinue 0].

(** Two embeds are run one after the other before the engine is up, and
    the initialisation that the first run started succeeds. *)
Definition example_page_two_embeds : list PageAction :=
  [PCreate example_options "SELECT 1"; PCreate example_options "SELECT 2";
   PRun 0; PRun 1]
  ++ map PManager (init_ok 1).

(** ** The link to SQL Workbench *)

(** The alphabet of Base64, and the character that [btoa] writes for a
    group of six bits. *)
Definition base64Alphabet : string :=
  "ABCDEFGHIJKLMNOPQRSTUVWXYZabcdefghijklmnopqrstuvwxyz0123456789+/".

Definition sextet (n : nat) : Ascii.ascii := nth n (chars base64Alphabet) (charOf "=").

(** [btoa] on a string of bytes: three bytes give four characters; one or
    two bytes at the end give two or three characters and the padding. *)
Fixpoint btoa (bytes : list Ascii.ascii) : list Ascii.ascii :=
  match bytes with
  | [] => []
  | [a] =>
    [sextet (byte a / 4); sextet (byte a mod 4 * 16); charOf "="; charOf "="]
  | [a; b] =>
    [sextet (byte a / 4); sextet (byte a mod 4 * 16 + byte b / 16);
     sextet (byte b mod 16 * 4); charOf "="]
  | a :: b :: c :: rest =>
    [sextet (byte a / 4); sextet (byte a mod 4 * 16 + byte b / 16);
     sextet (byte b mod 16 * 4 + byte c / 64); sextet (byte c mod 64)]
    ++ btoa rest
  end.

(** [s.replace(/x/g, y)] for characters [x] and [y], and
    [s.replace(/x/g, '')]. *)
Definition replaceChar (x y : Ascii.ascii) (s : list Ascii.ascii) : list Ascii.ascii :=
  map (λ c, if Ascii.eqb c x then y else c) s.

Definition removeChar (x : Ascii.ascii) (s : list Ascii.ascii) : list Ascii.ascii :=
  List.filter (λ c, negb (Ascii.eqb c x)) s.

(** [encodeQueryForURL]. A text is its UTF-8 bytes here, which is the
    string of bytes that [unescape(encodeURIComponent(query))] makes of
    it. *)
Definition encodeQueryForURL (query : string) : string :=
  let base64 := btoa (chars query) in
  str (removeChar (charOf "=")
         (replaceChar (charOf "/") (charOf "_")
            (replaceChar (charOf "+") (charOf "-") base64))).

(** [openInSQLWorkbench]: the URL that is opened, if any. *)
Definition openInSQLWorkbench (em : Embedded) : option string :=
  let query := getCode em in
  if isBlank query then None
  else Some ("https://sql-workbench.com/#queries=v1," +:+ encodeQueryForURL query).

(** Letters, digits, the hyphen and the underscore. *)
Definition urlSafe (c : Ascii.ascii) : bool :=
  (Nat.leb 65 (byte c) && Nat.leb (byte c) 90)
  || (Nat.leb 97 (byte c) && Nat.leb (byte c) 122)
  || (Nat.leb 48 (byte c) && Nat.leb (byte c) 57)
  || Nat.eqb (byte c) 45 || Nat.eqb (byte c) 95.

(** The character of the link for a group of six bits, and the group of
    a character. *)
Definition urlAlphabet : string :=
  "ABCDEFGHIJKLMNOPQRSTUVWXYZabcdefghijklmnopqrstuvwxyz0123456789-_".

Definition urlChar (n : nat) : Ascii.ascii := nth n (chars urlAlphabet) (charOf "=").

Fixpoint indexOf (c : Ascii.ascii) (l : list Ascii.ascii) : nat :=
  match l with
  | [] => 0
  | x :: l' => if Ascii.eqb x c then 0 else S (indexOf c l')
  end.

Definition urlValue (c : Ascii.ascii) : nat := indexOf c (chars urlAlphabet).

(** The bytes that a text of the link stands for. *)
Fixpoint decodeLink (s : list Ascii.ascii) : list Ascii.ascii :=
  match s with
  | c1 :: c2 :: c3 :: c4 :: rest =>
    [Ascii.ascii_of_nat (urlValue c1 * 4 + urlValue c2 / 16);
     Ascii.ascii_of_nat (urlValue c2 mod 16 * 16 + urlValue c3 / 4);
     Ascii.ascii_of_nat (urlValue c3 mod 4 * 64 + urlValue c4)]
    ++ decodeLink rest
  | [c1; c2; c3] =>
    [Ascii.ascii_of_nat (urlValue c1 * 4 + urlValue c2 / 16);
     Ascii.ascii_of_nat (urlValue c2 mod 16 * 16 + urlValue c3 / 4)]
  | [c1; c2] => [Ascii.ascii_of_nat (urlValue c1 * 4 + urlValue c2 / 16)]
  | _ => []
  end.

(** * Debounced calls: [debounce] of [src/syntax-highlight.ts] *)

(** A timer made by [setTimeout]: armed with the time at which it is due
    and the arguments its callback will pass on, cleared by
    [clearTimeout], or fired. *)
Inductive Timer (A : Type) :=
| Armed (due : Z) (args : A)
| Cleared
| Fired.

Arguments Armed {A} due args.
Arguments Cleared {A}.
Arguments Fired {A}.

(** What is observed: [debounced(args)] was called, [func(args)] was
    called, each with the reading of the clock. *)
Inductive DebounceEvent (A : Type) :=
| DCalled (args : A) (time : Z)
| DRan (args : A) (time : Z).

Arguments DCalled {A} args time.
Arguments DRan {A} args time.

(** The closure that [debounce(func, wait)] returns: its variable
    [timeout], with the timers of the page, the clock, and what was
    observed. *)
Record Debounced (A : Type) := {
  timeout : option nat;
  timers : list (Timer A);
  time : Z;
  observed : list (DebounceEvent A)
}.

Arguments timeout {A} _.
Arguments timers {A} _.
Arguments time {A} _.
Arguments observed {A} _.

(** [debounce(func, wait)] *)
Definition debounce {A : Type} : Debounced A :=
  {| timeout := None; timers := []; time := 0%Z; observed := [] |}.

(** [clearTimeout(id)]: a timer that has fired or was cleared stays as it
    is. *)
Definition clearTimeout {A : Type} (id : nat) (ts : list (Timer A)) : list (Timer A) :=
  match ts !! id with
  | Some (Armed _ _) => <[id := Cleared]> ts
  | _ => ts
  end.

(** What can happen: [debounced(args)] is called; the timer [id] fires,
    which it does not before it is due; time passes. *)
Inductive DebounceAction (A : Type) :=
| DCall (args : A)
| DFire (id : nat)
| DTick (now : Z).

Arguments DCall {A} args.
Arguments DFire {A} id.
Arguments DTick {A} now.

Definition debounceStep {A : Type} (wait : Z) (a : DebounceAction A) (d : Debounced A)
  : Debounced A :=
  match a with
  | DCall args =>
    let ts := match timeout d with
              | Some id => clearTimeout id (timers d)
              | None => timers d
              end in
    {| timeout := Some (length ts);
       timers := ts ++ [Armed (time d + wait)%Z args];
       time := time d;
       observed := observed d ++ [DCalled args (time d)] |}
  | DFire id =>
    match timers d !! id with
    | Some (Armed due args) =>
      if (due <=? time d)%Z
      then {| timeout := timeout d; timers := <[id := Fired]> (timers d);
              time := time d; observed := observed d ++ [DRan args (time d)] |}
      else d
    | _ => d
    end
  | DTick now =>
    {| timeout := timeout d; timers := timers d; time := now; observed := observed d |}
  end.

Definition debounceRun {A : Type} (wait : Z) (sched : list (DebounceAction A))
    (d : Debounced A) : Debounced A :=
  fold_left (λ d a, debounceStep wait a d) sched d.

(** The arguments and the time of the latest call of [debounced]. *)
Definition lastCall {A : Type} (l : list (DebounceEvent A)) : option (A * Z) :=
  last (omap (λ ev, match ev with
                    | DCalled args t => Some (args, t)
                    | DRan _ _ => None
                    end) l).

(** A call of [func] passes on the arguments of the latest call of
    [debounced], which was made at least [wait] before. *)
Definition ran_late {A : Type} (wait : Z) (before : list (DebounceEvent A))
    (ev : DebounceEvent A) : Prop :=
  match ev with
  | DRan args t => ∃ t0, lastCall before = Some (args, t0) ∧ (t0 + wait ≤ t)%Z
  | DCalled _ _ => True
  end.

Definition debounce_inv {A : Type} (wait : Z) (d : Debounced A) : Prop :=
  (∀ id due args, timers d !! id = Some (Armed due args) →
     timeout d = Some id ∧ lastCall (observed d) = Some (args, (due - wait)%Z))
  ∧ (∀ l1 ev l2, observed d = l1 ++ ev :: l2 → ran_late wait l1 ev).

(* ================================================================= *)
(** * Properties *)

(** ** Symbolic evaluation of the field updates *)

Ltac wsimpl :=
  cbn [mgr global initPromises setupPromises tasks log clock nextHandle
       upd_mgr set_global upd_initPromises upd_setupPromises upd_tasks emit
       set_clock bump_handle spawn set_task
       db connection initPromise config registeredFiles duckdbModule
       initQueriesExecuted initQueriesPromise initQueries
       set_db set_connection set_initPromise set_config set_registeredFiles
       set_duckdbModule set_initQueriesExecuted set_initQueriesPromise
       set_initQueries new_manager close_reset fst snd].

Lemma world_eq (w1 w2 : World) :
  mgr w1 = mgr w2 → global w1 = global w2 →
  initPromises w1 = initPromises w2 → setupPromises w1 = setupPromises w2 →
  tasks w1 = tasks w2 → log w1 = log w2 → clock w1 = clock w2 →
  nextHandle w1 = nextHandle w2 → w1 = w2.
Proof. destruct w1, w2; simpl; intros; by subst. Qed.

Lemma manager_eq (m1 m2 : Manager) :
  db m1 = db m2 → connection m1 = connection m2 →
  initPromise m1 = initPromise m2 → config m1 = config m2 →
  registeredFiles m1 = registeredFiles m2 → duckdbModule m1 = duckdbModule m2 →
  initQueriesExecuted m1 = initQueriesExecuted m2 →
  initQueriesPromise m1 = initQueriesPromise m2 →
  initQueries m1 = initQueries m2 → m1 = m2.
Proof. destruct m1, m2; simpl; intros; by subst. Qed.

(** ** Tasks at the end of the task list *)

Lemma lookup_snoc (l : list Task) (x : Task) : (l ++ [x]) !! length l = Some x.
Proof. by apply list_lookup_middle. Qed.

Lemma insert_snoc (l : list Task) (x y : Task) :
  <[length l := y]> (l ++ [x]) = l ++ [y].
Proof. rewrite insert_app_r_alt by lia. by rewrite Nat.sub_diag. Qed.

Lemma lookup_snoc2 (l : list Task) (x y : Task) : (l ++ [x; y]) !! length l = Some x.
Proof. by apply list_lookup_middle. Qed.

Lemma lookup_snoc2' (l : list Task) (x y : Task) :
  (l ++ [x; y]) !! S (length l) = Some y.
Proof. rewrite lookup_app_r by lia. by replace (S (length l) - length l) with 1 by lia. Qed.

Lemma insert_snoc2 (l : list Task) (x y z : Task) :
  <[length l := z]> ((l ++ [x]) ++ [y]) = l ++ [z; y].
Proof.
  rewrite <- app_assoc. rewrite insert_app_r_alt by lia.
  by rewrite Nat.sub_diag.
Qed.

Ltac snoc_tasks :=
  repeat match goal with
         | |- context [(?l ++ [?x]) !! length ?l] => rewrite (lookup_snoc l x)
         | |- context [<[length ?l := ?y]> (?l ++ [?x])] => rewrite (insert_snoc l x y)
         end.

(** ** Schedules *)

Lemma run_cons (a : Action) (sched : list Action) (w : World) :
  run (a :: sched) w = run sched (step a w).
Proof. reflexivity. Qed.

Lemma run_nil (w : World) : run [] w = w.
Proof. reflexivity. Qed.

Lemma run_app (s1 s2 : list Action) (w : World) :
  run (s1 ++ s2) w = run s2 (run s1 w).
Proof. apply fold_left_app. Qed.

Lemma repeat_snoc {A} (x : A) (n : nat) : repeat x (S n) = repeat x n ++ [x].
Proof. induction n as [|n IH]; [done|]. cbn [repeat app] in *. by rewrite <- IH. Qed.

(** ** Case analysis on one step *)

Ltac unfold_step :=
  unfold configure, configureInitQueries, initialize, loadDuckDBModule,
    executeInitQueries, initQueries_loop, initQueries_catch, query_submit,
    registerFile_body, doInitialize_catch, close, close_db, poll.

(** Every way the step [a] can go, each with the equations that select
    it. *)
Ltac step_cases a :=
  destruct a as [[]| |? [[]|]|]; cbn [step call]; unfold wake, resume;
  unfold_step; repeat case_match; simplify_eq; wsimpl.

Lemma each_preceded_nil (P : list Event → Event → Prop) : each_preceded P [].
Proof. intros l1 e l2 H. by destruct l1. Qed.

Lemma each_preceded_snoc (P : list Event → Event → Prop) (l : list Event) (e : Event) :
  each_preceded P l → P l e → each_preceded P (l ++ [e]).
Proof.
  intros Hl He l1 e' l2 Heq.
  destruct l2 as [|x l2 _] using rev_ind.
  - apply app_inj_tail in Heq as [-> ->]. exact He.
  - rewrite app_comm_cons, app_assoc in Heq.
    apply app_inj_tail in Heq as [-> _]. by eapply Hl.
Qed.

(** ** Tasks of one kind in the task list *)

Section OmapInsert.

Context {A : Type} (f : Task → option A).

Lemma omap_cons_option (x : Task) (l : list Task) :
  omap f (x :: l) = option_list (f x) ++ omap f l.
Proof. simpl. by destruct (f x). Qed.

Lemma omap_snoc_none (l : list Task) (x : Task) :
  f x = None → omap f (l ++ [x]) = omap f l.
Proof. intros Hx. rewrite omap_app. simpl. by rewrite Hx, app_nil_r. Qed.

Lemma omap_insert_split (ts : list Task) (t : nat) (x y : Task) :
  ts !! t = Some y →
  omap f ts = omap f (take t ts) ++ option_list (f y) ++ omap f (drop (S t) ts)
  ∧ omap f (<[t := x]> ts)
    = omap f (take t ts) ++ option_list (f x) ++ omap f (drop (S t) ts).
Proof.
  intros Ht. split.
  - rewrite <- (take_drop_middle ts t y Ht) at 1.
    by rewrite omap_app, omap_cons_option.
  - assert (Hlen : length (take t ts) = t).
    { rewrite length_take. apply lookup_lt_Some in Ht. lia. }
    rewrite <- (take_drop_middle ts t y Ht) at 1.
    rewrite <- Hlen at 1. rewrite insert_app_r_alt by lia. rewrite Nat.sub_diag.
    cbn [insert list_insert]. by rewrite omap_app, omap_cons_option.
Qed.

Lemma omap_insert_other (ts : list Task) (t : nat) (x y : Task) :
  ts !! t = Some y → f y = None → f x = None →
  omap f (<[t := x]> ts) = omap f ts.
Proof.
  intros Ht Hy Hx. destruct (omap_insert_split ts t x y Ht) as [-> ->].
  by rewrite Hx, Hy.
Qed.

Lemma omap_insert_single (ts : list Task) (t : nat) (x y : Task) (a b : A) :
  ts !! t = Some y → f y = Some a → omap f ts = [b] →
  omap f (<[t := x]> ts) = option_list (f x).
Proof.
  intros Ht Hy Hs. destruct (omap_insert_split ts t x y Ht) as [H1 ->].
  rewrite Hs, Hy in H1. cbn in H1.
  destruct (omap f (take t ts)) as [|a' l1]; [|by destruct l1].
  simpl in H1. injection H1 as _ H1. rewrite <- H1. by rewrite app_nil_r.
Qed.

Lemma omap_lookup_elem (ts : list Task) (t : nat) (y : Task) (a : A) :
  ts !! t = Some y → f y = Some a → a ∈ omap f ts.
Proof.
  intros Ht Hy. apply list_elem_of_omap.
  exists y. split; [|done]. by eapply list_elem_of_lookup_2.
Qed.

End OmapInsert.

(** ** The result conversion of [query] *)

Section Conversion.

Variable t : Table.

Lemma rowLoop_spec (i n j : nat) (row : list JsVal) :
  rowLoop t i n j row = row ++ map (cell t i) (seq j n).
Proof.
  revert j row. induction n as [|n IH]; intros j row; simpl.
  - by rewrite app_nil_r.
  - rewrite IH. by rewrite <- app_assoc.
Qed.

Lemma rowsLoop_spec (n i : nat) (acc : list (list JsVal)) :
  rowsLoop t n i acc
  = acc ++ map (λ i, map (cell t i) (seq 0 (numCols t))) (seq i n).
Proof.
  revert i acc. induction n as [|n IH]; intros i acc; simpl.
  - by rewrite app_nil_r.
  - rewrite IH, rowLoop_spec. by rewrite <- app_assoc.
Qed.

Lemma rows_toQueryResult (elapsed : Z) :
  rows (toQueryResult t elapsed)
  = map (λ i, map (cell t i) (seq 0 (numCols t))) (seq 0 (numRows t)).
Proof. unfold toQueryResult; simpl. by rewrite rowsLoop_spec. Qed.

Lemma cell_not_undefined (i j : nat) : cell t i j ≠ JUndefined.
Proof. unfold cell, nullish. repeat case_match; congruence. Qed.

Lemma cell_present (i j : nat) (col : list JsVal) (v : JsVal) :
  children t !! j = Some (Some col) → col !! i = Some v →
  v ≠ JUndefined → v ≠ JNull → cell t i j = v.
Proof.
  intros Hc Hv H1 H2. unfold cell, getChildAt, get. rewrite Hc, Hv.
  destruct v; simpl; congruence.
Qed.

Lemma cell_absent (i j : nat) :
  (children t !! j = None ∨ children t !! j = Some None
   ∨ ∃ col, children t !! j = Some (Some col)
            ∧ (col !! i = None ∨ col !! i = Some JUndefined ∨ col !! i = Some JNull)) →
  cell t i j = JNull.
Proof.
  unfold cell, getChildAt, get.
  intros [H|[H|(col & H & [Hv|[Hv|Hv]])]]; rewrite H; try rewrite Hv; done.
Qed.

End Conversion.

(** ** What [query] returns *)

Lemma cell_explicit (t : Table) (i j : nat) :
  cell t i j
  = match children t !! j with
    | Some (Some col) =>
      match col !! i with
      | Some JUndefined | Some JNull | None => JNull
      | Some v => v
      end
    | _ => JNull
    end.
Proof. unfold cell, getChildAt, get, nullish. repeat case_match; congruence. Qed.

(** C9. A call of [query] that passed both awaits with a connection reads
    the clock and submits its statement; when the engine answers with a
    table, the call returns a [QueryResult] whose [columns] are the names of
    the schema's fields in order, whose [rows] has one row per row index
    below [numRows] and in it one cell per column index below [numCols],
    the cell being the column's value at that row, or null when the column,
    the value, or both are absent, undefined or null; [rowCount] is
    [numRows] and is the length of [rows]; [executionTime] is the clock at
    the answer minus the clock at the submission. *)
Theorem query_returns_converted_result
    (w : World) (tid : nat) (sql : string) (wt : Wait) (c : nat) :
  tasks w !! tid = Some (Q_InitQueries sql wt) →
  poll (setupPromises w) wt = Fulfilled →
  connection (mgr w) = Some c →
  let w1 := step (AWake tid) w in
  log w1 = log w ++ [EQuery c (User tid) sql]
  ∧ tasks w1 !! tid = Some (Q_Query sql (clock w))
  ∧ ∀ (w2 : World) (result : Table),
      tasks w2 !! tid = Some (Q_Query sql (clock w)) →
      ∃ r : QueryResult,
        tasks (step (AResume tid (Ok (PTable result))) w2) !! tid
          = Some (Done (Returned (RResult r)))
        ∧ columns r = map name (fields result)
        ∧ rows r = map (λ i, map (λ j, cell result i j) (seq 0 (numCols result)))
                       (seq 0 (numRows result))
        ∧ (∀ i j, i < numRows result → j < numCols result →
            ∃ row, rows r !! i = Some row
                   ∧ length row = numCols result
                   ∧ row !! j = Some
                       match children result !! j with
                       | Some (Some col) =>
                         match col !! i with
                         | Some JUndefined | Some JNull | None => JNull
                         | Some v => v
                         end
                       | _ => JNull
                       end)
        ∧ rowCount r = numRows result
        ∧ length (rows r) = rowCount r
        ∧ executionTime r = (clock w2 - clock w)%Z.
Proof.
  intros Ht Hp Hc w1. subst w1. simpl. unfold wake. rewrite Ht, Hp.
  unfold query_submit. rewrite Hc. simpl.
  split; [done|]. split.
  { apply list_lookup_insert_eq. by eapply lookup_lt_Some. }
  intros w2 result Ht2. eexists. unfold resume. rewrite Ht2. simpl.
  split. { apply list_lookup_insert_eq. by eapply lookup_lt_Some. }
  split; [done|]. rewrite rows_toQueryResult. simpl.
  split; [done|]. split.
  - intros i j Hi Hj. eexists. split; [|split].
    + rewrite list_lookup_fmap, lookup_seq_lt by done. reflexivity.
    + by rewrite length_map, length_seq.
    + rewrite list_lookup_fmap, lookup_seq_lt by done. simpl.
      by rewrite cell_explicit.
  - split; [done|]. split; [|done]. by rewrite length_map, length_seq.
Qed.

(** The theorem at the page of the specification's example: one setup
    statement, then [SELECT 1]. *)
Lemma query_returns_converted_result_witness :
  let w := run example_ready (boot None) in
  let w1 := step (AWake 2) w in
  log w1 = log w ++ [EQuery 1 (User 2) "SELECT 1"]
  ∧ tasks w1 !! 2 = Some (Q_Query "SELECT 1" (clock w)).
Proof.
  intros w w1.
  destruct (query_returns_converted_result w 2 "SELECT 1" (WPromise 0) 1)
    as (H1 & H2 & _); [reflexivity | reflexivity | reflexivity |].
  split; [exact H1 | exact H2].
Defined.

(** ** The [cdn] field is never read *)

Lemma step_scrub (a : Action) (w : World) :
  scrub (step a w) = scrub (step (scrub_action a) (scrub w)).
Proof.
  destruct a as [[]| |? [[]|]|]; cbn [step call scrub_action];
    unfold wake, resume; unfold_step; unfold scrub; wsimpl;
    repeat case_match; simplify_eq; wsimpl;
    apply world_eq; wsimpl; try reflexivity;
    apply manager_eq; wsimpl; try reflexivity.
Qed.

Lemma scrub_action_idem (a : Action) :
  scrub_action (scrub_action a) = scrub_action a.
Proof. by destruct a as [[]| | |]. Qed.

Lemma run_scrub_rel (sched : list Action) (w1 w2 : World) :
  scrub w1 = scrub w2 →
  scrub (run sched w1) = scrub (run (map scrub_action sched) w2).
Proof.
  revert w1 w2. induction sched as [|a sched IH]; intros w1 w2 H; [done|].
  cbn [map]. rewrite !run_cons. apply IH.
  rewrite (step_scrub a w1), (step_scrub (scrub_action a) w2).
  by rewrite scrub_action_idem, H.
Qed.

Lemma run_scrub (sched : list Action) (w : World) :
  scrub (run sched w) = scrub (run (map scrub_action sched) w).
Proof. by apply run_scrub_rel. Qed.

Lemma scrub_fields (w1 w2 : World) :
  scrub w1 = scrub w2 →
  log w1 = log w2 ∧ tasks w1 = tasks w2 ∧ global w1 = global w2
  ∧ initPromises w1 = initPromises w2 ∧ setupPromises w1 = setupPromises w2
  ∧ db (mgr w1) = db (mgr w2) ∧ connection (mgr w1) = connection (mgr w2)
  ∧ initPromise (mgr w1) = initPromise (mgr w2)
  ∧ version (config (mgr w1)) = version (config (mgr w2))
  ∧ registeredFiles (mgr w1) = registeredFiles (mgr w2)
  ∧ duckdbModule (mgr w1) = duckdbModule (mgr w2)
  ∧ initQueriesExecuted (mgr w1) = initQueriesExecuted (mgr w2)
  ∧ initQueriesPromise (mgr w1) = initQueriesPromise (mgr w2)
  ∧ initQueries (mgr w1) = initQueries (mgr w2).
Proof.
  intros H.
  repeat match goal with |- _ ∧ _ => split end.
  - by apply (f_equal log) in H.
  - by apply (f_equal tasks) in H.
  - by apply (f_equal global) in H.
  - by apply (f_equal initPromises) in H.
  - by apply (f_equal setupPromises) in H.
  - by apply (f_equal (λ w, db (mgr w))) in H.
  - by apply (f_equal (λ w, connection (mgr w))) in H.
  - by apply (f_equal (λ w, initPromise (mgr w))) in H.
  - by apply (f_equal (λ w, version (config (mgr w)))) in H.
  - by apply (f_equal (λ w, registeredFiles (mgr w))) in H.
  - by apply (f_equal (λ w, duckdbModule (mgr w))) in H.
  - by apply (f_equal (λ w, initQueriesExecuted (mgr w))) in H.
  - by apply (f_equal (λ w, initQueriesPromise (mgr w))) in H.
  - by apply (f_equal (λ w, initQueries (mgr w))) in H.
Qed.

(** C10. Take two pages and two schedules that are the same once the
    [cdn] key is removed from every argument of [configure]. Whatever the
    schedules are, the two runs log the same events (every call that leaves
    the manager, with its arguments, the import URL among them, and every
    console message), their tasks are in the same states with the same
    results and errors, and every field of the manager other than
    [config.cdn] is the same. The import URL is the fixed base followed by
    the configured version. *)
Theorem cdn_field_has_no_influence
    (sched1 sched2 : list Action) (g : option nat) :
  map scrub_action sched1 = map scrub_action sched2 →
  let w1 := run sched1 (boot g) in
  let w2 := run sched2 (boot g) in
  (log w1 = log w2 ∧ tasks w1 = tasks w2 ∧ global w1 = global w2
   ∧ initPromises w1 = initPromises w2 ∧ setupPromises w1 = setupPromises w2
   ∧ db (mgr w1) = db (mgr w2) ∧ connection (mgr w1) = connection (mgr w2)
   ∧ initPromise (mgr w1) = initPromise (mgr w2)
   ∧ version (config (mgr w1)) = version (config (mgr w2))
   ∧ registeredFiles (mgr w1) = registeredFiles (mgr w2)
   ∧ duckdbModule (mgr w1) = duckdbModule (mgr w2)
   ∧ initQueriesExecuted (mgr w1) = initQueriesExecuted (mgr w2)
   ∧ initQueriesPromise (mgr w1) = initQueriesPromise (mgr w2)
   ∧ initQueries (mgr w1) = initQueries (mgr w2))
  ∧ cdnUrl (config (mgr w1))
    = "https://cdn.jsdelivr.net/npm/@duckdb/duckdb-wasm@"
      +:+ version (config (mgr w1)) +:+ "/+esm".
Proof.
  intros H w1 w2. split; [|reflexivity].
  apply scrub_fields. unfold w1, w2.
  by rewrite (run_scrub sched1), (run_scrub sched2), H.
Qed.

Lemma cdn_field_has_no_influence_witness :
  let w1 := run (example_cdn "https://cdn.jsdelivr.net/npm/@duckdb/duckdb-wasm") (boot None) in
  let w2 := run (example_cdn "https://evil.example/duckdb") (boot None) in
  log w1 = log w2
  ∧ log w1 = [EImportPackage;
              EImportUrl "https://cdn.jsdelivr.net/npm/@duckdb/duckdb-wasm@1.30.0/+esm"].
Proof.
  intros w1 w2. split; [|reflexivity].
  apply (cdn_field_has_no_influence
           (example_cdn "https://cdn.jsdelivr.net/npm/@duckdb/duckdb-wasm")
           (example_cdn "https://evil.example/duckdb") None).
  reflexivity.
Defined.

(** ** The initialisation under any interleaving *)

Lemma constructions_snoc (l : list Event) (e : Event) :
  constructions (l ++ [e])
  = constructions l + match e with ENewDb _ => 1 | _ => 0 end.
Proof.
  unfold constructions. rewrite omap_app, length_app. by destruct e.
Qed.

Lemma init_core_ext (m m' : Manager) (ps : list PState) (di : list (nat * bool)) :
  init_core m ps di → initPromise m' = initPromise m → db m' = db m →
  init_core m' ps di.
Proof.
  intros H E1 E2. destruct di as [|[p b] [|]]; try done.
  cbn in *. by rewrite E1, E2.
Qed.

Lemma init_core_running (m : Manager) (ps : list PState) (ts : list Task)
    (t : nat) (y : Task) (p : nat) (b : bool) :
  init_core m ps (di_state ts) → ts !! t = Some y → di_stage y = Some (p, b) →
  di_state ts = [(p, b)].
Proof.
  intros H Ht Hy. pose proof (omap_lookup_elem di_stage ts t y _ Ht Hy) as Hin.
  fold (di_state ts) in Hin.
  destruct (di_state ts) as [|[p' b'] [|]]; [|by apply list_elem_of_singleton in Hin as ->|done].
  by apply not_elem_of_nil in Hin.
Qed.

Lemma init_core_idle (m : Manager) (ps : list PState) (di : list (nat * bool)) :
  init_core m ps di → initPromise m = None → di = [].
Proof.
  intros H Hp. destruct di as [|[p b] [|]]; [done| |done].
  destruct H as (H & _). congruence.
Qed.

Ltac norm_di :=
  unfold di_state in *;
  repeat first
    [ rewrite omap_app
    | rewrite constructions_snoc
    | match goal with
      | Ht : ?ts !! ?t = Some ?y |- context [omap di_stage (<[?t := ?x]> ?ts)] =>
        rewrite (omap_insert_other di_stage ts t x y Ht) by reflexivity
      | Ht : ?ts !! ?t = Some ?y
        |- context [omap di_stage (<[?t := ?x]> (?ts ++ ?l))] =>
        rewrite (omap_insert_other di_stage (ts ++ l) t x y
                   (lookup_app_l_Some _ _ _ _ Ht)) by reflexivity
      end ];
  cbn [omap di_stage]; rewrite ?app_nil_r, ?Nat.add_0_r.

Ltac frame_init H1 H2 H3 H4 :=
  unfold init_inv; wsimpl; norm_di;
  split; [repeat match goal with
                 | Hx : db (mgr _) = _ |- _ => rewrite Hx
                 end; exact H1
         | split; [eapply init_core_ext; [exact H2|reflexivity|reflexivity]
                  | split; [exact H3
                           | repeat first [ apply Forall_app_2 | apply Forall_insert
                                          | apply Forall_cons_2 | apply Forall_nil_2
                                          | exact H4 | exact I ]]]].

(** A pending promise other than the one being settled stays pending
    only if it was. *)
Lemma pending_insert (ps : list PState) (k p : nat) (st : PState) :
  st ≠ Pending → <[k := st]> ps !! p = Some Pending →
  p ≠ k ∧ ps !! p = Some Pending.
Proof.
  intros Hst Hp. apply list_lookup_insert_Some in Hp as [(? & ? & _)|[? Hp]]; [done|].
  by split.
Qed.

(** One step of the initialisation that is task [t]. *)
Lemma doInitialize_step_init_inv (w : World) (t p : nat) (b : bool) (y : Task) (a : Action) :
  tasks w !! t = Some y → di_stage y = Some (p, b) →
  a = AWake t ∨ (∃ r, a = AResume t r) →
  init_inv w → init_inv (step a w).
Proof.
  intros Ht Hy Ha Hinv. pose proof Hinv as (Hn & Hcore & Hpend & Htasks).
  pose proof (init_core_running _ _ _ _ _ _ _ Hcore Ht Hy) as Hrun.
  rewrite Hrun in Hcore, Hpend. destruct Hcore as (Hip & Hpd & Hdb).
  assert (Hone : ∀ p' b', (p', b') ∈ [(p, b)] → p' = p).
  { intros p' b' Hin. by apply list_elem_of_singleton in Hin as [= -> _]. }
  destruct y; try discriminate Hy; injection Hy as <- <-;
    try (specialize (Hdb eq_refl); rewrite Hdb in Hn);
    destruct Ha as [->|[r ->]]; cbn [step]; unfold wake, resume; rewrite Ht;
    try done; unfold doInitialize_catch;
    repeat case_match; simplify_eq; try done; try exact Hinv;
    unfold init_inv; wsimpl; unfold di_state;
    rewrite ?(omap_insert_single di_stage _ _ _ _ _ _ Ht eq_refl Hrun);
    rewrite ?constructions_snoc, ?Nat.add_0_r; cbn [option_list di_stage].
  all: repeat match goal with
              | Hx : db (mgr _) = _ |- _ => rewrite Hx
              end.
  all: split;
    [ try first [exact Hn | by rewrite Hn]
    | split;
      [ try first [exact I | by repeat split; auto]
      | split; [|try by apply Forall_insert] ] ].
  all: try (intros p' Hp'; destruct (Hpend p' Hp') as [b' Hb'];
            apply Hone in Hb' as ->; eexists; by apply list_elem_of_singleton).
  all: try (intros p' Hp'; apply pending_insert in Hp' as [Hne Hp']; [|done];
            destruct (Hpend p' Hp') as [b' Hb']; by apply Hone in Hb').
Qed.

(** [initialize], called by a method whose task is then added. *)
Lemma initialize_init_inv (w : World) (k : Wait → Task) :
  (∀ wt, di_stage (k wt) = None) → (∀ wt, task_no_close (k wt)) →
  init_inv w →
  init_inv (let '(w1, wt) := initialize w in spawn (k wt) w1).
Proof.
  intros Hk Hk' Hinv. pose proof Hinv as (Hn & Hcore & Hpend & Htasks).
  unfold initialize.
  destruct (db (mgr w)) as [h|] eqn:Hdb.
  { unfold init_inv. wsimpl. rewrite Hdb. unfold di_state in *.
    rewrite (omap_snoc_none di_stage) by apply Hk.
    split; [done|]. split; [done|]. split; [done|].
    apply Forall_app_2; [done|]. by repeat constructor. }
  destruct (initPromise (mgr w)) as [p|] eqn:Hp.
  { unfold init_inv. wsimpl. rewrite Hdb. unfold di_state in *.
    rewrite (omap_snoc_none di_stage) by apply Hk.
    split; [done|]. split; [done|]. split; [done|].
    apply Forall_app_2; [done|]. by repeat constructor. }
  pose proof (init_core_idle _ _ _ Hcore Hp) as Hidle.
  assert (Hnone : ∀ p, initPromises w !! p ≠ Some Pending).
  { intros p Hpd. destruct (Hpend p Hpd) as [b Hb]. rewrite Hidle in Hb.
    by apply not_elem_of_nil in Hb. }
  unfold loadDuckDBModule. wsimpl.
  repeat case_match; simplify_eq; unfold init_inv; wsimpl; rewrite ?Hdb;
    unfold di_state in *; rewrite (omap_snoc_none di_stage) by apply Hk;
    rewrite omap_app, Hidle; cbn [omap di_stage app];
    rewrite ?constructions_snoc, ?Nat.add_0_r.
  all: split; [exact Hn|].
  all: split; [split; [done|split; [by apply list_lookup_middle|done]]|].
  all: split; [|by repeat first [apply Forall_app_2 | apply Forall_cons_2
                                | apply Forall_nil_2 | done]].
  all: intros p Hpd; apply lookup_app_Some in Hpd as [Hpd|[Hge Hpd]];
    [by destruct (Hnone p)|].
  all: assert (p = length (initPromises w)) as ->
    by (apply lookup_lt_Some in Hpd; simpl in Hpd; lia).
  all: eexists; by apply list_elem_of_singleton.
Qed.

Lemma step_init_inv (a : Action) (w : World) :
  no_close a → init_inv w → init_inv (step a w).
Proof.
  intros Ha Hinv. pose proof Hinv as (Hn & Hcore & Hpend & Htasks).
  destruct a as [c|t|t r|now].
  - cbn [step]. destruct c; try done; cbn [call];
      try (by apply (initialize_init_inv w (λ wt, _)));
      unfold configure, configureInitQueries;
      repeat case_match; frame_init Hn Hcore Hpend Htasks.
  - destruct (tasks w !! t) as [tk|] eqn:Ht; [|by cbn [step]; unfold wake; rewrite Ht].
    destruct (di_stage tk) as [[p b]|] eqn:Hdi.
    { eapply doInitialize_step_init_inv; eauto. }
    cbn [step]. unfold wake. rewrite Ht.
    destruct tk; try done; try discriminate Hdi;
      unfold_step; repeat case_match; simplify_eq; try done;
      frame_init Hn Hcore Hpend Htasks.
  - destruct (tasks w !! t) as [tk|] eqn:Ht; [|by cbn [step]; unfold resume; rewrite Ht].
    destruct (di_stage tk) as [[p b]|] eqn:Hdi.
    { eapply doInitialize_step_init_inv; eauto. }
    cbn [step]. unfold resume. rewrite Ht.
    destruct tk; try done; try discriminate Hdi;
      try (by destruct (Forall_lookup_1 _ _ _ _ Htasks Ht));
      unfold_step; repeat case_match; simplify_eq; try done;
      frame_init Hn Hcore Hpend Htasks.
  - cbn [step]. frame_init Hn Hcore Hpend Htasks.
Qed.

Lemma boot_init_inv (g : option nat) : init_inv (boot g).
Proof.
  split; [done|]. split; [done|]. split; [|by constructor].
  intros p Hp. by destruct p.
Qed.

Lemma run_init_inv (sched : list Action) (w : World) :
  Forall no_close sched → init_inv w → init_inv (run sched w).
Proof.
  intros Hs. revert w. induction Hs as [|a sched Ha _ IH]; intros w Hinv; [done|].
  rewrite run_cons. apply IH. by apply step_init_inv.
Qed.

(** What does hold of the initialisation within one connection lifetime,
    under any interleaving: the manager constructs at most one engine
    instance; at most one initialisation is in flight; at most one
    initialisation promise is pending, and it is the one stored in
    [initPromise], so that all callers that wait on a pending promise wait
    on the same one. *)
Theorem initialisation_is_single_flight (sched : list Action) (g : option nat) :
  Forall no_close sched →
  let w := run sched (boot g) in
  (constructions (log w) ≤ 1)%nat
  ∧ (length (di_state (tasks w)) ≤ 1)%nat
  ∧ (∀ p, initPromises w !! p = Some Pending → initPromise (mgr w) = Some p)
  ∧ (∀ t p, (tasks w !! t = Some (DI_Instantiate p) ∨ tasks w !! t = Some (DI_Connect p))
            → initPromises w !! p = Some Pending).
Proof.
  intros Hs w. pose proof (run_init_inv sched _ Hs (boot_init_inv g)) as Hinv.
  fold w in Hinv. clearbody w. destruct Hinv as (Hn & Hcore & Hpend & _).
  split. { rewrite Hn. destruct (db (mgr w)); lia. }
  split. { by destruct (di_state (tasks w)) as [|[p b] [|]]; simpl; try lia. }
  split.
  - intros p Hp. destruct (Hpend p Hp) as [b Hb].
    destruct (di_state (tasks w)) as [|[p' b'] [|]]; [by apply not_elem_of_nil in Hb| |done].
    apply list_elem_of_singleton in Hb as [= -> ->]. by destruct Hcore.
  - intros t p [Ht|Ht];
      pose proof (init_core_running _ _ _ _ _ _ _ Hcore Ht eq_refl) as Hrun;
      rewrite Hrun in Hcore; by destruct Hcore as (_ & ? & _).
Qed.

(** ** [initialize] while the engine instance is being set up *)

(** C1, at the failing input. A first [query] started the initialisation,
    whose promise is still pending while [instantiate] is awaited and no
    connection exists. A second [query] called now does not wait on that
    promise: its [initialize] returns at once because [db] is already set,
    and the call throws for want of a connection before the initialisation
    has completed. The first caller is still waiting on the promise. *)
Lemma second_caller_does_not_await_pending_initialisation :
  let w0 := run ([ACall (CQuery "SELECT 1")] ++ init_until_instantiate 0) (boot None) in
  let w1 := step (ACall (CQuery "SELECT 2")) w0 in
  let w := run example_second_caller (boot None) in
  connection (mgr w0) = None
  ∧ initPromise (mgr w0) = Some 0
  ∧ initPromises w0 !! 0 = Some Pending
  ∧ tasks w0 !! 0 = Some (DI_Instantiate 0)
  ∧ tasks w1 !! 2 = Some (Q_Initialize "SELECT 2" WNow)
  ∧ tasks w !! 2 = Some (Done (Threw (ErrObj "DuckDB connection not available")))
  ∧ tasks w !! 1 = Some (Q_Initialize "SELECT 1" (WPromise 0))
  ∧ initPromises w !! 0 = Some Pending
  ∧ constructions (log w) = 1.
Proof.
  intros w0 w1 w.
  repeat match goal with |- _ ∧ _ => split end; vm_compute; reflexivity.
Qed.

(** C3, at the failing input: the interleaving of C1 with a setup
    statement configured. The second caller starts the setup run while the
    connection is still null: the run throws before its first await, so its
    [catch] clears [initQueriesPromise] before the rejected promise is
    stored there. The initialisation then completes and the connection is
    open, but the rejected promise stays: the first caller fails on it too,
    no engine call has failed, and the connection never receives the setup
    statement or a statement of a caller. *)
Lemma early_caller_leaves_setup_promise_rejected :
  let w := run example_second_caller_with_setup (boot None) in
  let failure := ErrObj "Initialization query failed: Cannot read properties of null (reading 'query')" in
  initPromises w = [Fulfilled]
  ∧ connection (mgr w) = Some 1
  ∧ initQueriesExecuted (mgr w) = false
  ∧ initQueriesPromise (mgr w) = Some 0
  ∧ setupPromises w = [Rejected failure]
  ∧ tasks w !! 3 = Some (Done (Threw failure))
  ∧ tasks w !! 2 = Some (Done (Threw failure))
  ∧ received (log w) = [].
Proof.
  intros w failure.
  repeat match goal with |- _ ∧ _ => split end; vm_compute; reflexivity.
Qed.

(** C2, at the failing input. Initialisation fails at [instantiate]: the
    promise is cleared, but the engine instance stays in [db] with no
    connection, and [isInitialized()] is true. The next [query] starts no
    acquisition, calls nothing, and throws for want of a connection. When
    the failure comes before the instance is constructed, at the fetch of
    the worker, [db] is still null and the next [query] does start a new
    initialisation. *)
Lemma failed_instantiate_leaves_engine_instance :
  let w := run example_instantiate_fails (boot None) in
  let w' := run [ACall (CQuery "SELECT 2"); AWake 2; AWake 2] w in
  let v := run example_fetch_fails (boot None) in
  let v' := step (ACall (CQuery "SELECT 2")) v in
  initPromise (mgr w) = None
  ∧ initPromises w !! 0
    = Some (Rejected (ErrObj "Failed to initialize DuckDB: instantiate failed"))
  ∧ db (mgr w) = Some 0
  ∧ connection (mgr w) = None
  ∧ isInitialized w = true
  ∧ log w' = log w
  ∧ length (tasks w') = S (length (tasks w))
  ∧ tasks w' !! 2 = Some (Done (Threw (ErrObj "DuckDB connection not available")))
  ∧ initPromise (mgr v) = None
  ∧ db (mgr v) = None
  ∧ isInitialized v = false
  ∧ initPromise (mgr v') = Some 1
  ∧ tasks v' !! 2 = Some (DI_Module 1 7)
  ∧ tasks v' !! 3 = Some (Q_Initialize "SELECT 2" (WPromise 1)).
Proof.
  intros w w' v v'.
  repeat match goal with |- _ ∧ _ => split end; vm_compute; reflexivity.
Qed.

(** ** One run of the setup statements, step by step *)

Lemma received_app (l1 l2 : list Event) :
  received (l1 ++ l2) = received l1 ++ received l2.
Proof. apply omap_app. Qed.

Section SetupRun.

Variables (t p c : nat).

(** [query] on a manager whose connection is open and whose setup has not
    started: the first statement is submitted and the run is in flight. *)
Lemma query_starts_setup (w : World) (sql : string) (h : nat)
    (q0 : string) (rest : list string) :
  db (mgr w) = Some h → connection (mgr w) = Some c →
  initQueriesExecuted (mgr w) = false → initQueriesPromise (mgr w) = None →
  initQueries (mgr w) = q0 :: rest →
  let W := run [ACall (CQuery sql); AWake (length (tasks w))] w in
  let p := length (setupPromises w) in
  mgr W = set_initQueriesPromise (Some p) (mgr w)
  ∧ tasks W = tasks w ++ [Q_InitQueries sql (WPromise p); IQ_Query p 0]
  ∧ setupPromises W = setupPromises w ++ [Pending]
  ∧ log W = log w ++ [EQuery c (Setup 0) q0]
  ∧ clock W = clock w.
Proof.
  intros Hdb Hc Hex Hp Hq. rewrite !run_cons, run_nil. cbn [step call].
  unfold initialize. rewrite Hdb. unfold wake. wsimpl. snoc_tasks.
  cbn [poll]. unfold executeInitQueries. wsimpl. rewrite Hex, Hp, Hq.
  unfold initQueries_loop. wsimpl. rewrite Hq, Hc. cbn [lookup list_lookup].
  wsimpl. rewrite insert_snoc2. done.
Qed.

(** A statement of the run succeeds and a next one exists. *)
Lemma setup_ok_step (W : World) (i : nat) (q : string) :
  tasks W !! t = Some (IQ_Query p i) → connection (mgr W) = Some c →
  initQueries (mgr W) !! S i = Some q →
  let W' := step (AResume t okU) W in
  mgr W' = mgr W
  ∧ tasks W' = <[t := IQ_Query p (S i)]> (tasks W)
  ∧ setupPromises W' = setupPromises W
  ∧ log W' = log W ++ [EQueryDone (Setup i) true; EQuery c (Setup (S i)) q]
  ∧ clock W' = clock W.
Proof.
  intros Ht Hc Hq. cbn [step]. unfold resume, okU. rewrite Ht.
  unfold initQueries_loop. wsimpl. rewrite Hq, Hc. wsimpl.
  by rewrite <- app_assoc.
Qed.

(** [n] statements in a row succeed, each followed by a next one. *)
Lemma setup_ok_steps (n : nat) (W : World) (i : nat) :
  tasks W !! t = Some (IQ_Query p i) → connection (mgr W) = Some c →
  (S (i + n) ≤ length (initQueries (mgr W)))%nat →
  let W' := run (repeat (AResume t okU) n) W in
  mgr W' = mgr W
  ∧ tasks W' = <[t := IQ_Query p (i + n)]> (tasks W)
  ∧ setupPromises W' = setupPromises W
  ∧ received (log W') = received (log W) ++ take n (drop (S i) (initQueries (mgr W)))
  ∧ clock W' = clock W.
Proof.
  revert W i. induction n as [|n IH]; intros W i Ht Hc Hlen.
  - cbn [repeat]. rewrite run_nil. cbn zeta. rewrite Nat.add_0_r, app_nil_r.
    by rewrite list_insert_id.
  - cbn [repeat]. rewrite run_cons.
    destruct (lookup_lt_is_Some_2 (initQueries (mgr W)) (S i)) as [q Hq]; [lia|].
    destruct (setup_ok_step W i q Ht Hc Hq) as (Hm & Htk & Hsp & Hl & Hck).
    destruct (IH (step (AResume t okU) W) (S i)) as (Hm' & Htk' & Hsp' & Hl' & Hck').
    { rewrite Htk. apply list_lookup_insert_eq. by eapply lookup_lt_Some. }
    { by rewrite Hm. }
    { rewrite Hm. lia. }
    cbn zeta. rewrite Hm', Htk', Hsp', Hl', Hck', Hm, Htk, Hsp, Hl, Hck.
    split; [done|]. split.
    { rewrite list_insert_insert_eq. by replace (S i + n) with (i + S n) by lia. }
    split; [done|]. split; [|done].
    rewrite received_app. cbn [received omap]. rewrite <- app_assoc. f_equal.
    rewrite (drop_S _ q (S i)) by done. done.
Qed.

(** The last statement of the run succeeds. *)
Lemma setup_last_ok (W : World) (i : nat) :
  tasks W !! t = Some (IQ_Query p i) → initQueries (mgr W) !! S i = None →
  let W' := step (AResume t okU) W in
  mgr W' = set_initQueriesExecuted true (mgr W)
  ∧ tasks W' = <[t := Done (Returned RVoid)]> (tasks W)
  ∧ setupPromises W' = <[p := Fulfilled]> (setupPromises W)
  ∧ log W' = log W ++ [EQueryDone (Setup i) true]
  ∧ clock W' = clock W.
Proof.
  intros Ht Hq. cbn [step]. unfold resume, okU. rewrite Ht.
  unfold initQueries_loop. wsimpl. rewrite Hq. by wsimpl.
Qed.

(** A statement of the run fails. *)
Lemma setup_fail (W : World) (i : nat) (e : Thrown) :
  tasks W !! t = Some (IQ_Query p i) →
  let W' := step (AResume t (Raise e)) W in
  let thrown := ErrObj ("Initialization query failed: " +:+ errText e) in
  mgr W' = set_initQueriesPromise None (mgr W)
  ∧ tasks W' = <[t := Done (Threw thrown)]> (tasks W)
  ∧ setupPromises W' = <[p := Rejected thrown]> (setupPromises W)
  ∧ log W' = log W ++ [EQueryDone (Setup i) false]
  ∧ clock W' = clock W.
Proof.
  intros Ht. cbn [step]. unfold resume. rewrite Ht.
  unfold initQueries_catch. by wsimpl.
Qed.

End SetupRun.

(** The caller of [query] is resumed after the setup promise was
    rejected. *)
Lemma wake_after_setup_rejected (W : World) (t p : nat) (sql : string) (e : Thrown) :
  tasks W !! t = Some (Q_InitQueries sql (WPromise p)) →
  setupPromises W !! p = Some (Rejected e) →
  let W' := step (AWake t) W in
  mgr W' = mgr W ∧ tasks W' = <[t := Done (Threw e)]> (tasks W)
  ∧ setupPromises W' = setupPromises W ∧ log W' = log W ∧ clock W' = clock W.
Proof.
  intros Ht Hp. cbn [step]. unfold wake. rewrite Ht. cbn [poll]. rewrite Hp.
  by wsimpl.
Qed.

(** The caller of [query] is resumed after the setup promise was
    fulfilled. *)
Lemma wake_after_setup_fulfilled (W : World) (t p c : nat) (sql : string) :
  tasks W !! t = Some (Q_InitQueries sql (WPromise p)) →
  setupPromises W !! p = Some Fulfilled →
  connection (mgr W) = Some c →
  let W' := step (AWake t) W in
  mgr W' = mgr W ∧ tasks W' = <[t := Q_Query sql (clock W)]> (tasks W)
  ∧ setupPromises W' = setupPromises W
  ∧ log W' = log W ++ [EQuery c (User t) sql] ∧ clock W' = clock W.
Proof.
  intros Ht Hp Hc. cbn [step]. unfold wake. rewrite Ht. cbn [poll]. rewrite Hp.
  cbn [default]. unfold query_submit. rewrite Hc. by wsimpl.
Qed.

(** ** A whole attempt at the setup statements *)

(** The attempt in which the statement after [pre] fails. *)
Lemma failing_attempt (w : World) (pre post : list string) (b sql : string)
    (e : Thrown) (h c : nat) :
  db (mgr w) = Some h → connection (mgr w) = Some c →
  initQueriesExecuted (mgr w) = false → initQueriesPromise (mgr w) = None →
  initQueries (mgr w) = pre ++ b :: post →
  let t := length (tasks w) in
  let thrown := ErrObj ("Initialization query failed: " +:+ errText e) in
  let w1 := run (query_with_failing_setup t sql (length pre) e) w in
  mgr w1 = mgr w
  ∧ length (tasks w1) = t + 2
  ∧ tasks w1 !! t = Some (Done (Threw thrown))
  ∧ setupPromises w1 = setupPromises w ++ [Rejected thrown]
  ∧ received (log w1) = received (log w) ++ pre ++ [b]
  ∧ clock w1 = clock w.
Proof.
  intros Hdb Hc Hex Hp Hq t thrown. subst t. unfold query_with_failing_setup.
  destruct (pre ++ b :: post) as [|q0 rest] eqn:Hqs.
  { by destruct pre. }
  set (p := length (setupPromises w)). set (t := length (tasks w)).
  rewrite !run_app.
  (* the call, and the first submission *)
  pose proof (query_starts_setup c w sql h q0 rest Hdb Hc Hex Hp Hq) as HA.
  cbv zeta in HA. fold p t in HA.
  set (WA := run [ACall (CQuery sql); AWake t] w) in *. clearbody WA.
  destruct HA as (HmA & HtA & HsA & HlA & HcA).
  assert (HtA' : tasks WA !! S t = Some (IQ_Query p 0)).
  { rewrite HtA. apply lookup_snoc2'. }
  (* the statements of [pre] succeed *)
  pose proof (setup_ok_steps (S t) p c (length pre) WA 0 HtA') as HB.
  cbv zeta in HB.
  set (WB := run (repeat (AResume (S t) okU) (length pre)) WA) in *. clearbody WB.
  destruct HB as (HmB & HtB & HsB & HlB & HcB).
  { by rewrite HmA. }
  { rewrite HmA. wsimpl. rewrite Hq, <- Hqs, length_app. simpl. lia. }
  (* the next one fails *)
  assert (HtB' : tasks WB !! S t = Some (IQ_Query p (length pre))).
  { rewrite HtB. apply list_lookup_insert_eq. by eapply lookup_lt_Some. }
  rewrite run_cons.
  pose proof (setup_fail (S t) p WB (length pre) e HtB') as HC. cbv zeta in HC.
  set (WC := step (AResume (S t) (Raise e)) WB) in *. clearbody WC.
  destruct HC as (HmC & HtC & HsC & HlC & HcC).
  (* the caller is resumed *)
  rewrite run_cons, run_nil.
  assert (Hlen : length (tasks w ++ [Q_InitQueries sql (WPromise p); IQ_Query p 0])
                 = t + 2).
  { rewrite length_app. simpl. unfold t. lia. }
  assert (HtC' : tasks WC !! t = Some (Q_InitQueries sql (WPromise p))).
  { rewrite HtC, HtB, HtA. rewrite !list_lookup_insert_ne by lia.
    apply lookup_snoc2. }
  assert (HsC' : setupPromises WC !! p = Some (Rejected thrown)).
  { rewrite HsC, HsB, HsA. apply list_lookup_insert_eq.
    rewrite length_app. simpl. unfold p. lia. }
  pose proof (wake_after_setup_rejected WC t p sql thrown HtC' HsC') as HD.
  cbv zeta in HD.
  set (WD := step (AWake t) WC) in *. clearbody WD.
  destruct HD as (HmD & HtD & HsD & HlD & HcD).
  split.
  { rewrite HmD, HmC, HmB, HmA. apply manager_eq; wsimpl; done. }
  split.
  { rewrite HtD, HtC, HtB, HtA. by rewrite !length_insert. }
  split.
  { rewrite HtD. apply list_lookup_insert_eq.
    rewrite HtC, HtB, HtA, !length_insert. lia. }
  split.
  { rewrite HsD, HsC, HsB, HsA. unfold p.
    rewrite insert_app_r_alt by lia. by rewrite Nat.sub_diag. }
  split; [|congruence].
  rewrite HlD, HlC, received_app, HlB, HlA, received_app. cbn [received omap].
  rewrite app_nil_r, HmA. wsimpl. rewrite Hq. cbn [drop].
  rewrite <- !app_assoc. f_equal. simpl.
  transitivity (take (S (length pre)) (q0 :: rest)); [done|].
  rewrite <- Hqs.
  replace (pre ++ b :: post) with ((pre ++ [b]) ++ post) by by rewrite <- app_assoc.
  rewrite take_app_length'; [done|]. rewrite length_app. simpl. lia.
Qed.

(** The attempt in which every statement succeeds. *)
Lemma successful_attempt (w : World) (qs : list string) (sql : string) (h c : nat) :
  db (mgr w) = Some h → connection (mgr w) = Some c →
  initQueriesExecuted (mgr w) = false → initQueriesPromise (mgr w) = None →
  initQueries (mgr w) = qs → qs ≠ [] →
  let t := length (tasks w) in
  let w2 := run (query_with_setup t sql (length qs)) w in
  initQueriesExecuted (mgr w2) = true
  ∧ tasks w2 !! t = Some (Q_Query sql (clock w))
  ∧ setupPromises w2 = setupPromises w ++ [Fulfilled]
  ∧ received (log w2) = received (log w) ++ qs ++ [sql].
Proof.
  intros Hdb Hc Hex Hp Hq Hne t. subst t. unfold query_with_setup.
  destruct qs as [|q0 rest]; [done|]. clear Hne.
  set (p := length (setupPromises w)). set (t := length (tasks w)).
  cbn [length]. rewrite repeat_snoc, !run_app.
  pose proof (query_starts_setup c w sql h q0 rest Hdb Hc Hex Hp Hq) as HA.
  cbv zeta in HA. fold p t in HA.
  set (WA := run [ACall (CQuery sql); AWake t] w) in *. clearbody WA.
  destruct HA as (HmA & HtA & HsA & HlA & HcA).
  assert (HtA' : tasks WA !! S t = Some (IQ_Query p 0)).
  { rewrite HtA. apply lookup_snoc2'. }
  pose proof (setup_ok_steps (S t) p c (length rest) WA 0 HtA') as HB.
  cbv zeta in HB.
  set (WB := run (repeat (AResume (S t) okU) (length rest)) WA) in *. clearbody WB.
  destruct HB as (HmB & HtB & HsB & HlB & HcB).
  { by rewrite HmA. }
  { rewrite HmA. wsimpl. rewrite Hq. simpl. lia. }
  assert (HtB' : tasks WB !! S t = Some (IQ_Query p (length rest))).
  { rewrite HtB. apply list_lookup_insert_eq. by eapply lookup_lt_Some. }
  rewrite !run_cons, !run_nil.
  pose proof (setup_last_ok (S t) p WB (length rest) HtB') as HC. cbv zeta in HC.
  set (WC := step (AResume (S t) okU) WB) in *. clearbody WC.
  destruct HC as (HmC & HtC & HsC & HlC & HcC).
  { rewrite HmB, HmA. wsimpl. rewrite Hq. apply lookup_ge_None. simpl. lia. }
  assert (HtC' : tasks WC !! t = Some (Q_InitQueries sql (WPromise p))).
  { rewrite HtC, HtB, HtA. rewrite !list_lookup_insert_ne by lia.
    apply lookup_snoc2. }
  assert (HsC' : setupPromises WC !! p = Some Fulfilled).
  { rewrite HsC, HsB, HsA. apply list_lookup_insert_eq.
    rewrite length_app. simpl. unfold p. lia. }
  assert (HcC' : connection (mgr WC) = Some c).
  { by rewrite HmC, HmB, HmA. }
  pose proof (wake_after_setup_fulfilled WC t p c sql HtC' HsC' HcC') as HD.
  cbv zeta in HD.
  set (WD := step (AWake t) WC) in *. clearbody WD.
  destruct HD as (HmD & HtD & HsD & HlD & HcD). cbv zeta.
  split. { by rewrite HmD, HmC. }
  split.
  { rewrite HtD, HcC, HcB, HcA. apply list_lookup_insert_eq.
    rewrite HtC, HtB, HtA, !length_insert, length_app. simpl. lia. }
  split.
  { rewrite HsD, HsC, HsB, HsA. unfold p.
    rewrite insert_app_r_alt by lia. by rewrite Nat.sub_diag. }
  rewrite HlD, received_app, HlC, received_app, HlB, HlA, received_app.
  rewrite HmA. wsimpl. rewrite Hq. simpl. rewrite app_nil_r.
  rewrite firstn_all. by rewrite <- !app_assoc.
Qed.

(** ** A failing setup statement *)

(** C4. Take a manager whose connection is open and whose setup has not
    started, configured with the statements [pre ++ b :: post]. A [query]
    starts the setup run; the statements of [pre] succeed and [b] fails
    with [e]. Then the connection has received [pre] and [b], in order, and
    nothing of [post]; the setup flag is unset and [initQueriesPromise] is
    null again; the promise of the run is rejected with, and the call of
    [query] throws, an error whose message is "Initialization query
    failed: " followed by the text of [e]. A [query] called after that
    starts the run again from the first statement: when all statements
    succeed the connection receives the whole list in order, then that
    call's own statement, and the setup flag is set. *)
Theorem setup_failure_resets_and_is_retried
    (w : World) (pre post : list string) (b sql sql2 : string)
    (e : Thrown) (h c : nat) :
  db (mgr w) = Some h → connection (mgr w) = Some c →
  initQueriesExecuted (mgr w) = false → initQueriesPromise (mgr w) = None →
  initQueries (mgr w) = pre ++ b :: post →
  let t := length (tasks w) in
  let thrown := ErrObj ("Initialization query failed: " +:+ errText e) in
  let w1 := run (query_with_failing_setup t sql (length pre) e) w in
  received (log w1) = received (log w) ++ pre ++ [b]
  ∧ initQueriesExecuted (mgr w1) = false
  ∧ initQueriesPromise (mgr w1) = None
  ∧ setupPromises w1 !! length (setupPromises w) = Some (Rejected thrown)
  ∧ tasks w1 !! t = Some (Done (Threw thrown))
  ∧ let w2 := run (query_with_setup (t + 2) sql2 (length (pre ++ b :: post))) w1 in
    received (log w2) = received (log w1) ++ (pre ++ b :: post) ++ [sql2]
    ∧ initQueriesExecuted (mgr w2) = true
    ∧ tasks w2 !! (t + 2) = Some (Q_Query sql2 (clock w)).
Proof.
  intros Hdb Hc Hex Hp Hq t thrown w1.
  destruct (failing_attempt w pre post b sql e h c Hdb Hc Hex Hp Hq)
    as (Hm1 & Hlen1 & Ht1 & Hs1 & Hl1 & Hc1).
  fold t thrown w1 in Hm1, Hlen1, Ht1, Hs1, Hl1, Hc1. clearbody w1.
  split; [done|]. split; [by rewrite Hm1|]. split; [by rewrite Hm1|].
  split. { rewrite Hs1. by apply list_lookup_middle. }
  split; [done|]. intros w2.
  destruct (successful_attempt w1 (pre ++ b :: post) sql2 h c)
    as (Hex2 & Ht2 & _ & Hl2); rewrite ?Hm1; try done.
  { by destruct pre. }
  rewrite Hlen1, Hc1 in *. done.
Qed.

Lemma setup_failure_resets_and_is_retried_witness :
  let w := run example_connected_three_statements (boot None) in
  let w1 := run (query_with_failing_setup 3 "SELECT 1" 1 (ErrObj "no such extension")) w in
  let w2 := run (query_with_setup 5 "SELECT 2" 3) w1 in
  received (log w1) = ["A"; "B"]
  ∧ tasks w1 !! 3
    = Some (Done (Threw (ErrObj "Initialization query failed: no such extension")))
  ∧ received (log w2) = ["A"; "B"; "A"; "B"; "C"; "SELECT 2"].
Proof.
  intros w w1 w2.
  destruct (setup_failure_resets_and_is_retried w ["A"] ["C"] "B" "SELECT 1" "SELECT 2"
              (ErrObj "no such extension") 0 1)
    as (H1 & _ & _ & _ & H2 & H3 & _);
    [reflexivity | reflexivity | reflexivity | reflexivity | reflexivity |].
  split; [exact H1|]. split; [exact H2|].
  etransitivity; [exact H3|]. rewrite H1. reflexivity.
Defined.

(** ** Setup runs in flight *)

Lemma iq_state_app (l1 l2 : list Task) :
  iq_state (l1 ++ l2) = iq_state l1 ++ iq_state l2.
Proof. apply omap_app. Qed.

Lemma iq_state_insert_other (ts : list Task) (t : nat) (x y : Task) :
  ts !! t = Some y → is_iq y = None → is_iq x = None →
  iq_state (<[t := x]> ts) = iq_state ts.
Proof. apply omap_insert_other. Qed.

Lemma iq_state_lookup (ts : list Task) (t p i : nat) :
  ts !! t = Some (IQ_Query p i) → (p, i) ∈ iq_state ts.
Proof. intros Ht. by eapply omap_lookup_elem. Qed.

Lemma iq_state_insert_single (ts : list Task) (t : nat) (x : Task) (p i : nat)
    (pi : nat * nat) :
  ts !! t = Some (IQ_Query p i) → iq_state ts = [pi] →
  iq_state (<[t := x]> ts) = option_list (is_iq x).
Proof. intros Ht Hs. by eapply omap_insert_single. Qed.

(** ** The setup statements under any interleaving *)

Lemma setup_trace_app (l1 l2 : list Event) :
  setup_trace (l1 ++ l2) = setup_trace l1 ++ setup_trace l2.
Proof. apply omap_app. Qed.

Lemma expected_from_app (i : nat) (l1 l2 : list string) :
  expected_from i (l1 ++ l2)
  = expected_from i l1 ++ expected_from (i + length l1) l2.
Proof.
  revert i. induction l1 as [|q l1 IH]; intros i; simpl.
  - by rewrite Nat.add_0_r.
  - rewrite IH. by replace (S i + length l1) with (i + S (length l1)) by lia.
Qed.

Lemma expected_take_S (qs : list string) (i : nat) (q : string) :
  qs !! i = Some q →
  expected (take (S i) qs) = expected (take i qs) ++ [Sub i q; Fin i true].
Proof.
  intros Hq. rewrite (take_S_r _ _ _ Hq). unfold expected.
  rewrite expected_from_app. simpl. rewrite length_take.
  apply lookup_lt_Some in Hq. by replace (i `min` length qs) with i by lia.
Qed.

Lemma expected_take_prefix (qs : list string) (i : nat) :
  expected (take i qs) `prefix_of` expected qs.
Proof.
  rewrite <- (take_drop i qs) at 2. unfold expected.
  rewrite expected_from_app. by eexists.
Qed.

Lemma no_failure_app (l1 l2 : list SetupEv) :
  no_failure (l1 ++ l2) ↔ no_failure l1 ∧ no_failure l2.
Proof.
  unfold no_failure. split.
  - intros H. split; intros i Hi; apply (H i); apply elem_of_app; auto.
  - intros [H1 H2] i Hi. apply elem_of_app in Hi as [Hi|Hi]; [by eapply H1|by eapply H2].
Qed.

Lemma setup_core_ext (qs : list string) (m m' : Manager)
    (iq : list (nat * nat)) (T : list SetupEv) :
  setup_core qs m iq T →
  initQueries m' = initQueries m →
  initQueriesExecuted m' = initQueriesExecuted m →
  initQueriesPromise m' = initQueriesPromise m →
  (is_Some (connection m) → is_Some (connection m')) →
  setup_core qs m' iq T.
Proof.
  intros [Hq H] E1 E2 E3 E4. split; [congruence|].
  destruct iq as [|[p i] [|]]; rewrite ?E2, ?E3; try done.
  destruct H as (? & ? & ? & ?). auto.
Qed.

Lemma user_after_setup_other (qs : list string) (l : list Event) (e : Event) :
  (∀ c t sql, e ≠ EQuery c (User t) sql) → user_after_setup qs l e.
Proof. intros H c t sql ->. by destruct (H c t sql). Qed.

Lemma task_ok_mono (ts : list Task) (b : bool) :
  Forall (task_ok b) ts → Forall (task_ok true) ts.
Proof.
  intros H. eapply Forall_impl; [exact H|].
  intros [] H'; try done. simpl in *. by destruct w.
Qed.

(** Simplify the runs in flight and the setup trace of a world given by
    updates of [w]. *)
Ltac norm_view :=
  repeat first
    [ rewrite iq_state_app
    | rewrite setup_trace_app
    | match goal with
      | Ht : ?ts !! ?t = Some ?y |- context [iq_state (<[?t := ?x]> ?ts)] =>
        rewrite (iq_state_insert_other ts t x y Ht) by reflexivity
      end ];
  cbn [iq_state setup_trace omap is_iq setup_event];
  rewrite ?app_nil_r.

Ltac frame_core H :=
  eapply setup_core_ext; [exact H | reflexivity | reflexivity | reflexivity | ];
  wsimpl; first [ by auto | by intros; eexists ].

Ltac frame_tasks H :=
  repeat first [ apply Forall_app_2 | apply Forall_insert
               | apply Forall_cons_2 | apply Forall_nil_2 | exact H | exact I ].

Ltac frame_log H :=
  repeat first [ exact H
               | apply each_preceded_snoc;
                 [| apply user_after_setup_other; by intros ] ].

Lemma core_promise_none qs m iq T :
  setup_core qs m iq T → initQueriesPromise m = None → iq = [].
Proof.
  intros [_ H] Hp. destruct iq as [|[p i] [|]]; [done| |done].
  destruct H as (_ & H & _). congruence.
Qed.

Lemma core_executed qs m iq T :
  setup_core qs m iq T → initQueriesExecuted m = true →
  iq = [] ∧ expected qs `suffix_of` T.
Proof.
  intros [_ H] Hex. destruct iq as [|[p i] [|]]; [|by destruct H; congruence|done].
  rewrite Hex in H. by destruct H.
Qed.

Lemma core_running qs m (ts : list Task) T t p i :
  setup_core qs m (iq_state ts) T → ts !! t = Some (IQ_Query p i) →
  iq_state ts = [(p, i)].
Proof.
  intros [_ H] Ht. apply iq_state_lookup in Ht.
  destruct (iq_state ts) as [|[p' i'] [|]]; [|by apply list_elem_of_singleton in Ht as ->|done].
  by apply not_elem_of_nil in Ht.
Qed.

(** The promises of the setup runs: a fulfilled one means the flag is
    set. *)
Lemma promises_snoc_pending (ps : list PState) (P : Prop) :
  (∀ p, ps !! p = Some Fulfilled → P) →
  ∀ p, (ps ++ [Pending]) !! p = Some Fulfilled → P.
Proof.
  intros H p Hp. apply lookup_app_Some in Hp as [Hp|[_ Hp]]; [by eapply H|].
  by destruct (p - length ps) as [|[|]].
Qed.

Lemma promises_insert_rejected (ps : list PState) (P : Prop) (k : nat) (e : Thrown) :
  (∀ p, ps !! p = Some Fulfilled → P) →
  ∀ p, <[k := Rejected e]> ps !! p = Some Fulfilled → P.
Proof.
  intros H p Hp. apply list_lookup_insert_Some in Hp as [(_ & ? & _)|[_ Hp]]; [done|].
  by eapply H.
Qed.

(** [executeInitQueries], called by the [query] that is task [t]. *)
Lemma executeInitQueries_setup_inv (qs : list string) (w : World) (t : nat)
    (sql : string) (wt : Wait) :
  tasks w !! t = Some (Q_Initialize sql wt) → setup_inv qs w →
  setup_inv qs (let '(w1, wt') := executeInitQueries w in
                set_task t (Q_InitQueries sql wt') w1).
Proof.
  intros Ht (Hcore & Hprom & Htasks & Hlog). unfold executeInitQueries.
  destruct (initQueriesExecuted (mgr w)) eqn:Hex.
  { (* already executed *)
    unfold setup_inv. wsimpl. rewrite Hex. norm_view.
    split; [done|]. split; [done|]. split; [|done].
    apply Forall_insert; [|done]. done. }
  destruct (initQueriesPromise (mgr w)) as [p|] eqn:Hp.
  { (* a run is in flight, or its promise was left rejected *)
    unfold setup_inv. wsimpl. rewrite Hex. norm_view.
    split; [done|]. split; [done|]. split; [|done].
    apply Forall_insert; [|done]. done. }
  pose proof (core_promise_none _ _ _ _ Hcore Hp) as Hidle.
  destruct Hcore as [Hq Hshape]. rewrite Hidle, Hex in Hshape. subst qs.
  destruct (initQueries (mgr w)) as [|q0 rest] eqn:Hqs.
  { (* nothing configured *)
    unfold setup_inv. wsimpl. norm_view. rewrite Hidle.
    split. { split; [done|]. wsimpl. split; [apply suffix_nil|done]. }
    split; [done|]. split; [|done].
    apply Forall_insert; [|done]. by eapply task_ok_mono. }
  unfold initQueries_loop. wsimpl. rewrite Hqs. cbn [lookup list_lookup].
  destruct (connection (mgr w)) as [c|] eqn:Hc.
  - (* the run starts: the first statement is submitted *)
    unfold setup_inv. wsimpl. rewrite Hex.
    assert (Ht' : (tasks w ++ [IQ_Query (length (setupPromises w)) 0]) !! t
                  = Some (Q_Initialize sql wt)).
    { by apply lookup_app_l_Some. }
    norm_view. rewrite Hidle. cbn [app].
    split.
    { split; [done|]. wsimpl. rewrite Hc. split; [done|]. split; [done|].
      split; [by eexists|].
      exists (setup_trace (log w)), q0. by cbn. }
    split. { by apply promises_snoc_pending. }
    split.
    { apply Forall_insert; [|done]. apply Forall_app_2; [done|by repeat constructor]. }
    apply each_preceded_snoc; [done|]. by apply user_after_setup_other.
  - (* no connection: the run fails before its first await *)
    unfold initQueries_catch, setup_inv. wsimpl. rewrite Hex.
    assert (Ht' : (tasks w ++ [Done (Threw (ErrObj ("Initialization query failed: "
                     +:+ errText (typeErrorNull "query"))))]) !! t
                  = Some (Q_Initialize sql wt)).
    { by apply lookup_app_l_Some. }
    norm_view. rewrite Hidle.
    split. { split; [done|]. wsimpl. by rewrite Hex. }
    split. { apply promises_insert_rejected. by apply promises_snoc_pending. }
    split; [|done].
    apply Forall_insert; [|done]. apply Forall_app_2; [done|by repeat constructor].
Qed.

(** [query] submits the caller's statement. *)
Lemma query_submit_setup_inv (qs : list string) (w : World) (t : nat)
    (sql : string) (wt : Wait) :
  tasks w !! t = Some (Q_InitQueries sql wt) →
  poll (setupPromises w) wt = Fulfilled →
  setup_inv qs w → setup_inv qs (query_submit t sql w).
Proof.
  intros Ht Hpoll (Hcore & Hprom & Htasks & Hlog).
  assert (Hex : initQueriesExecuted (mgr w) = true).
  { destruct wt as [|p].
    - by apply (Forall_lookup_1 _ _ _ _ Htasks Ht).
    - apply (Hprom p). cbn in Hpoll.
      by destruct (setupPromises w !! p) as [[]|]. }
  destruct (core_executed _ _ _ _ Hcore Hex) as [Hidle Hsuf].
  unfold query_submit, setup_inv.
  destruct (connection (mgr w)) as [c|] eqn:Hc; wsimpl; norm_view.
  - split; [done|]. split; [done|]. split; [by apply Forall_insert|].
    apply each_preceded_snoc; [done|]. by intros ? ? ? _.
  - split; [done|]. split; [done|]. split; [by apply Forall_insert|done].
Qed.

(** The setup run that is task [t] is answered. *)
Lemma initQueries_resume_setup_inv (qs : list string) (w : World) (t p i : nat) (r : Resp) :
  tasks w !! t = Some (IQ_Query p i) →
  setup_inv qs w → setup_inv qs (resume t r w).
Proof.
  intros Ht (Hcore & Hprom & Htasks & Hlog).
  pose proof (core_running _ _ _ _ _ _ _ Hcore Ht) as Hrun.
  destruct Hcore as [Hq Hshape]. rewrite Hrun in Hshape.
  destruct Hshape as (Hex & Hp & [c Hc] & F & q & HT & Hqi & HF).
  rewrite Hex in *.
  assert (Hfin : ∀ ok, setup_trace (log w ++ [EQueryDone (Setup i) ok])
                       = F ++ expected (take i qs) ++ [Sub i q; Fin i ok]).
  { intros ok. rewrite setup_trace_app, HT. cbn. by rewrite <- !app_assoc. }
  unfold resume. rewrite Ht.
  destruct r as [v|e].
  - unfold initQueries_loop. wsimpl. rewrite Hq, Hc.
    destruct (qs !! S i) as [q'|] eqn:Hq'.
    + (* the next statement is submitted *)
      unfold setup_inv. wsimpl. rewrite Hex.
      rewrite (iq_state_insert_single _ _ _ _ _ _ Ht Hrun).
      rewrite setup_trace_app, Hfin. cbn [option_list is_iq].
      split.
      { split; [done|]. split; [done|]. split; [done|].
        split; [by rewrite Hc; eexists|].
        exists F, q'. split; [|done].
        rewrite (expected_take_S _ _ _ Hqi). cbn. by rewrite <- !app_assoc. }
      split; [done|]. split; [by apply Forall_insert|].
      repeat (apply each_preceded_snoc; [|by apply user_after_setup_other]). done.
    + (* it was the last one *)
      unfold setup_inv. wsimpl.
      rewrite (iq_state_insert_single _ _ _ _ _ _ Ht Hrun).
      rewrite Hfin. cbn [option_list is_iq].
      assert (HTq : F ++ expected (take i qs) ++ [Sub i q; Fin i true]
                    = F ++ expected qs).
      { rewrite <- (expected_take_S _ _ _ Hqi).
        rewrite take_ge; [done|]. by apply lookup_ge_None. }
      rewrite HTq.
      split.
      { split; [done|]. wsimpl. split; [by eexists|].
        intros Hnf. apply no_failure_app in Hnf as [Hnf _]. by rewrite (HF Hnf). }
      split; [done|].
      split. { apply Forall_insert; [|done]. by eapply task_ok_mono. }
      apply each_preceded_snoc; [done|]. by apply user_after_setup_other.
  - (* the statement failed *)
    unfold initQueries_catch, setup_inv. wsimpl. rewrite Hex.
    rewrite (iq_state_insert_single _ _ _ _ _ _ Ht Hrun).
    rewrite Hfin. cbn [option_list is_iq].
    split.
    { split; [done|]. wsimpl. rewrite Hex. intros Hnf.
      apply no_failure_app in Hnf as [_ Hnf].
      apply no_failure_app in Hnf as [_ Hnf].
      destruct (Hnf i). apply list_elem_of_In. simpl. auto. }
    split. { by apply promises_insert_rejected. }
    split; [by apply Forall_insert|].
    apply each_preceded_snoc; [done|]. by apply user_after_setup_other.
Qed.

(** A step that leaves the setup state alone. *)
Ltac frame_inv Hcore Hprom Htasks Hlog :=
  unfold setup_inv; wsimpl;
  split; [norm_view; frame_core Hcore
         | split; [exact Hprom
                  | split; [frame_tasks Htasks | frame_log Hlog]]].

Lemma step_setup_inv (qs : list string) (a : Action) (w : World) :
  keeps_setup a → setup_inv qs w → setup_inv qs (step a w).
Proof.
  intros Ha Hinv. destruct a as [c|t|t r|now]; cbn [step].
  - (* a call *)
    destruct Hinv as (Hcore & Hprom & Htasks & Hlog).
    destruct c; try done; cbn [call];
      unfold configure, initialize, loadDuckDBModule;
      repeat case_match; simplify_eq; frame_inv Hcore Hprom Htasks Hlog.
  - (* a task goes on after a promise of the manager *)
    unfold wake. destruct (tasks w !! t) as [tk|] eqn:Ht; [|done].
    destruct tk; try done.
    + destruct Hinv as (Hcore & Hprom & Htasks & Hlog).
      frame_inv Hcore Hprom Htasks Hlog.
    + destruct (poll (initPromises w) w0) eqn:Hpoll; [done| |].
      * by eapply executeInitQueries_setup_inv.
      * destruct Hinv as (Hcore & Hprom & Htasks & Hlog).
        frame_inv Hcore Hprom Htasks Hlog.
    + destruct (poll (setupPromises w) w0) eqn:Hpoll; [done| |].
      * by eapply query_submit_setup_inv.
      * destruct Hinv as (Hcore & Hprom & Htasks & Hlog).
        frame_inv Hcore Hprom Htasks Hlog.
    + destruct Hinv as (Hcore & Hprom & Htasks & Hlog).
      destruct (poll (initPromises w) w0) eqn:Hpoll; [done| |];
        unfold registerFile_body; repeat case_match;
        frame_inv Hcore Hprom Htasks Hlog.
  - (* a task goes on after an answer from outside *)
    destruct (tasks w !! t) as [tk|] eqn:Ht; [|by unfold resume; rewrite Ht].
    destruct tk;
      try (by eapply initQueries_resume_setup_inv);
      try (by destruct Hinv as (_ & _ & Htasks & _);
           destruct (Forall_lookup_1 _ _ _ _ Htasks Ht));
      destruct Hinv as (Hcore & Hprom & Htasks & Hlog);
      unfold resume; rewrite Ht; unfold doInitialize_catch;
      repeat case_match; simplify_eq; try done;
      frame_inv Hcore Hprom Htasks Hlog.
  - (* time passes *)
    destruct Hinv as (Hcore & Hprom & Htasks & Hlog).
    frame_inv Hcore Hprom Htasks Hlog.
Qed.

Lemma configured_setup_inv (qs : list string) (g : option nat) :
  setup_inv qs (configured qs g).
Proof.
  unfold configured, setup_inv. cbn.
  split; [|split; [done|split; [by repeat constructor|apply each_preceded_nil]]].
  split; [done|]. done.
Qed.

Lemma run_setup_inv (qs : list string) (sched : list Action) (w : World) :
  Forall keeps_setup sched → setup_inv qs w → setup_inv qs (run sched w).
Proof.
  intros Hs. revert w. induction Hs as [|a sched Ha _ IH]; intros w Hinv; [done|].
  rewrite run_cons. apply IH. by apply step_setup_inv.
Qed.

(** What does hold of the setup statements. Configure the statements
    [qs] on a new page and let anything happen that stays within one
    connection lifetime: any number of calls of [query] and of the other
    methods except [close] and [configureInitQueries], resumed and answered
    in any order, with any answers. Then at every moment:
    - at most one setup run is in flight;
    - as long as no setup statement was answered with an error, what the
      connection has seen of the setup is the beginning of one pass over
      [qs]: statement 0 submitted, statement 0 answered, statement 1
      submitted, and so on in the configured order, none submitted before
      the one before it was answered, none twice;
    - every statement of a caller of [query] was submitted after a complete
      pass over [qs] in which every statement was answered well; with no
      failed setup statement that pass is all the connection ever sees of
      the setup.
    And on a manager with an open connection and the setup not started, one
    [query] whose setup statements all succeed makes the connection receive
    [qs], in order, then the caller's statement. *)
Theorem setup_runs_once_in_order_before_user_statements
    (qs : list string) (sched : list Action) (g : option nat) :
  Forall keeps_setup sched →
  let w := run sched (configured qs g) in
  (length (iq_state (tasks w)) ≤ 1)%nat
  ∧ (no_failure (setup_trace (log w)) → setup_trace (log w) `prefix_of` expected qs)
  ∧ (∀ l1 l2 c t sql,
       log w = l1 ++ EQuery c (User t) sql :: l2 →
       expected qs `suffix_of` setup_trace l1
       ∧ (no_failure (setup_trace (log w)) →
          setup_trace l1 = expected qs ∧ setup_trace (log w) = expected qs))
  ∧ (∀ (w0 : World) (sql : string) (h c : nat),
       db (mgr w0) = Some h → connection (mgr w0) = Some c →
       initQueriesExecuted (mgr w0) = false → initQueriesPromise (mgr w0) = None →
       initQueries (mgr w0) = qs → qs ≠ [] →
       received (log (run (query_with_setup (length (tasks w0)) sql (length qs)) w0))
       = received (log w0) ++ qs ++ [sql]).
Proof.
  intros Hs w.
  pose proof (run_setup_inv qs sched _ Hs (configured_setup_inv qs g)) as Hinv.
  fold w in Hinv. clearbody w.
  destruct Hinv as ([Hq Hshape] & _ & _ & Hlog).
  assert (Hprefix : no_failure (setup_trace (log w)) →
                    setup_trace (log w) `prefix_of` expected qs).
  { intros Hnf. destruct (iq_state (tasks w)) as [|[p i] [|]]; [| |done].
    - destruct (initQueriesExecuted (mgr w)).
      + destruct Hshape as [_ ->]; done.
      + rewrite Hshape by done. apply prefix_nil.
    - destruct Hshape as (_ & _ & _ & F & q & HT & Hqi & HF).
      rewrite HT in Hnf |- *. apply no_failure_app in Hnf as [Hnf _].
      rewrite (HF Hnf). cbn [app].
      etransitivity; [|apply (expected_take_prefix qs (S i))].
      rewrite (expected_take_S _ _ _ Hqi). apply prefix_app, prefix_cons, prefix_nil. }
  split. { by destruct (iq_state (tasks w)) as [|[p i] [|]]; simpl; try lia. }
  split; [done|]. split.
  - intros l1 l2 c t sql Hl.
    pose proof (Hlog _ _ _ Hl c t sql eq_refl) as Hsuf. split; [done|].
    intros Hnf. specialize (Hprefix Hnf).
    rewrite Hl, setup_trace_app in Hprefix |- *.
    destruct Hsuf as [k Hk]. rewrite Hk in Hprefix |- *.
    pose proof (prefix_length _ _ Hprefix) as Hlen.
    rewrite !length_app in Hlen.
    assert (k = []) as -> by (apply length_zero_iff_nil; lia).
    assert (setup_trace (EQuery c (User t) sql :: l2) = []) as ->
      by (apply length_zero_iff_nil; lia).
    by rewrite app_nil_r.
  - intros w0 sql h c Hdb Hc Hex Hp Hq0 Hne.
    by destruct (successful_attempt w0 qs sql h c Hdb Hc Hex Hp Hq0 Hne)
      as (_ & _ & _ & ->).
Qed.

Lemma setup_runs_once_in_order_before_user_statements_witness :
  let w := run example_query_with_setup (configured ["SET x=1"] None) in
  Forall keeps_setup example_query_with_setup
  ∧ setup_trace (log w) = [Sub 0 "SET x=1"; Fin 0 true]
  ∧ received (log w) = ["SET x=1"; "SELECT 1"]
  ∧ (length (iq_state (tasks w)) ≤ 1)%nat.
Proof.
  intros w.
  assert (Hs : Forall keeps_setup example_query_with_setup)
    by (unfold example_query_with_setup, init_ok; repeat constructor).
  split; [exact Hs|]. split; [reflexivity|]. split; [reflexivity|].
  apply (setup_runs_once_in_order_before_user_statements
           ["SET x=1"] example_query_with_setup None Hs).
Defined.

(** ** [configureInitQueries] *)

(** C7, what does not hold: while the setup loop is awaiting its first
    statement, [configureInitQueries] logs nothing and replaces the list,
    and the loop in flight takes its next statement from the new list. *)
Lemma configureInitQueries_while_running_replaces :
  let w0 := run example_setup_running (boot None) in
  let w1 := step (ACall (CConfigureInitQueries ["X"; "Y"])) w0 in
  initQueriesExecuted (mgr w0) = false
  ∧ initQueriesPromise (mgr w0) = Some 0
  ∧ setupPromises w0 !! 0 = Some Pending
  ∧ tasks w0 !! 3 = Some (IQ_Query 0 0)
  ∧ initQueries (mgr w0) = ["A"; "B"]
  ∧ initQueries (mgr w1) = ["X"; "Y"]
  ∧ log w1 = log w0
  ∧ log (step (AResume 3 okU) w1)
    = log w0 ++ [EQueryDone (Setup 0) true; EQuery 1 (Setup 1) "Y"].
Proof. vm_compute. repeat split; reflexivity. Qed.

(** C7, as amended. Once the setup statements have completed, a call of
    [configureInitQueries] changes no field of the manager and logs the
    warning; while no setup run has been started, it stores the list and
    logs nothing. *)
Theorem configureInitQueries_guard (w : World) (queries : list string) :
  let w' := step (ACall (CConfigureInitQueries queries)) w in
  (initQueriesExecuted (mgr w) = true →
     mgr w' = mgr w
     ∧ log w' = log w ++ [EWarn "Init queries already executed, configuration will not take effect"])
  ∧ (initQueriesExecuted (mgr w) = false → initQueriesPromise (mgr w) = None →
     initQueries (mgr w') = queries
     ∧ initQueriesExecuted (mgr w') = false
     ∧ log w' = log w).
Proof.
  simpl. unfold configureInitQueries.
  split; intros H; rewrite H; simpl; auto.
Qed.

Lemma configureInitQueries_guard_witness :
  (let w := run example_ready (boot None) in
   let w' := step (ACall (CConfigureInitQueries ["X"])) w in
   mgr w' = mgr w
   ∧ log w' = log w ++ [EWarn "Init queries already executed, configuration will not take effect"])
  ∧ (let w := boot None in
     let w' := step (ACall (CConfigureInitQueries ["X"])) w in
     initQueries (mgr w') = ["X"]
     ∧ initQueriesExecuted (mgr w') = false
     ∧ log w' = log w).
Proof.
  split.
  - apply (configureInitQueries_guard (run example_ready (boot None)) ["X"]).
    reflexivity.
  - apply (configureInitQueries_guard (boot None) ["X"]); reflexivity.
Defined.

(** ** [registerFile] *)

(** [registerFile] called on a manager that has an engine instance, up to
    the point where it either returns or has asked the engine. *)
Lemma registerFile_with_db (w : World) (name url : string) (h : nat) :
  db (mgr w) = Some h →
  run [ACall (CRegisterFile name url); AWake (length (tasks w))] w
  = if decide (url ∈ registeredFiles (mgr w))
    then spawn (Done (Returned RVoid)) w
    else spawn (R_Register name url) (emit (ERegister h name url) w).
Proof.
  intros Hdb. rewrite !run_cons, run_nil. cbn [step call].
  unfold initialize. rewrite Hdb. unfold wake. wsimpl. snoc_tasks.
  cbn [poll]. unfold registerFile_body. wsimpl. rewrite Hdb.
  destruct (decide (url ∈ registeredFiles (mgr w))).
  - apply world_eq; wsimpl; snoc_tasks; reflexivity.
  - apply world_eq; wsimpl; snoc_tasks; reflexivity.
Qed.

(** C8, what does not hold: two calls of [registerFile] for one URL, the
    second made before the first has been answered, both reach the engine,
    with no teardown in between. *)
Lemma registerFile_overlapping_calls_register_twice :
  let w := run example_register_twice (boot None) in
  registrations (log w) = ["https://h/x"; "https://h/x"]
  ∧ log w = [EImportPackage; ESelectBundle 7;
             EFetch "https://cdn.example.com/worker.js"; EBlob; ENewDb 0;
             EInstantiate 0 "duckdb.wasm" "https://cdn.example.com/worker.js";
             EConnect 0; ERevoke;
             ERegister 0 "x" "https://h/x"; ERegister 0 "x" "https://h/x"]
  ∧ tasks w !! 1 = Some (Done (Returned RVoid))
  ∧ tasks w !! 2 = Some (Done (Returned RVoid)).
Proof.
  intros w. repeat match goal with |- _ ∧ _ => split end; vm_compute; reflexivity.
Qed.

(** C8, as amended. On a manager with an engine instance: [registerFile]
    for a URL of the registered set returns without asking the engine and
    changes nothing. For a URL outside the set it asks the engine once; if
    the engine accepts, the URL is in the set and the call returns, and a
    call made after that for the same URL returns without asking the engine
    again, so the two calls made one registration; if the engine refuses
    with [e], the set is unchanged, the call throws an error that names the
    file and carries the text of [e], and a call made after that asks the
    engine again. *)
Theorem registerFile_once_per_url_in_sequence
    (w : World) (name url : string) (h : nat) :
  db (mgr w) = Some h →
  let t := length (tasks w) in
  let register t := [ACall (CRegisterFile name url); AWake t] in
  (url ∈ registeredFiles (mgr w) →
     let w1 := run (register t) w in
     tasks w1 !! t = Some (Done (Returned RVoid))
     ∧ log w1 = log w ∧ mgr w1 = mgr w)
  ∧ (url ∉ registeredFiles (mgr w) →
     let w1 := run (register t) w in
     log w1 = log w ++ [ERegister h name url]
     ∧ tasks w1 !! t = Some (R_Register name url)
     ∧ (let w2 := step (AResume t okU) w1 in
        tasks w2 !! t = Some (Done (Returned RVoid))
        ∧ url ∈ registeredFiles (mgr w2)
        ∧ let w3 := run (register (S t)) w2 in
          tasks w3 !! S t = Some (Done (Returned RVoid))
          ∧ log w3 = log w ++ [ERegister h name url])
     ∧ (∀ e : Thrown,
        let w2 := step (AResume t (Raise e)) w1 in
        tasks w2 !! t
          = Some (Done (Threw (ErrObj ("Failed to register file " +:+ name +:+ ": "
                                       +:+ errText e))))
        ∧ registeredFiles (mgr w2) = registeredFiles (mgr w)
        ∧ let w3 := run (register (S t)) w2 in
          tasks w3 !! S t = Some (R_Register name url)
          ∧ log w3 = log w ++ [ERegister h name url; ERegister h name url])).
Proof.
  intros Hdb t register. subst t register. cbv beta. split.
  - intros Hin w1. unfold w1.
    rewrite (registerFile_with_db w name url h Hdb).
    rewrite decide_True by done. wsimpl. by rewrite lookup_snoc.
  - intros Hout w1.
    assert (Hw1 : w1 = spawn (R_Register name url) (emit (ERegister h name url) w)).
    { unfold w1. rewrite (registerFile_with_db w name url h Hdb).
      by rewrite decide_False. }
    clearbody w1. subst w1. wsimpl.
    split; [done|]. split; [first [apply lookup_snoc|done]|]. split.
    + cbn [step]. unfold resume, okU. wsimpl. snoc_tasks.
      wsimpl. snoc_tasks. split; [first [apply lookup_snoc|done]|].
      split; [set_solver|].
      match goal with |- context [run _ ?x] => set (w2 := x) end.
      assert (Hlen : S (length (tasks w)) = length (tasks w2)).
      { unfold w2. wsimpl. snoc_tasks. rewrite length_app. simpl. lia. }
      rewrite Hlen.
      rewrite (registerFile_with_db w2 name url h) by (unfold w2; by wsimpl).
      rewrite decide_True by (unfold w2; wsimpl; set_solver).
      wsimpl. split; [first [apply lookup_snoc|done]|]. unfold w2. by wsimpl.
    + intros e. cbn [step]. unfold resume. wsimpl. snoc_tasks.
      wsimpl. snoc_tasks. split; [first [apply lookup_snoc|done]|]. split; [done|].
      match goal with |- context [run _ ?x] => set (w2 := x) end.
      assert (Hlen : S (length (tasks w)) = length (tasks w2)).
      { unfold w2. wsimpl. snoc_tasks. rewrite length_app. simpl. lia. }
      rewrite Hlen.
      rewrite (registerFile_with_db w2 name url h) by (unfold w2; by wsimpl).
      rewrite decide_False by (unfold w2; by wsimpl).
      wsimpl. split; [first [apply lookup_snoc|done]|]. unfold w2. wsimpl.
      by rewrite <- app_assoc.
Qed.

Lemma registerFile_once_per_url_in_sequence_witness :
  let w := run example_initialized (boot None) in
  let register t := [ACall (CRegisterFile "x" "https://h/x"); AWake t] in
  let w1 := run (register 2) w in
  let w2 := step (AResume 2 okU) w1 in
  let w3 := run (register 3) w2 in
  db (mgr w) = Some 0
  ∧ ("https://h/x" ∉ registeredFiles (mgr w))
  ∧ tasks w3 !! 3 = Some (Done (Returned RVoid))
  ∧ log w3 = log w ++ [ERegister 0 "x" "https://h/x"].
Proof.
  intros w register w1 w2 w3.
  assert (Hdb : db (mgr w) = Some 0) by reflexivity.
  assert (Hout : "https://h/x" ∉ registeredFiles (mgr w)).
  { replace (registeredFiles (mgr w)) with (∅ : gset string) by reflexivity.
    apply not_elem_of_empty. }
  destruct (registerFile_once_per_url_in_sequence w "x" "https://h/x" 0 Hdb)
    as [_ H].
  destruct (H Hout) as (_ & _ & (_ & _ & H3 & H4) & _).
  split; [exact Hdb|]. split; [exact Hout|]. split; [exact H3 | exact H4].
Defined.

(** ** [registerFile] and the state of the manager *)

Section RegisterAfterConstruction.

Lemma db_constructed_other d l e :
  db_constructed d l → (∀ h name url, e ≠ ERegister h name url) →
  db_constructed d (l ++ [e]).
Proof.
  intros [Hd Hl] He. split.
  - intros h Hh. apply elem_of_app. left. by apply Hd.
  - apply each_preceded_snoc; [done|]. intros h n u ->. by destruct (He h n u).
Qed.

Lemma db_constructed_register h l name url :
  db_constructed (Some h) l → db_constructed (Some h) (l ++ [ERegister h name url]).
Proof.
  intros [Hd Hl]. split.
  - intros h' Hh. apply elem_of_app. left. by apply Hd.
  - apply each_preceded_snoc; [done|]. intros h' n u [= <- _ _]. by apply Hd.
Qed.

Lemma db_constructed_new d l h :
  db_constructed d l → db_constructed (Some h) (l ++ [ENewDb h]).
Proof.
  intros [Hd Hl]. split.
  - intros h' [= <-]. apply elem_of_app. right. by apply list_elem_of_singleton.
  - apply each_preceded_snoc; [done|]. by intros h' n u.
Qed.

Lemma db_constructed_none d l : db_constructed d l → db_constructed None l.
Proof. intros [Hd Hl]. split; [done|done]. Qed.

Lemma step_db_constructed (a : Action) (w : World) :
  db_constructed (db (mgr w)) (log w) →
  db_constructed (db (mgr (step a w))) (log (step a w)).
Proof.
  intros H. step_cases a;
    repeat match goal with
           | Hd : db (mgr _) = _ |- _ => rewrite Hd
           end;
    repeat first
      [ assumption
      | eapply db_constructed_none; eassumption
      | eapply db_constructed_new; eassumption
      | apply db_constructed_register
      | apply db_constructed_other; [|done] ].
Qed.

Lemma run_db_constructed (sched : list Action) (w : World) :
  db_constructed (db (mgr w)) (log w) →
  db_constructed (db (mgr (run sched w))) (log (run sched w)).
Proof.
  revert w. induction sched as [|a sched IH]; intros w H; [done|].
  rewrite run_cons. apply IH. by apply step_db_constructed.
Qed.

End RegisterAfterConstruction.


(** ** An acquisition, step by step *)

(** A task that came after the tasks [l]. *)
Lemma lookup_after (l l' : list Task) (k : nat) :
  (l ++ l') !! (length l + k) = l' !! k.
Proof. rewrite lookup_app_r by lia. f_equal. lia. Qed.

Lemma insert_after (l l' : list Task) (k : nat) (x : Task) :
  <[length l + k := x]> (l ++ l') = l ++ <[k := x]> l'.
Proof. rewrite insert_app_r_alt by lia. do 2 f_equal. lia. Qed.

(** The package import answers with the module [m]. *)
Lemma import_answer (W : World) (t p m : nat) :
  tasks W !! t = Some (DI_Import p) →
  step (AResume t (Ok (PModule m))) W
  = set_task t (DI_Module p m) (upd_mgr (set_duckdbModule (Some m)) W).
Proof. intros H. cbn [step]. unfold resume. by rewrite H. Qed.

(** The calls that start an acquisition on a manager without engine
    instance, and the answer of the package import when one is needed. *)
Lemma acquisition_start (W : World) (qs : list string) (sql : string) (m : nat) :
  db (mgr W) = None → initPromise (mgr W) = None →
  initQueriesExecuted (mgr W) = false →
  let t := length (tasks W) in
  let p := length (initPromises W) in
  let m' := default m (module_at_hand W) in
  let W' := run ([ACall (CConfigureInitQueries qs); ACall (CQuery sql)]
                 ++ match module_at_hand W with
                    | Some _ => []
                    | None => [AResume (S t) (Ok (PModule m))]
                    end) W in
  mgr W' = set_initPromise (Some p) (set_duckdbModule (Some m') (set_initQueries qs (mgr W)))
  ∧ initPromises W' = initPromises W ++ [Pending]
  ∧ setupPromises W' = setupPromises W
  ∧ tasks W' = tasks W ++ [Done (Returned RVoid); DI_Module p m';
                           Q_Initialize sql (WPromise p)]
  ∧ log W' = log W ++ match module_at_hand W with
                      | Some _ => []
                      | None => [EImportPackage]
                      end
  ∧ clock W' = clock W
  ∧ nextHandle W' = nextHandle W.
Proof.
  intros Hdb Hip Hex t p m' W'. subst W' m'. unfold module_at_hand.
  rewrite run_app, !run_cons, run_nil. cbn [step call].
  unfold configureInitQueries. rewrite Hex. unfold initialize. wsimpl.
  rewrite Hdb, Hip. unfold loadDuckDBModule. wsimpl.
  destruct (duckdbModule (mgr W)) as [m0|] eqn:Hmod; [|destruct (global W) as [m0|] eqn:Hg].
  all: wsimpl; rewrite ?run_cons, ?run_nil; cbn [default]; wsimpl.
  3: { rewrite import_answer with (p := p); wsimpl; rewrite <- !app_assoc; cbn [app].
       2: { replace (S t) with (length (tasks W) + 1) by (unfold t; lia).
            by rewrite lookup_after. }
       replace (S t) with (length (tasks W) + 1) by (unfold t; lia).
       rewrite insert_after. cbn. repeat split; try done. }
  all: rewrite <- !app_assoc, ?app_nil_r; cbn [app]; repeat split; try done.
  all: by apply manager_eq.
Qed.

(** The task that was just set is looked up again. *)
Ltac answered Hlt :=
  wsimpl; rewrite list_lookup_insert_eq by (rewrite ?length_insert; exact Hlt);
  wsimpl; rewrite ?list_insert_insert_eq.

(** An initialisation that holds the client module goes through: a new
    engine instance is constructed, a new connection is opened and the
    promise is fulfilled. *)
Lemma init_from_module_world (W : World) (t p m : nat) (b : Bundle) :
  tasks W !! t = Some (DI_Module p m) →
  run (init_from_module t b) W
  = {| mgr := set_connection (Some (S (nextHandle W)))
                (set_db (Some (nextHandle W)) (mgr W));
       global := global W;
       initPromises := <[p := Fulfilled]> (initPromises W);
       setupPromises := setupPromises W;
       tasks := <[t := Done (Returned RVoid)]> (tasks W);
       log := log W
              ++ [ESelectBundle m; EFetch (mainWorker b); EBlob;
                  ENewDb (nextHandle W);
                  EInstantiate (nextHandle W) (mainModule b) (mainWorker b);
                  EConnect (nextHandle W); ERevoke];
       clock := clock W;
       nextHandle := S (S (nextHandle W)) |}.
Proof.
  intros Ht. pose proof (lookup_lt_Some _ _ _ Ht) as Hlt.
  unfold init_from_module, okU. rewrite !run_cons, run_nil.
  cbn [step]. unfold wake at 1. rewrite Ht.
  wsimpl.
  unfold resume at 5; answered Hlt. unfold resume at 4; answered Hlt.
  unfold resume at 3; answered Hlt. unfold resume at 2; answered Hlt.
  unfold resume at 1; answered Hlt.
  apply world_eq; wsimpl; rewrite <- ?app_assoc, ?list_insert_insert_eq; reflexivity.
Qed.

(** The setup run, from its first answer to its last: every statement
    succeeds. *)
Lemma setup_pass_run (rest : list string) (W : World) (t p c i : nat) (q : string)
    (L : list Event) :
  tasks W !! t = Some (IQ_Query p i) → connection (mgr W) = Some c →
  drop i (initQueries (mgr W)) = q :: rest →
  log W = L ++ [EQuery c (Setup i) q] →
  let W' := run (repeat (AResume t okU) (S (length rest))) W in
  mgr W' = set_initQueriesExecuted true (mgr W)
  ∧ tasks W' = <[t := Done (Returned RVoid)]> (tasks W)
  ∧ setupPromises W' = <[p := Fulfilled]> (setupPromises W)
  ∧ log W' = L ++ setup_pass c i (q :: rest)
  ∧ clock W' = clock W.
Proof.
  revert W i q L. induction rest as [|q' rest IH]; intros W i q L Ht Hc Hd Hl.
  - assert (Hn : initQueries (mgr W) !! S i = None).
    { apply lookup_ge_None. apply (f_equal length) in Hd.
      rewrite length_drop in Hd. cbn in Hd. lia. }
    cbn [length repeat]. rewrite run_cons, run_nil.
    destruct (setup_last_ok t p W i Ht Hn) as (Hm & Htk & Hsp & Hlog & Hck).
    cbn zeta. rewrite Hm, Htk, Hsp, Hlog, Hck, Hl, <- app_assoc. done.
  - assert (Hq : initQueries (mgr W) !! S i = Some q').
    { pose proof (lookup_drop (initQueries (mgr W)) i 1) as H.
      rewrite Hd in H. cbn in H. by replace (i + 1) with (S i) in H by lia. }
    assert (Hd' : drop (S i) (initQueries (mgr W)) = q' :: rest).
    { replace (S i) with (i + 1) by lia. rewrite <- drop_drop, Hd. done. }
    change (repeat (AResume t okU) (S (length (q' :: rest))))
      with (AResume t okU :: repeat (AResume t okU) (S (length rest))).
    rewrite run_cons.
    destruct (setup_ok_step t p c W i q' Ht Hc Hq) as (Hm & Htk & Hsp & Hlog & Hck).
    destruct (IH (step (AResume t okU) W) (S i) q'
                 (L ++ [EQuery c (Setup i) q; EQueryDone (Setup i) true]))
      as (Hm' & Htk' & Hsp' & Hlog' & Hck').
    { rewrite Htk. apply list_lookup_insert_eq. by eapply lookup_lt_Some. }
    { by rewrite Hm. }
    { by rewrite Hm. }
    { rewrite Hlog, Hl, <- !app_assoc. done. }
    cbn zeta. rewrite Hm', Htk', Hsp', Hlog', Hck', Hm, Htk, Hsp, Hck.
    rewrite list_insert_insert_eq, <- app_assoc. done.
Qed.

(** The caller of [query] is resumed after the initialisation promise was
    fulfilled. *)
Lemma wake_after_init_fulfilled (W : World) (t p : nat) (sql : string) :
  tasks W !! t = Some (Q_Initialize sql (WPromise p)) →
  initPromises W !! p = Some Fulfilled →
  step (AWake t) W
  = let '(w1, wt) := executeInitQueries W in set_task t (Q_InitQueries sql wt) w1.
Proof. intros Ht Hp. cbn [step]. unfold wake. rewrite Ht. cbn [poll]. by rewrite Hp. Qed.

(** The caller of [query] is resumed when it had no setup run to wait
    for. *)
Lemma wake_without_setup (W : World) (t : nat) (sql : string) :
  tasks W !! t = Some (Q_InitQueries sql WNow) →
  step (AWake t) W = query_submit t sql W.
Proof. intros Ht. cbn [step]. unfold wake. by rewrite Ht. Qed.

(** The whole acquisition from the client module on: the initialisation
    goes through, the caller of [query] starts the setup run, the run
    succeeds, and the caller submits its statement. *)
Lemma acquisition_from_module (W : World) (td tq p m : nat) (b : Bundle)
    (qs : list string) (sql : string) :
  tasks W !! td = Some (DI_Module p m) →
  tasks W !! tq = Some (Q_Initialize sql (WPromise p)) →
  p < length (initPromises W) →
  initQueries (mgr W) = qs → initQueriesExecuted (mgr W) = false →
  initQueriesPromise (mgr W) = None →
  let h := nextHandle W in
  let c := S (nextHandle W) in
  let W' := run (init_from_module td b ++ [AWake tq]
                 ++ repeat (AResume (length (tasks W)) okU) (length qs)
                 ++ [AWake tq]) W in
  log W' = log W
           ++ [ESelectBundle m; EFetch (mainWorker b); EBlob; ENewDb h;
               EInstantiate h (mainModule b) (mainWorker b); EConnect h; ERevoke]
           ++ setup_pass c 0 qs ++ [EQuery c (User tq) sql]
  ∧ db (mgr W') = Some h
  ∧ connection (mgr W') = Some c
  ∧ initQueriesExecuted (mgr W') = true
  ∧ registeredFiles (mgr W') = registeredFiles (mgr W)
  ∧ initQueries (mgr W') = qs
  ∧ tasks W' !! tq = Some (Q_Query sql (clock W)).
Proof.
  intros Htd Htq Hp Hqs Hex Hpr h c W'. subst W'.
  assert (Hne : td ≠ tq) by (intros ->; congruence).
  pose proof (lookup_lt_Some _ _ _ Htd) as Hltd.
  pose proof (lookup_lt_Some _ _ _ Htq) as Hltq.
  rewrite run_app, (init_from_module_world W td p m b Htd).
  rewrite (run_app [AWake tq]), run_cons, run_nil.
  rewrite (wake_after_init_fulfilled _ tq p sql).
  2: { wsimpl. by rewrite list_lookup_insert_ne. }
  2: { wsimpl. by apply list_lookup_insert_eq. }
  unfold executeInitQueries. wsimpl. rewrite Hex, Hpr, Hqs.
  destruct qs as [|q0 rest].
  - wsimpl. cbn [length repeat app]. rewrite run_cons, run_nil.
    rewrite (wake_without_setup _ tq sql).
    2: { wsimpl. apply list_lookup_insert_eq. by rewrite length_insert. }
    unfold query_submit. wsimpl. rewrite list_lookup_insert_eq.
    2: { by rewrite !length_insert. }
    cbn [setup_pass app]. rewrite <- !app_assoc. done.
  - unfold initQueries_loop. wsimpl. rewrite Hqs. cbn [lookup list_lookup]. wsimpl.
    set (p' := length (setupPromises W)).
    set (WB := set_task tq _ _).
    rewrite run_app.
    replace (length (tasks W)) with (length (<[td := Done (Returned RVoid)]> (tasks W)))
      by apply length_insert.
    destruct (setup_pass_run rest WB (length (<[td := Done (Returned RVoid)]> (tasks W)))
                p' c 0 q0
                (log W ++ [ESelectBundle m; EFetch (mainWorker b); EBlob; ENewDb h;
                           EInstantiate h (mainModule b) (mainWorker b); EConnect h;
                           ERevoke]))
      as (Hm & Htk & Hsp & Hlog & Hck).
    { unfold WB. wsimpl. rewrite list_lookup_insert_ne.
      2: { rewrite length_insert. lia. }
      apply lookup_snoc. }
    { done. }
    { unfold WB. wsimpl. by rewrite Hqs. }
    { done. }
    set (WC := run (repeat _ _) WB) in *.
    rewrite run_cons, run_nil.
    destruct (wake_after_setup_fulfilled WC tq p' c sql) as (Hm' & Htk' & _ & Hlog' & _).
    { rewrite Htk. unfold WB. wsimpl. rewrite list_lookup_insert_ne.
      2: { rewrite !length_insert. lia. }
      apply list_lookup_insert_eq. rewrite length_app, length_insert. lia. }
    { rewrite Hsp. unfold WB. wsimpl. apply list_lookup_insert_eq.
      rewrite length_app. cbn. unfold p'. lia. }
    { rewrite Hm. done. }
    rewrite Hlog', Hm', Htk', Htk, Hlog, Hm, Hck. unfold WB. wsimpl.
    rewrite <- !app_assoc. repeat split; try done.
    apply list_lookup_insert_eq.
    rewrite ?length_insert, ?length_app, ?length_insert. cbn. lia.
Qed.

(** ** [close] *)

(** The world after a completed [close]. *)
Lemma close_ok_world (w : World) :
  run (close_ok (length (tasks w))) w
  = {| mgr := set_duckdbModule (duckdbModule (mgr w))
                (set_config (config (mgr w)) new_manager);
       global := global w;
       initPromises := initPromises w;
       setupPromises := setupPromises w;
       tasks := tasks w ++ [Done (Returned RVoid)];
       log := log w
              ++ match connection (mgr w) with Some c => [ECloseConn c] | None => [] end
              ++ match db (mgr w) with Some h => [ETerminate h] | None => [] end;
       clock := clock w;
       nextHandle := nextHandle w |}.
Proof.
  unfold close_ok, run, okU. cbn [fold_left step call]. unfold close, close_db.
  destruct (connection (mgr w)) as [c|] eqn:Hc;
    destruct (db (mgr w)) as [h|] eqn:Hd.
  all: unfold resume at 2; wsimpl; snoc_tasks; wsimpl.
  all: unfold close_db; wsimpl; rewrite ?Hd; wsimpl; snoc_tasks.
  all: unfold resume; wsimpl; snoc_tasks; wsimpl; snoc_tasks.
  all: apply world_eq; wsimpl; snoc_tasks; rewrite <- ?app_assoc, ?app_nil_r;
    try reflexivity.
  all: apply manager_eq; wsimpl; rewrite ?Hc, ?Hd; reflexivity.
Qed.

(** C5, what does not hold: after a module was loaded by the package
    import and the manager was closed, the manager differs from a new one
    in its memoised module, and the next [query] starts from that module
    without any import, where a new manager imports the package. *)
Lemma close_keeps_memoised_module :
  let w1 := run (example_initialized ++ close_ok 2) (boot None) in
  tasks w1 !! 2 = Some (Done (Returned RVoid))
  ∧ duckdbModule (mgr w1) = Some 7
  ∧ mgr w1 ≠ new_manager
  ∧ global w1 = None
  ∧ log (step (ACall (CQuery "SELECT 2")) w1) = log w1
  ∧ log (step (ACall (CQuery "SELECT 2")) (boot None)) = [EImportPackage].
Proof.
  intros w1. repeat match goal with |- _ ∧ _ => split end.
  all: try (vm_compute; reflexivity).
  intros H. apply (f_equal duckdbModule) in H. vm_compute in H. discriminate H.
Qed.

(** C5, as amended. When [close] has completed, [isInitialized()] is
    false, the engine instance, the connection and both memoised promises
    are null, the registered set and the setup statements are empty and the
    setup flag is unset, as in a new manager; the configuration and the
    memoised module are those from before. A second [close] completes at
    once, calls nothing and changes nothing. The next [query] starts a new
    initialisation with a new pending promise, from the memoised or the
    global module when there is one and from the package import otherwise.
    That acquisition is complete but for the module: with setup statements
    configured after the teardown, the bundle is selected, the worker is
    fetched, a new engine instance is constructed and instantiated, a new
    connection is opened, the setup statements run on it in order, and the
    caller's statement is submitted on it. *)
Theorem close_resets_all_but_module_and_config (w : World) (sql : string) :
  let t := length (tasks w) in
  let w1 := run (close_ok t) w in
  tasks w1 !! t = Some (Done (Returned RVoid))
  ∧ isInitialized w1 = false
  ∧ mgr w1 = set_duckdbModule (duckdbModule (mgr w)) (set_config (config (mgr w)) new_manager)
  ∧ (let w2 := step (ACall CClose) w1 in
     tasks w2 !! S t = Some (Done (Returned RVoid))
     ∧ mgr w2 = mgr w1 ∧ log w2 = log w1)
  ∧ (let w3 := step (ACall (CQuery sql)) w1 in
     let p := length (initPromises w) in
     initPromise (mgr w3) = Some p
     ∧ initPromises w3 = initPromises w ++ [Pending]
     ∧ tasks w3 !! (t + 2) = Some (Q_Initialize sql (WPromise p))
     ∧ match duckdbModule (mgr w) with
       | Some m => tasks w3 !! S t = Some (DI_Module p m) ∧ log w3 = log w1
       | None =>
         match global w with
         | Some m => tasks w3 !! S t = Some (DI_Module p m) ∧ log w3 = log w1
         | None => tasks w3 !! S t = Some (DI_Import p) ∧ log w3 = log w1 ++ [EImportPackage]
         end
       end)
  ∧ (∀ (qs : list string) (m : nat) (b : Bundle),
       let w4 := run (reacquisition w t qs sql m b) w1 in
       let h := nextHandle w in
       let c := S (nextHandle w) in
       log w4 = log w1
                ++ match module_at_hand w with
                   | Some _ => []
                   | None => [EImportPackage]
                   end
                ++ [ESelectBundle (default m (module_at_hand w));
                    EFetch (mainWorker b); EBlob; ENewDb h;
                    EInstantiate h (mainModule b) (mainWorker b); EConnect h; ERevoke]
                ++ setup_pass c 0 qs ++ [EQuery c (User (t + 3)) sql]
       ∧ isInitialized w4 = true
       ∧ db (mgr w4) = Some h
       ∧ connection (mgr w4) = Some c
       ∧ initQueries (mgr w4) = qs
       ∧ initQueriesExecuted (mgr w4) = true
       ∧ registeredFiles (mgr w4) = ∅
       ∧ tasks w4 !! (t + 3) = Some (Q_Query sql (clock w))).
Proof.
  intros t w1.
  assert (Ht : tasks w1 = tasks w ++ [Done (Returned RVoid)])
    by (unfold w1, t; by rewrite close_ok_world).
  assert (Hm : mgr w1 = set_duckdbModule (duckdbModule (mgr w))
                          (set_config (config (mgr w)) new_manager))
    by (unfold w1, t; by rewrite close_ok_world).
  assert (Hg : global w1 = global w) by (unfold w1, t; by rewrite close_ok_world).
  assert (Hp : initPromises w1 = initPromises w)
    by (unfold w1, t; by rewrite close_ok_world).
  assert (Hck : clock w1 = clock w) by (unfold w1, t; by rewrite close_ok_world).
  assert (Hnh : nextHandle w1 = nextHandle w)
    by (unfold w1, t; by rewrite close_ok_world).
  clearbody w1.
  assert (Hlen : length (tasks w1) = S t).
  { rewrite Ht, length_app. simpl. lia. }
  split. { rewrite Ht. apply lookup_snoc. }
  split. { unfold isInitialized. by rewrite Hm. }
  split; [done|]. split; [|split].
  - cbn [step call]. unfold close, close_db. rewrite Hm. wsimpl.
    rewrite <- Hlen. split; [apply lookup_snoc|]. split; [|done].
    rewrite Hm. by apply manager_eq.
  - cbn [step call]. unfold initialize. rewrite Hm. wsimpl.
    unfold loadDuckDBModule. wsimpl. rewrite Hm, Hg, Hp. wsimpl.
    replace (t + 2) with (S (length (tasks w1))) by lia.
    replace (S t) with (length (tasks w1)) by lia.
    destruct (duckdbModule (mgr w)) as [m|]; wsimpl;
      [|destruct (global w) as [m|]; wsimpl];
      rewrite <- ?app_assoc; cbn [app];
      rewrite ?lookup_snoc2, ?lookup_snoc2', ?Hp; done.
  - intros qs m b w4 h c. subst w4. unfold reacquisition.
    assert (Hmod : module_at_hand w = module_at_hand w1).
    { unfold module_at_hand. by rewrite Hm, Hg. }
    rewrite Hmod. replace (t + 2) with (S (length (tasks w1))) by lia.
    rewrite run_app.
    destruct (acquisition_start w1 qs sql m) as (Hm3 & Hp3 & _ & Ht3 & Hl3 & Hck3 & Hnh3);
      try (by rewrite Hm).
    set (W3 := run (_ ++ _) w1) in *.
    replace (t + 4) with (length (tasks W3)).
    2: { rewrite Ht3, length_app. cbn. lia. }
    replace (t + 3) with (length (tasks w1) + 2) by lia.
    destruct (acquisition_from_module W3 (S (length (tasks w1))) (length (tasks w1) + 2)
                (length (initPromises w1)) (default m (module_at_hand w1)) b qs sql)
      as (Hl4 & Hdb4 & Hc4 & Hex4 & Hreg4 & Hqs4 & Ht4).
    { rewrite Ht3. replace (S (length (tasks w1))) with (length (tasks w1) + 1) by lia.
      by rewrite lookup_after. }
    { rewrite Ht3. by rewrite lookup_after. }
    { rewrite Hp3, length_app. cbn. lia. }
    { by rewrite Hm3. }
    { rewrite Hm3, Hm. done. }
    { rewrite Hm3, Hm. done. }
    rewrite Hl4, Hdb4, Hc4, Hex4, Hreg4, Hqs4, Ht4, Hl3, Hm3, Hm, Hnh3, Hnh, Hck3, Hck.
    unfold isInitialized. rewrite Hdb4, Hnh3, Hnh. rewrite <- !app_assoc.
    repeat split; done.
Qed.

(** ** Every failure carries one of the manager's messages *)

Lemma prefix_append (p m : string) : String.prefix p (p +:+ m) = true.
Proof.
  induction p as [|a p IH]; [by destruct m|].
  change (String a p +:+ m) with (String a (p +:+ m)). cbn.
  by destruct (Ascii.ascii_dec a a).
Qed.

Lemma initError_wrapped (e : Thrown) : is_wrapped (initError e) = true.
Proof.
  unfold initError. repeat case_match; cbn [is_wrapped manager_prefixes existsb];
    first [reflexivity | by rewrite prefix_append].
Qed.

Lemma poll_rejected_wrapped (ps : list PState) (wt : Wait) (e : Thrown) :
  Forall promise_wrapped ps → poll ps wt = Rejected e → is_wrapped e = true.
Proof.
  intros Hps Hp. destruct wt as [|p]; [done|]. cbn in Hp.
  destruct (ps !! p) as [s|] eqn:Hl; [|done]. cbn in Hp. subst s.
  exact (Forall_lookup_1 _ _ _ _ Hps Hl).
Qed.

Ltac wrapped_goal :=
  repeat first
    [ assumption
    | exact I
    | apply Forall_app_2
    | apply Forall_insert
    | apply Forall_cons_2
    | apply Forall_nil_2
    | apply initError_wrapped
    | progress cbn [task_wrapped promise_wrapped is_wrapped manager_prefixes existsb]
    | rewrite prefix_append
    | reflexivity
    | by rewrite ?orb_true_r ].

Lemma step_errors_wrapped (a : Action) (w : World) :
  no_close a → errors_wrapped w → errors_wrapped (step a w).
Proof.
  intros Ha (Ht & Hi & Hs).
  assert (Hpi : ∀ wt e, poll (initPromises w) wt = Rejected e → is_wrapped e = true)
    by (intros wt e; by apply poll_rejected_wrapped).
  assert (Hps : ∀ wt e, poll (setupPromises w) wt = Rejected e → is_wrapped e = true)
    by (intros wt e; by apply poll_rejected_wrapped).
  destruct a as [c|t|t r|now].
  - destruct c; try done; cbn [step call]; unfold_step; repeat case_match; simplify_eq;
      unfold errors_wrapped; wsimpl; (split; [|split]); wrapped_goal.
  - cbn [step]. unfold wake.
    destruct (tasks w !! t) as [tk|] eqn:Htk; [|done].
    destruct tk; try done;
      repeat match goal with
             | |- context [poll ?ps ?wt] =>
               let E := fresh "E" in destruct (poll ps wt) eqn:E
             end; try done;
      unfold executeInitQueries, initQueries_loop, initQueries_catch, query_submit,
        registerFile_body;
      repeat case_match; simplify_eq;
      unfold errors_wrapped; wsimpl; (split; [|split]); wrapped_goal;
      try (by eapply Hpi); try (by eapply Hps).
  - cbn [step]. unfold resume.
    destruct (tasks w !! t) as [tk|] eqn:Htk; [|done].
    pose proof (Forall_lookup_1 _ _ _ _ Ht Htk) as Hk.
    destruct tk; try done; unfold_step; repeat case_match; simplify_eq;
      unfold errors_wrapped; wsimpl; (split; [|split]); wrapped_goal.
  - done.
Qed.

Lemma run_errors_wrapped (sched : list Action) (w : World) :
  Forall no_close sched → errors_wrapped w → errors_wrapped (run sched w).
Proof.
  intros Hs. revert w. induction Hs as [|a sched Ha _ IH]; intros w Hinv; [done|].
  rewrite run_cons. apply IH. by apply step_errors_wrapped.
Qed.

Lemma is_wrapped_spec (e : Thrown) :
  is_wrapped e = true →
  ∃ m p, e = ErrObj m ∧ p ∈ manager_prefixes ∧ String.prefix p m = true.
Proof.
  destruct e as [m|]; [|done]. cbn [is_wrapped]. intros H.
  apply existsb_exists in H as (p & Hp & H).
  exists m, p. split; [done|]. split; [|done]. by apply list_elem_of_In.
Qed.

(** Within one connection lifetime, whatever the callers and the engine
    do, and whatever the engine or the network throws (an [Error] or any
    other value): a call of [query] or [registerFile] that fails, fails with
    an [Error] object whose message begins with one of the manager's six
    texts. No value thrown by the engine reaches a caller as it is. *)
Theorem failures_carry_a_manager_message
    (sched : list Action) (g : option nat) (t : nat) (e : Thrown) :
  Forall no_close sched →
  tasks (run sched (boot g)) !! t = Some (Done (Threw e)) →
  ∃ m p, e = ErrObj m ∧ p ∈ manager_prefixes ∧ String.prefix p m = true.
Proof.
  intros Hs Ht. apply is_wrapped_spec.
  destruct (run_errors_wrapped sched (boot g) Hs) as (H & _).
  { by repeat split. }
  exact (Forall_lookup_1 _ _ _ _ H Ht).
Qed.

Lemma failures_carry_a_manager_message_witness :
  ∃ m p, ErrObj "Query execution failed: no such table" = ErrObj m
         ∧ p ∈ manager_prefixes ∧ String.prefix p m = true.
Proof.
  apply (failures_carry_a_manager_message
           (example_initialized
            ++ [AWake 1; AWake 1; AResume 1 (Raise (NonErr "no such table"))])
           None 1).
  - repeat constructor.
  - vm_compute. reflexivity.
Defined.

(** ** The registered set holds only URLs that were sent to an engine *)

Lemma registrations_snoc (l : list Event) (e : Event) (url : string) :
  url ∈ registrations l → url ∈ registrations (l ++ [e]).
Proof. unfold registrations. rewrite omap_app. set_solver. Qed.

Lemma registrations_snoc_register (l : list Event) (h : nat) (name url : string) :
  url ∈ registrations (l ++ [ERegister h name url]).
Proof. unfold registrations. rewrite omap_app. cbn. set_solver. Qed.

(** A task found in an updated task list is the new one or an old one. *)
Ltac old_task H :=
  repeat first
    [ apply list_lookup_insert_Some in H as [(_ & H & _)|[_ H]]; [try discriminate H|]
    | apply lookup_app_Some in H as [H|[_ H]];
      [|by repeat (destruct (_ - _) as [|?]; try discriminate H; cbn in H)] ].

Lemma step_register_inv (a : Action) (w : World) :
  register_inv w → register_inv (step a w).
Proof.
  intros [Hset Htask].
  step_cases a; unfold register_inv; wsimpl; (split; [intros xu Hu|intros xt xn xu Hu]).
  all: try (by eauto using registrations_snoc).
  all: try (by apply not_elem_of_empty in Hu).
  all: try (old_task Hu; by eauto using registrations_snoc).
  all: try (apply list_lookup_insert_Some in Hu as [(_ & [= <- <-] & _)|[_ Hu]];
            [apply registrations_snoc_register|by eauto using registrations_snoc]).
  all: apply elem_of_union in Hu as [Hu|Hu]; [|by eauto].
  all: apply elem_of_singleton in Hu as ->; by eauto.
Qed.

Lemma run_register_inv (sched : list Action) (w : World) :
  register_inv w → register_inv (run sched w).
Proof.
  revert w. induction sched as [|a sched IH]; intros w H; [done|].
  rewrite run_cons. apply IH. by apply step_register_inv.
Qed.

(** ** With [window.duckdb] preloaded nothing is imported *)

Ltac wsimpl_all :=
  cbn [mgr global initPromises setupPromises tasks log clock nextHandle
       upd_mgr set_global upd_initPromises upd_setupPromises upd_tasks emit
       set_clock bump_handle spawn set_task
       db connection initPromise config registeredFiles duckdbModule
       initQueriesExecuted initQueriesPromise initQueries
       set_db set_connection set_initPromise set_config set_registeredFiles
       set_duckdbModule set_initQueriesExecuted set_initQueriesPromise
       set_initQueries new_manager close_reset fst snd] in *.

Ltac preloaded_goal :=
  repeat first [ assumption | apply Forall_app_2 | apply Forall_cons_2
               | apply Forall_nil_2 | apply Forall_insert | exact I | reflexivity
               | match goal with
                 | Hmod : ∀ n, duckdbModule _ = Some n → n = _ |- _ => by apply Hmod
                 end ].

Lemma step_preloaded_inv (m : nat) (a : Action) (w : World) :
  preloaded_inv m w → preloaded_inv m (step a w).
Proof.
  intros (Hg & Hm & Hl & Ht).
  assert (Hmod : ∀ n, duckdbModule (mgr w) = Some n → n = m)
    by (intros n Hn; destruct Hm; congruence).
  destruct a as [c|t|t r|now].
  - destruct c; cbn [step call]; unfold_step; repeat case_match; wsimpl_all;
      simplify_eq; unfold preloaded_inv; wsimpl;
      (split; [done|]); (split; [by auto|]);
      split; preloaded_goal.
  - cbn [step]. unfold wake.
    destruct (tasks w !! t) as [tk|] eqn:Htk; [|done].
    pose proof (Forall_lookup_1 _ _ _ _ Ht Htk) as Hk.
    destruct tk; try done; unfold_step; repeat case_match; wsimpl_all; simplify_eq;
      try done; unfold preloaded_inv; wsimpl;
      (split; [done|]); (split; [by auto|]);
      split; preloaded_goal.
  - cbn [step]. unfold resume.
    destruct (tasks w !! t) as [tk|] eqn:Htk; [|done].
    pose proof (Forall_lookup_1 _ _ _ _ Ht Htk) as Hk.
    destruct tk; try done; unfold_step; repeat case_match; wsimpl_all; simplify_eq;
      try done; unfold preloaded_inv; wsimpl;
      (split; [done|]); (split; [by auto|]);
      split; preloaded_goal.
  - done.
Qed.

Lemma run_preloaded_inv (m : nat) (sched : list Action) (w : World) :
  preloaded_inv m w → preloaded_inv m (run sched w).
Proof.
  revert w. induction sched as [|a sched IH]; intros w H; [done|].
  rewrite run_cons. apply IH. by apply step_preloaded_inv.
Qed.

(** On a page where [window.duckdb] holds a module when the script loads,
    whatever the callers and the engine do, teardown and failures included:
    the manager never starts an import, by package name or from the CDN,
    and every bundle selection is made with the preloaded module. *)
Theorem preloaded_module_is_never_imported (sched : list Action) (m : nat) :
  let w := run sched (boot (Some m)) in
  (EImportPackage ∉ log w)
  ∧ (∀ url, EImportUrl url ∉ log w)
  ∧ (∀ m', ESelectBundle m' ∈ log w → m' = m)
  ∧ global w = Some m.
Proof.
  intros w. destruct (run_preloaded_inv m sched (boot (Some m))) as (Hg & _ & Hl & _).
  { split; [done|]. split; [by left|]. split; constructor. }
  fold w in Hg, Hl. rewrite Forall_forall in Hl.
  split. { intros H. exact (Hl _ H). }
  split. { intros url H. exact (Hl _ H). }
  split; [|done]. intros m' H. exact (Hl _ H).
Qed.

(** ** The measured time is never negative *)

Lemma step_timed (a : Action) (w : World) :
  match a with ATick n => (clock w ≤ n)%Z | _ => True end →
  Forall (task_timed (clock w)) (tasks w) →
  Forall (task_timed (clock (step a w))) (tasks (step a w)).
Proof.
  intros Ha Ht.
  destruct a as [c|t|t r|now].
  - destruct c; cbn [step call]; unfold_step; repeat case_match; simplify_eq; wsimpl;
      repeat first [assumption | apply Forall_app_2 | apply Forall_cons_2
                   | apply Forall_nil_2 | exact I ].
  - cbn [step]. unfold wake.
    destruct (tasks w !! t) as [tk|] eqn:Htk; [|done].
    destruct tk; try done; unfold_step; repeat case_match; simplify_eq;
      try done; wsimpl;
      repeat first [assumption | apply Forall_app_2 | apply Forall_cons_2
                   | apply Forall_nil_2 | apply Forall_insert | exact I
                   | progress cbn [task_timed] | lia ].
  - cbn [step]. unfold resume.
    destruct (tasks w !! t) as [tk|] eqn:Htk; [|done].
    pose proof (Forall_lookup_1 _ _ _ _ Ht Htk) as Hk.
    destruct tk; try done; unfold_step; repeat case_match; simplify_eq;
      try done; wsimpl;
      repeat first [assumption | apply Forall_app_2 | apply Forall_cons_2
                   | apply Forall_nil_2 | apply Forall_insert | exact I
                   | progress cbn [task_timed toQueryResult executionTime] in *
                   | lia ].
  - cbn [step]. wsimpl. eapply Forall_impl; [exact Ht|].
    intros tk. destruct tk; try done. cbn. lia.
Qed.

Lemma step_clock (a : Action) (w : World) :
  clock (step a w) = match a with ATick n => n | _ => clock w end.
Proof. step_cases a; reflexivity. Qed.

Lemma run_timed (sched : list Action) (w : World) :
  ticks_monotone (clock w) sched →
  Forall (task_timed (clock w)) (tasks w) →
  Forall (task_timed (clock (run sched w))) (tasks (run sched w)).
Proof.
  revert w. induction sched as [|a sched IH]; intros w Hs Ht; [done|].
  rewrite run_cons. apply IH.
  - rewrite step_clock. destruct a as [| | |n]; cbn [ticks_monotone] in Hs; try exact Hs.
    by destruct Hs.
  - apply step_timed; [|done].
    destruct a as [| | |n]; cbn [ticks_monotone] in Hs; try done. by destruct Hs.
Qed.

(** When the clock never goes back, every [QueryResult] that [query]
    returns has an [executionTime] of at least zero, whatever else happens
    between the submission of the statement and the engine's answer. *)
Theorem executionTime_is_not_negative
    (sched : list Action) (g : option nat) (t : nat) (r : QueryResult) :
  ticks_monotone 0 sched →
  tasks (run sched (boot g)) !! t = Some (Done (Returned (RResult r))) →
  (0 ≤ executionTime r)%Z.
Proof.
  intros Hs Ht.
  pose proof (run_timed sched (boot g) Hs (Forall_nil_2 _)) as H.
  exact (Forall_lookup_1 _ _ _ _ H Ht).
Qed.

Lemma executionTime_is_not_negative_witness :
  (0 ≤ 7)%Z.
Proof.
  apply (executionTime_is_not_negative
           (example_initialized
            ++ [ATick 5; AWake 1; AWake 1; ATick 12;
                AResume 1 (Ok (PTable {| fields := []; numRows := 0; numCols := 0;
                                         children := [] |}))])
           None 1
           {| columns := []; rows := []; rowCount := 0; executionTime := 7 |}).
  - vm_compute. repeat split; discriminate.
  - vm_compute. reflexivity.
Defined.

(** ** One engine instance and one connection within a lifetime *)

Lemma sent_to_update (m m' : Manager) (l : list Event) :
  Forall (sent_to m) l →
  (∀ h, db m = Some h → db m' = Some h) →
  (∀ c, connection m = Some c → connection m' = Some c) →
  Forall (sent_to m') l.
Proof.
  intros Hl Hd Hc. eapply Forall_impl; [exact Hl|].
  intros e. destruct e; cbn; auto.
Qed.

(** With one initialisation in flight, the task that runs it is the only
    one of its kind. *)
Lemma di_single (ts : list Task) (t t' : nat) (y y' : Task) (s s' s0 : nat * bool) :
  di_state ts = [s0] →
  ts !! t = Some y → di_stage y = Some s →
  ts !! t' = Some y' → di_stage y' = Some s' → t' = t.
Proof.
  intros Hs Ht Hy Ht' Hy'.
  destruct (omap_insert_split di_stage ts t y y Ht) as [H1 _].
  fold (di_state ts) in H1. rewrite Hs, Hy in H1. cbn [option_list] in H1.
  destruct (omap di_stage (take t ts)) as [|a l1] eqn:E1; [|by destruct l1].
  cbn in H1. injection H1 as _ H1. symmetry in H1.
  destruct (decide (t' = t)) as [|Hne]; [done|]. exfalso.
  destruct (decide (t' < t)) as [Hlt|Hge].
  - assert (Hin : s' ∈ omap di_stage (take t ts)).
    { apply list_elem_of_omap. exists y'. split; [|done].
      apply (list_elem_of_lookup_2 _ t'). by rewrite lookup_take_lt. }
    rewrite E1 in Hin. by apply not_elem_of_nil in Hin.
  - assert (Hin : s' ∈ omap di_stage (drop (S t) ts)).
    { apply list_elem_of_omap. exists y'. split; [|done].
      apply (list_elem_of_lookup_2 _ (t' - S t)). rewrite lookup_drop.
      by replace (S t + (t' - S t)) with t' by lia. }
    rewrite H1 in Hin. by apply not_elem_of_nil in Hin.
Qed.

Ltac lookup_cases H :=
  repeat first
    [ apply list_lookup_insert_Some in H as [(? & ? & ?)|[? H]]
    | apply lookup_app_Some in H as [H|[? H]]
    | apply list_lookup_singleton_Some in H as [? ?] ].

(** One step of the initialisation that is task [t]. *)
Lemma doInitialize_step_lifetime (w : World) (t p : nat) (b : bool) (y : Task) (a : Action) :
  tasks w !! t = Some y → di_stage y = Some (p, b) →
  a = AWake t ∨ (∃ r, a = AResume t r) →
  init_inv w → lifetime_inv w → lifetime_inv (step a w).
Proof.
  intros Ht Hy Ha Hinv Hlife. pose proof Hinv as (Hn & Hcore & Hpend & Htasks).
  pose proof Hlife as (L1 & L2 & L3).
  pose proof (init_core_running _ _ _ _ _ _ _ Hcore Ht Hy) as Hrun.
  rewrite Hrun in Hcore. destruct Hcore as (Hip & Hpd & Hdb).
  destruct (L2 _ _ _ _ Ht Hy) as [Hc Hbuilt].
  assert (Hone : ∀ t' y' s', tasks w !! t' = Some y' → di_stage y' = Some s' → t' = t)
    by (intros t' y' s' H1 H2; by eapply (di_single (tasks w) t t' y y')).
  destruct y; try discriminate Hy; injection Hy as <- <-;
    try specialize (Hdb eq_refl); try specialize (Hbuilt eq_refl);
    destruct Ha as [->|[r ->]]; cbn [step]; unfold wake, resume; rewrite Ht;
    try exact Hlife; unfold doInitialize_catch; repeat case_match; simplify_eq;
    try exact Hlife; try (by destruct Hbuilt); unfold lifetime_inv; wsimpl.
  all: split; [|split].
  all: try done.
  all: repeat (apply Forall_app_2; [|by repeat constructor; cbn; wsimpl]).
  all: try (eapply sent_to_update; [exact L1|..]; wsimpl; intros; congruence).
  all: try (intros [? ?]; simplify_eq; done).
  all: try (intros t' y' p' b' Hl Hs;
            apply list_lookup_insert_Some in Hl as [(? & ? & ?)|[Hne Hl]];
            [|by destruct (Hne (eq_sym (Hone _ _ _ Hl Hs)))];
            simplify_eq; cbn in Hs; simplify_eq;
            try (split; [done|]; try done; by eauto)).
  intros _. split; [done|]. exists p0. split; [done|].
  apply list_lookup_insert_eq. by eapply lookup_lt_Some.
Qed.

Ltac rew_fields :=
  repeat match goal with
         | Hx : db (mgr _) = _ |- _ => rewrite Hx
         | Hx : connection (mgr _) = _ |- _ => rewrite Hx
         | Hx : initPromise (mgr _) = _ |- _ => rewrite Hx
         end.

Ltac life_log L1 :=
  repeat (apply Forall_app_2; [|by repeat constructor; cbn; wsimpl]);
  first [ exact L1
        | eapply sent_to_update; [exact L1|..]; wsimpl; intros; congruence ].

Ltac life_di L2 :=
  let t' := fresh "t'" in let y' := fresh "y'" in
  let p' := fresh "p'" in let b' := fresh "b'" in
  let Hl := fresh "Hl" in let Hs := fresh "Hs" in
  intros t' y' p' b' Hl Hs; lookup_cases Hl; simplify_eq; try discriminate Hs;
  try (by eapply L2).

(** [initialize], called by a method whose task is then added. *)
Lemma initialize_lifetime (w : World) (k : Wait → Task) :
  (∀ wt, di_stage (k wt) = None) →
  lifetime_inv w →
  lifetime_inv (let '(w1, wt) := initialize w in spawn (k wt) w1).
Proof.
  intros Hk (L1 & L2 & L3). unfold initialize.
  destruct (db (mgr w)) as [h|] eqn:Hdb.
  { unfold lifetime_inv. wsimpl. rewrite Hdb. split; [done|]. split; [|done].
    intros t' y' p' b' Hl Hs. lookup_cases Hl; simplify_eq; [by eapply L2|].
    by rewrite Hk in Hs. }
  assert (Hc : connection (mgr w) = None).
  { destruct (connection (mgr w)) as [c|]; [|done].
    destruct L3 as [[? ?] _]; [by eexists|done]. }
  destruct (initPromise (mgr w)) as [p|] eqn:Hp.
  { unfold lifetime_inv. wsimpl. rewrite Hdb. split; [done|].
    split; [|intros [? ?]; congruence].
    intros t' y' p' b' Hl Hs. lookup_cases Hl; simplify_eq; [by eapply L2|].
    by rewrite Hk in Hs. }
  unfold loadDuckDBModule. wsimpl.
  repeat case_match; simplify_eq; unfold lifetime_inv; wsimpl; rewrite ?Hdb, ?Hc.
  all: split; [life_log L1|].
  all: split; [|by intros [? ?]].
  all: intros t' y' p' b' Hl Hs; lookup_cases Hl; simplify_eq;
    try (by rewrite Hk in Hs); cbn in Hs; simplify_eq;
    try (split; [done|]; done).
  all: destruct (L2 _ _ _ _ Hl Hs) as [_ H']; split; [done|exact H'].
Qed.

Lemma step_lifetime (a : Action) (w : World) :
  no_close a → init_inv w → lifetime_inv w → lifetime_inv (step a w).
Proof.
  intros Ha Hinv Hlife. pose proof Hlife as (L1 & L2 & L3).
  destruct a as [c|t|t r|now].
  - cbn [step]. destruct c; try done; cbn [call];
      try (by apply (initialize_lifetime w (λ wt, _)));
      unfold lifetime_inv, configure, configureInitQueries;
      repeat case_match; wsimpl; rew_fields;
      (split; [life_log L1|split; [life_di L2|try exact L3]]).
  - destruct (tasks w !! t) as [tk|] eqn:Ht; [|by cbn [step]; unfold wake; rewrite Ht].
    destruct (di_stage tk) as [[p b]|] eqn:Hdi.
    { eapply doInitialize_step_lifetime; eauto. }
    cbn [step]. unfold wake. rewrite Ht.
    destruct tk; try done; try discriminate Hdi;
      unfold lifetime_inv; unfold_step; repeat case_match; simplify_eq; try done;
      wsimpl; rew_fields;
      (split; [life_log L1|split; [life_di L2|try exact L3]]).
  - destruct (tasks w !! t) as [tk|] eqn:Ht; [|by cbn [step]; unfold resume; rewrite Ht].
    destruct (di_stage tk) as [[p b]|] eqn:Hdi.
    { eapply doInitialize_step_lifetime; eauto. }
    destruct Hinv as (_ & _ & _ & Htasks).
    cbn [step]. unfold resume. rewrite Ht.
    destruct tk; try done; try discriminate Hdi;
      try (by destruct (Forall_lookup_1 _ _ _ _ Htasks Ht));
      unfold lifetime_inv; unfold_step; repeat case_match; simplify_eq; try done;
      wsimpl; rew_fields;
      (split; [life_log L1|split; [life_di L2|try exact L3]]).
  - done.
Qed.

Lemma boot_lifetime (g : option nat) : lifetime_inv (boot g).
Proof.
  split; [by constructor|]. split; [by intros [|?] ? ? ? ?|].
  by intros [? ?].
Qed.

Lemma run_lifetime (sched : list Action) (w : World) :
  Forall no_close sched → init_inv w → lifetime_inv w →
  lifetime_inv (run sched w).
Proof.
  intros Hs. revert w.
  induction Hs as [|a sched Ha _ IH]; intros w Hinv Hlife; [done|].
  rewrite run_cons. apply IH; [by apply step_init_inv|by apply step_lifetime].
Qed.

(** Within one connection lifetime, whatever the callers and the engine
    do: every statement the engine has received, from the setup run or from
    a caller of [query], was sent on the connection the manager holds now,
    and every registration went to the engine instance it holds now; one
    instance and one connection serve all callers. Whenever a connection is
    open, [isInitialized()] is true, the initialisation promise is
    fulfilled, and no initialisation is in flight. *)
Theorem one_connection_serves_all_callers (sched : list Action) (g : option nat) :
  Forall no_close sched →
  let w := run sched (boot g) in
  (∀ c o sql, EQuery c o sql ∈ log w → connection (mgr w) = Some c)
  ∧ (∀ h name url, ERegister h name url ∈ log w → db (mgr w) = Some h)
  ∧ (is_Some (connection (mgr w)) →
       isInitialized w = true
       ∧ di_state (tasks w) = []
       ∧ ∃ p, initPromise (mgr w) = Some p ∧ initPromises w !! p = Some Fulfilled).
Proof.
  intros Hs w.
  pose proof (run_init_inv sched _ Hs (boot_init_inv g)) as Hinv.
  pose proof (run_lifetime sched _ Hs (boot_init_inv g) (boot_lifetime g))
    as (L1 & L2 & L3).
  fold w in Hinv, L1, L2, L3. clearbody w. rewrite Forall_forall in L1.
  split. { intros c o sql H. exact (L1 _ H). }
  split. { intros h name url H. exact (L1 _ H). }
  intros Hc. destruct (L3 Hc) as ([h Hh] & p & Hp & Hf).
  split. { unfold isInitialized. rewrite Hh. by apply bool_decide_eq_true. }
  split; [|by exists p].
  destruct (di_state (tasks w)) as [|[p' b'] l] eqn:Hdi; [done|]. exfalso.
  assert (Hin : (p', b') ∈ di_state (tasks w)) by (rewrite Hdi; left).
  apply list_elem_of_omap in Hin as (y & Hy & Hst).
  apply list_elem_of_lookup_1 in Hy as [t Ht].
  destruct (L2 _ _ _ _ Ht Hst) as [Hnone _].
  destruct Hc as [c Hc]. congruence.
Qed.

Lemma one_connection_serves_all_callers_witness :
  connection
    (mgr (run ([ACall (CConfigureInitQueries ["SET x=1"])] ++ example_query_with_setup)
              (boot None)))
  = Some 1.
Proof.
  destruct (one_connection_serves_all_callers
              ([ACall (CConfigureInitQueries ["SET x=1"])] ++ example_query_with_setup)
              None) as (H & _).
  { repeat constructor. }
  apply (H 1 (User 2) "SELECT 1").
  apply (list_elem_of_lookup_2 _ 10). vm_compute. reflexivity.
Defined.

(** ** The registered set and the engine instance in use *)

Lemma registrations_sent (l : list Event) (url : string) :
  url ∈ registrations l → ∃ h name, ERegister h name url ∈ l.
Proof.
  unfold registrations. intros H.
  apply list_elem_of_omap in H as (e & He & Hu).
  destruct e; try discriminate Hu. injection Hu as ->. eauto.
Qed.

(** Across a teardown the set can name a URL that the engine instance in
    use never received: a registration sent to instance 0 is answered
    after [close] has emptied the set, and the set of the next lifetime,
    served by instance 2, holds its URL. *)
Lemma late_registration_survives_close :
  let w := run example_register_across_close (boot None) in
  db (mgr w) = Some 2
  ∧ registeredFiles (mgr w) = {["https://h/x"]}
  ∧ omap (λ e, match e with ERegister h _ url => Some (h, url) | _ => None end) (log w)
    = [(0, "https://h/x")].
Proof.
  intros w. split; [|split]; vm_compute; reflexivity.
Qed.

(** Whatever the callers and the engine do from a new page on, teardown
    included: a URL is in the registered set only if an engine instance was
    asked to register it; and within one connection lifetime, that instance
    is the one the manager holds, so that [registerFile] skips only URLs
    that the engine in use was sent. *)
Theorem registered_set_was_sent_to_engine
    (sched : list Action) (g : option nat) (url : string) :
  url ∈ registeredFiles (mgr (run sched (boot g))) →
  ∃ h name,
    ERegister h name url ∈ log (run sched (boot g))
    ∧ (Forall no_close sched → db (mgr (run sched (boot g))) = Some h).
Proof.
  intros Hu.
  destruct (run_register_inv sched (boot g)) as [H _].
  { split; [intros u Hx; by apply not_elem_of_empty in Hx|by intros [|?] ? ? ?]. }
  destruct (registrations_sent _ _ (H _ Hu)) as (h & name & Hin).
  exists h, name. split; [done|]. intros Hs.
  pose proof (run_lifetime sched _ Hs (boot_init_inv g) (boot_lifetime g))
    as (L1 & _ & _).
  rewrite Forall_forall in L1. exact (L1 _ Hin).
Qed.

Lemma registered_set_was_sent_to_engine_witness :
  ∃ h name,
    ERegister h name "https://h/x"
      ∈ log (run (example_register_before_setup ++ [AResume 2 okU]) (boot None))
    ∧ (Forall no_close (example_register_before_setup ++ [AResume 2 okU]) →
       db (mgr (run (example_register_before_setup ++ [AResume 2 okU]) (boot None)))
       = Some h).
Proof.
  apply (registered_set_was_sent_to_engine
           (example_register_before_setup ++ [AResume 2 okU]) None "https://h/x").
  vm_compute. set_solver.
Defined.

(** ** [registerFile] and the open connection *)





(** Under every schedule, teardown included: a registration is sent to an
    engine instance that was constructed before. *)
Lemma registration_names_constructed_instance
    (sched : list Action) (g : option nat)
    (l1 l2 : list Event) (h : nat) (name url : string) :
  log (run sched (boot g)) = l1 ++ ERegister h name url :: l2 →
  ENewDb h ∈ l1.
Proof.
  intros Hlog.
  destruct (run_db_constructed sched (boot g)) as [_ H].
  { split; [done|]. apply each_preceded_nil. }
  by eapply H.
Qed.

(** The hypothesis on the calls of [registerFile] is needed: a call that
    arrives while [instantiate] is awaited does not wait, and its
    registration reaches the engine while the connection is not open and
    the initialisation promise is pending. *)
Lemma registerFile_in_window_reaches_engine_before_connection :
  let w := run example_register_in_window (boot None) in
  log w = [EImportPackage; ESelectBundle 7;
           EFetch "https://cdn.example.com/worker.js"; EBlob; ENewDb 0;
           EInstantiate 0 "duckdb.wasm" "https://cdn.example.com/worker.js";
           ERegister 0 "x" "https://h/x"]
  ∧ connection (mgr w) = None
  ∧ initPromise (mgr w) = Some 0
  ∧ initPromises w = [Pending].
Proof.
  intros w.
  repeat match goal with |- _ ∧ _ => split end; vm_compute; reflexivity.
Qed.



(** ** [close] when the engine fails *)



(** ** [query] with no setup statements configured *)

(** On an initialised manager with an empty list of setup statements: the
    first [query] marks the setup as executed without creating a promise
    and without sending anything but the caller's statement; from then on
    [configureInitQueries] is refused with the warning, although no setup
    statement ever ran. *)
Theorem first_query_closes_setup_configuration
    (w : World) (sql : string) (h c : nat) (queries : list string) :
  db (mgr w) = Some h → connection (mgr w) = Some c →
  initQueries (mgr w) = [] → initQueriesExecuted (mgr w) = false →
  initQueriesPromise (mgr w) = None →
  let t := length (tasks w) in
  let w1 := run [ACall (CQuery sql); AWake t; AWake t] w in
  log w1 = log w ++ [EQuery c (User t) sql]
  ∧ tasks w1 !! t = Some (Q_Query sql (clock w))
  ∧ setupPromises w1 = setupPromises w
  ∧ initQueriesExecuted (mgr w1) = true
  ∧ let w2 := step (ACall (CConfigureInitQueries queries)) w1 in
    initQueries (mgr w2) = []
    ∧ log w2 = log w1
               ++ [EWarn "Init queries already executed, configuration will not take effect"].
Proof.
  intros Hd Hc Hq He Hp t w1.
  assert (Hw1 : w1 = upd_mgr (set_initQueriesExecuted true)
                       (spawn (Q_Query sql (clock w)) (emit (EQuery c (User t) sql) w))).
  { unfold w1, t. rewrite !run_cons, run_nil. cbn [step call].
    unfold initialize. rewrite Hd. unfold wake at 2. wsimpl. snoc_tasks.
    cbn [poll]. unfold executeInitQueries. wsimpl. rewrite He, Hp, Hq. wsimpl.
    snoc_tasks. unfold wake. wsimpl. snoc_tasks. cbn [poll].
    unfold query_submit. wsimpl. rewrite Hc. wsimpl. snoc_tasks.
    apply world_eq; wsimpl; snoc_tasks; reflexivity. }
  clearbody w1. subst w1. wsimpl.
  split; [done|]. split; [first [done|apply lookup_snoc]|]. split; [done|]. split; [done|].
  cbn [step call]. unfold configureInitQueries. wsimpl. by rewrite Hq.
Qed.

Lemma first_query_closes_setup_configuration_witness :
  let w := run example_initialized (boot None) in
  let w1 := run [ACall (CQuery "SELECT 2"); AWake 2; AWake 2] w in
  log w1 = log w ++ [EQuery 1 (User 2) "SELECT 2"].
Proof.
  intros w w1.
  apply (first_query_closes_setup_configuration w "SELECT 2" 0 1 ["SET x=1"]);
    reflexivity.
Defined.

(** ** A failure before the engine instance is constructed *)

(** When initialisation fails before the engine instance is constructed
    (both imports, the bundle selection, the fetch of the worker or the
    reading of its body), the pending promise is rejected with the wrapped
    error and cleared from the manager, no other field changes and
    [isInitialized()] stays false; the next [query] starts a new
    initialisation with a new pending promise and waits on it. *)
Theorem failure_before_construction_is_retried
    (w : World) (t p : nat) (y : Task) (r : Resp) (e : Thrown) (sql : string) :
  tasks w !! t = Some y → early_failure y r = Some (p, e) → db (mgr w) = None →
  let w1 := step (AResume t r) w in
  tasks w1 !! t = Some (Done (Threw (initError e)))
  ∧ mgr w1 = set_initPromise None (mgr w)
  ∧ initPromises w1 = <[p := Rejected (initError e)]> (initPromises w)
  ∧ isInitialized w1 = false
  ∧ let w2 := step (ACall (CQuery sql)) w1 in
    let p' := length (initPromises w) in
    initPromise (mgr w2) = Some p'
    ∧ initPromises w2 !! p' = Some Pending
    ∧ (∃ y', tasks w2 !! length (tasks w) = Some y' ∧ di_stage y' = Some (p', false))
    ∧ tasks w2 !! S (length (tasks w)) = Some (Q_Initialize sql (WPromise p')).
Proof.
  intros Ht Hf Hd w1.
  assert (Hlt : t < length (tasks w)) by (by eapply lookup_lt_Some).
  assert (Hw1 : w1 = doInitialize_catch t p e w).
  { unfold w1. cbn [step]. unfold resume. rewrite Ht.
    destruct y; try discriminate Hf; destruct r as [[| | |[] ? ?|]|];
      try discriminate Hf; cbn in Hf; by simplify_eq. }
  clearbody w1. subst w1. unfold doInitialize_catch. wsimpl.
  split. { by apply list_lookup_insert_eq. }
  split; [done|]. split; [done|].
  split. { unfold isInitialized. wsimpl. rewrite Hd.
          apply bool_decide_eq_false. intros H. by apply H. }
  cbn [step call]. unfold initialize. wsimpl. rewrite Hd.
  unfold loadDuckDBModule. wsimpl.
  assert (Hl1 : length (<[p:=Rejected (initError e)]> (initPromises w))
                = length (initPromises w)) by apply length_insert.
  assert (Hl2 : length (<[t:=Done (Threw (initError e))]> (tasks w))
                = length (tasks w)) by apply length_insert.
  rewrite Hl1.
  destruct (duckdbModule (mgr w)) as [m|]; [|destruct (global w) as [m|]]; wsimpl.
  all: split; [done|].
  all: split; [rewrite <- Hl1; by apply list_lookup_middle|].
  all: rewrite <- Hl2, <- app_assoc; cbn [app].
  all: split; [eexists; split; [apply lookup_snoc2|reflexivity]|apply lookup_snoc2'].
Qed.

Lemma failure_before_construction_is_retried_witness :
  let w := run [ACall (CQuery "SELECT 1"); AResume 0 (Ok (PModule 7)); AWake 0;
                AResume 0 (Ok (PBundle example_bundle))] (boot None) in
  let w1 := step (AResume 0 (Ok (PResponse false 404%N "Not Found"))) w in
  tasks w1 !! 0
  = Some (Done (Threw (ErrObj "Failed to initialize DuckDB: Failed to fetch worker: 404 Not Found")))
  ∧ isInitialized w1 = false.
Proof.
  intros w w1.
  destruct (failure_before_construction_is_retried
              w 0 0 (DI_Fetch 0 example_bundle) (Ok (PResponse false 404%N "Not Found"))
              (ErrObj "Failed to fetch worker: 404 Not Found") "SELECT 2")
    as (H1 & _ & _ & H2 & _); [reflexivity..|].
  split; [exact H1|exact H2].
Defined.

(** ** Errors that mention CORS *)

Lemma prefix_app_l (n a b : string) :
  String.prefix n a = true → String.prefix n (a +:+ b) = true.
Proof.
  revert a. induction n as [|c n IH]; intros a H.
  - by destruct (a +:+ b).
  - destruct a as [|c' a]; [done|].
    change (String c' a +:+ b) with (String c' (a +:+ b)). cbn in *.
    destruct (Ascii.ascii_dec c c'); [by apply IH|done].
Qed.

Lemma includes_app_l (n a b : string) :
  includes n a = true → includes n (a +:+ b) = true.
Proof.
  induction a as [|c a IH]; intros H.
  - cbn in H. destruct n; [|done]. destruct b; reflexivity.
  - change (String c a +:+ b) with (String c (a +:+ b)). cbn [includes] in *.
    destruct (String.prefix n (String c a)) eqn:E.
    + change (String c (a +:+ b)) with (String c a +:+ b).
      by rewrite (prefix_app_l _ _ _ E).
    + rewrite (IH H). by destruct (String.prefix n (String c (a +:+ b))).
Qed.

Lemma includes_app_r (n a b : string) :
  includes n b = true → includes n (a +:+ b) = true.
Proof.
  intros H. induction a as [|c a IH]; [done|].
  change (String c a +:+ b) with (String c (a +:+ b)). cbn [includes].
  rewrite IH. by destruct (String.prefix n (String c (a +:+ b))).
Qed.

(** The [catch] of [doInitialize] looks for the text CORS in the message
    of the error it caught. When both imports of the client module failed
    and either failure mentions CORS, what is thrown is the fixed text about
    the worker being blocked, and the messages of the two import failures
    are not in it. *)
Theorem import_failure_mentioning_cors_is_reported_as_worker_blocked
    (importError cdnError : Thrown) :
  includes "CORS" (errText importError) = true
  ∨ includes "CORS" (errText cdnError) = true →
  initError (loadError importError cdnError) = ErrObj corsMessage.
Proof.
  intros H. unfold loadError, initError.
  match goal with |- (if ?b then _ else _) = _ => assert (Hb : b = true) end;
    [|by rewrite Hb].
  destruct H as [H|H].
  - do 5 apply includes_app_r. by apply includes_app_l.
  - by do 7 apply includes_app_r.
Qed.

Lemma import_failure_mentioning_cors_is_reported_as_worker_blocked_witness :
  initError (loadError (ErrObj "Cannot find package")
                       (ErrObj "blocked by CORS policy"))
  = ErrObj corsMessage.
Proof.
  apply (import_failure_mentioning_cors_is_reported_as_worker_blocked
           (ErrObj "Cannot find package") (ErrObj "blocked by CORS policy")).
  right. reflexivity.
Defined.

(** * File references in a statement *)

(** ** Texts and their characters *)

Lemma str_chars (s : string) : str (chars s) = s.
Proof. apply String.string_of_list_ascii_of_string. Qed.

Lemma chars_str (l : list Ascii.ascii) : chars (str l) = l.
Proof. apply String.list_ascii_of_string_of_list_ascii. Qed.

Lemma chars_inj (s1 s2 : string) : chars s1 = chars s2 → s1 = s2.
Proof. intros H. by rewrite <- (str_chars s1), <- (str_chars s2), H. Qed.

Lemma chars_app (a b : string) : chars (a +:+ b) = chars a ++ chars b.
Proof.
  induction a as [|c a IH]; [done|].
  change (String c a +:+ b) with (String c (a +:+ b)). cbn. by rewrite <- IH.
Qed.

Lemma str_app (a b : list Ascii.ascii) : str (a ++ b) = str a +:+ str b.
Proof. apply chars_inj. by rewrite chars_app, !chars_str. Qed.

Lemma startsWith_spec (p s : string) :
  startsWith p s = true ↔ chars p `prefix_of` chars s.
Proof.
  unfold startsWith. revert s. induction p as [|c p IH]; intros s.
  - split; [intros _; apply prefix_nil|intros _; by destruct s].
  - destruct s as [|c' s]; cbn.
    + split; [done|]. intros [k H]. discriminate H.
    + destruct (Ascii.ascii_dec c c') as [->|Hne].
      * rewrite IH. split; [apply prefix_cons|apply prefix_cons_inv_2].
      * split; [done|]. intros H. by apply prefix_cons_inv_1 in H.
Qed.

Lemma startsWith_app (p a b : string) :
  startsWith p a = true → startsWith p (a +:+ b) = true.
Proof.
  rewrite !startsWith_spec, chars_app. intros H.
  by apply prefix_app_r.
Qed.

Lemma append_assoc (a b c : string) : (a +:+ b) +:+ c = a +:+ b +:+ c.
Proof. apply chars_inj. by rewrite !chars_app, app_assoc. Qed.

(** ** The matcher finds a match if there is one, and only matches *)

Section Matcher.

Context {R : Type}.
Implicit Types (k : list Ascii.ascii → list (nat * list Ascii.ascii) → option R).

Lemma many_sound (ok : Ascii.ascii → bool) (s : list Ascii.ascii)
    (k : list Ascii.ascii → option R) (res : R) :
  many ok s k = Some res →
  ∃ pre s', pre ≠ [] ∧ s = pre ++ s' ∧ Forall (λ x, ok x = true) pre ∧ k s' = Some res.
Proof.
  induction s as [|x s IH]; [done|]. cbn.
  destruct (ok x) eqn:Hx; [|done].
  destruct (many ok s k) as [r|] eqn:Hm.
  - intros [= ->]. destruct (IH eq_refl) as (pre & s' & _ & -> & Hpre & Hk).
    exists (x :: pre), s'. by repeat split; [|constructor|].
  - intros Hk. exists [x], s. by repeat split; [|repeat constructor|].
Qed.

Lemma many_complete (ok : Ascii.ascii → bool) (pre s' : list Ascii.ascii)
    (k : list Ascii.ascii → option R) (res : R) :
  pre ≠ [] → Forall (λ x, ok x = true) pre → k s' = Some res →
  is_Some (many ok (pre ++ s') k).
Proof.
  induction pre as [|x pre IH]; [done|]. intros _ Hpre Hk.
  apply Forall_cons in Hpre as [Hx Hpre]. cbn. rewrite Hx.
  destruct pre as [|y pre].
  - cbn. destruct (many ok s' k); [by eexists|by rewrite Hk].
  - destruct (IH ltac:(done) Hpre Hk) as [r Hr]. rewrite Hr. by eexists.
Qed.

Lemma matchRe_sound (ci : bool) (r : Re) s caps k (res : R) :
  matchRe ci r s caps k = Some res →
  ∃ s' caps', Matches ci r s s' caps caps' ∧ k s' caps' = Some res.
Proof.
  revert s caps k. induction r as [|a|a|r1 IH1 r2 IH2|r1 IH1 r2 IH2|n r IH];
    intros s caps k H; cbn in H.
  - by exists s, caps.
  - destruct s as [|x s]; [done|].
    destruct (atomMatches ci a x) eqn:Hx; [|done].
    exists s, caps. split; [by exists x|done].
  - apply many_sound in H as (pre & s' & Hne & -> & Hpre & Hk).
    exists s', caps. split; [by exists pre|done].
  - apply IH1 in H as (s1 & caps1 & H1 & H).
    apply IH2 in H as (s' & caps' & H2 & H).
    exists s', caps'. split; [by exists s1, caps1|done].
  - destruct (matchRe ci r1 s caps k) as [x|] eqn:E.
    + injection H as ->. apply IH1 in E as (s' & caps' & H1 & H).
      exists s', caps'. split; [by left|done].
    + apply IH2 in H as (s' & caps' & H2 & H).
      exists s', caps'. split; [by right|done].
  - apply IH in H as (s' & caps1 & H1 & H).
    eexists s', _. split; [by exists caps1|done].
Qed.

Lemma matchRe_complete (ci : bool) (r : Re) s s' caps caps' k (res : R) :
  Matches ci r s s' caps caps' → k s' caps' = Some res →
  is_Some (matchRe ci r s caps k).
Proof.
  revert s s' caps caps' k res.
  induction r as [|a|a|r1 IH1 r2 IH2|r1 IH1 r2 IH2|n r IH];
    intros s s' caps caps' k res H Hk; cbn in H |- *.
  - destruct H as [-> ->]. by eexists.
  - destruct H as (x & -> & Hx & ->). rewrite Hx. by eexists.
  - destruct H as (pre & Hne & -> & Hpre & ->).
    by eapply (many_complete _ pre s' (λ s', k s' caps)).
  - destruct H as (s1 & caps1 & H1 & H2).
    destruct (IH2 _ _ _ _ _ _ H2 Hk) as [r' Hr'].
    by eapply IH1.
  - destruct (matchRe ci r1 s caps k) as [x|] eqn:E; [by eexists|].
    destruct H as [H|H]; [|by eapply IH2].
    destruct (IH1 _ _ _ _ _ _ H Hk) as [r' Hr']. congruence.
  - destruct H as (caps1 & H & ->). eapply IH; [exact H|]. exact Hk.
Qed.

End Matcher.

(** ** What the two expressions match *)

Lemma Matches_word (ci : bool) (w s s' : list Ascii.ascii)
    (caps caps' : list (nat * list Ascii.ascii)) :
  Matches ci (word w) s s' caps caps'
  ↔ ∃ e, s = e ++ s' ∧ Forall2 (λ x c, sameChar ci x c = true) e w ∧ caps' = caps.
Proof.
  revert s caps. induction w as [|c w IH]; intros s caps; cbn.
  - split.
    + intros [-> ->]. exists []. split; [done|]. split; [constructor|done].
    + intros (e & -> & He & ->). by apply Forall2_nil_inv_r in He as ->.
  - split.
    + intros (s1 & caps1 & (x & -> & Hx & ->) & H).
      apply IH in H as (e & -> & He & ->).
      exists (x :: e). split; [done|]. split; [by constructor|done].
    + intros (e & -> & He & ->).
      apply Forall2_cons_inv_r in He as (x & e' & Hx & He & ->).
      exists (e' ++ s'), caps. split; [by exists x|].
      apply IH. by exists e'.
Qed.

Lemma sameChar_eq (x c : Ascii.ascii) :
  sameChar true x c = true ↔ canon x = canon c.
Proof. unfold sameChar. apply Ascii.eqb_eq. Qed.

Lemma sameChar_quote (q x : Ascii.ascii) :
  isQuote q → sameChar true x q = true ↔ x = q.
Proof.
  intros [-> | ->]; (split; [|by intros ->]);
    destruct x as [[] [] [] [] [] [] [] []]; vm_compute; congruence.
Qed.

Lemma sameChar_dot (x : Ascii.ascii) :
  sameChar true x (charOf ".") = true ↔ x = charOf ".".
Proof.
  split; [|by intros ->].
  destruct x as [[] [] [] [] [] [] [] []]; vm_compute; congruence.
Qed.

Lemma quote_not_dot (q : Ascii.ascii) : isQuote q → q ≠ charOf ".".
Proof. by intros [-> | ->]. Qed.

Lemma quote_not_in_extension (q : Ascii.ascii) (e w : list Ascii.ascii) :
  isQuote q → w ∈ extensions → canon <$> e = canon <$> w → q ∉ e.
Proof.
  intros Hq Hw He Hin.
  assert (Hc : canon q ∈ canon <$> w).
  { rewrite <- He. by apply list_elem_of_fmap_2. }
  assert (Hall : Forall (λ w, Forall (λ c, c ≠ canon q) (canon <$> w)) extensions).
  { destruct Hq as [-> | ->]; repeat constructor; by vm_compute. }
  rewrite Forall_forall in Hall. specialize (Hall _ Hw).
  rewrite Forall_forall in Hall. by apply (Hall _ Hc).
Qed.

Lemma Forall2_sameChar (e w : list Ascii.ascii) :
  Forall2 (λ x c, sameChar true x c = true) e w ↔ canon <$> e = canon <$> w.
Proof.
  split.
  - induction 1 as [|x c e w Hx _ IH]; [done|]. cbn.
    apply sameChar_eq in Hx. by rewrite Hx, IH.
  - revert w. induction e as [|x e IH]; intros [|c w] H; try done.
    injection H as Hx H. constructor; [by apply sameChar_eq|by apply IH].
Qed.

Lemma take_length_diff {A} (a b : list A) :
  take (length (a ++ b) - length b) (a ++ b) = a.
Proof.
  rewrite length_app. replace (length a + length b - length b) with (length a) by lia.
  apply take_app_length.
Qed.

(** What [fileRe q] matches, read off the declarative matches. *)
Lemma Matches_fileRe (q : Ascii.ascii) (s s' : list Ascii.ascii)
    (caps' : list (nat * list Ascii.ascii)) :
  isQuote q →
  Matches true (fileRe q) s s' [] caps'
  ↔ ∃ stem ext w,
      s = q :: (stem ++ charOf "." :: ext) ++ q :: s'
      ∧ stem ≠ [] ∧ (q ∉ stem)
      ∧ w ∈ extensions ∧ canon <$> ext = canon <$> w
      ∧ caps' = [(1, stem ++ charOf "." :: ext); (2, ext)].
Proof.
  intros Hq. unfold fileRe. cbn [Matches]. split.
  - intros (s1 & c1 & (x & -> & Hx & ->) & s2 & c2
            & (c3 & (s3 & c4 & (stem & Hne & -> & Hstem & ->)
                     & s4 & c5 & (d & -> & Hd & ->)
                     & c6 & Halt & ->) & ->)
            & y & -> & Hy & ->).
    cbn in Hx, Hd, Hy. apply (sameChar_quote q) in Hx as ->; [|done].
    apply (sameChar_quote q) in Hy as ->; [|done].
    apply sameChar_dot in Hd as ->.
    assert (∃ ext w, s4 = ext ++ q :: s' ∧ w ∈ extensions
                     ∧ canon <$> ext = canon <$> w ∧ c6 = []) as (ext & w & -> & Hw & He & ->).
    { unfold extensions.
      destruct Halt as [H|[H|[H|H]]]; apply Matches_word in H as (e & -> & He & ->);
        apply Forall2_sameChar in He; exists e; eexists; (split; [done|]);
        (split; [|by split]); set_solver. }
    exists stem, ext, w. split; [by rewrite <- app_assoc|].
    split; [done|]. split.
    { intros Hin. rewrite Forall_forall in Hstem. specialize (Hstem _ Hin).
      cbn in Hstem. apply negb_true_iff in Hstem.
      by rewrite Ascii.eqb_refl in Hstem. }
    split; [done|]. split; [done|].
    f_equal; [|f_equal]; f_equal.
    + replace (stem ++ charOf "." :: ext ++ q :: s')
        with ((stem ++ charOf "." :: ext) ++ q :: s') by (by rewrite <- app_assoc).
      apply take_length_diff.
    + apply take_length_diff.
  - intros (stem & ext & w & -> & Hne & Hstem & Hw & He & ->).
    enough (H : ∃ caps', Matches true (fileRe q)
                           (q :: (stem ++ charOf "." :: ext) ++ q :: s') s' [] caps'
                         ∧ caps' = [(1, stem ++ charOf "." :: ext); (2, ext)])
      by (by destruct H as (c & H & ->)).
    eexists. split.
    {
      unfold fileRe. cbn [Matches].
      eexists _, _. split; [exists q; split; [reflexivity|]; split; [|reflexivity]|].
      { cbn. by apply sameChar_quote. }
      exists (q :: s'). eexists. split; [|exists q; split; [reflexivity|split; [|reflexivity]]].
      2: { cbn. by apply sameChar_quote. }
      eexists. split; [|reflexivity].
      exists (charOf "." :: ext ++ q :: s'). eexists. split.
      { exists stem. split; [done|]. split; [by rewrite <- app_assoc|].
        split; [|reflexivity]. apply Forall_forall. intros x Hx. cbn.
        apply negb_true_iff. destruct (sameChar true x q) eqn:E; [|done].
        apply sameChar_quote in E as ->; done. }
      exists (ext ++ q :: s'). eexists. split.
      { exists (charOf "."). split; [done|]. split; [|reflexivity]. cbn. by apply sameChar_dot. }
      eexists. split; [|reflexivity].
      assert (Hm : ∀ w0, canon <$> ext = canon <$> w0 →
                   Matches true (word w0) (ext ++ q :: s') (q :: s') [] []).
      { intros w0 H0. apply Matches_word. exists ext. split; [done|].
        split; [by apply Forall2_sameChar|done]. }
      unfold extensions in Hw.
      repeat (apply elem_of_cons in Hw as [->|Hw]); [..|by apply not_elem_of_nil in Hw].
      + left. by apply Hm.
      + right. left. by apply Hm.
      + right. right. left. by apply Hm.
      + right. right. right. by apply Hm.
    }
    f_equal; [|f_equal]; f_equal; apply take_length_diff.
Qed.

Lemma split_at_first {A} (x : A) (a b a' b' : list A) :
  x ∉ a → x ∉ a' → a ++ x :: b = a' ++ x :: b' → a = a' ∧ b = b'.
Proof.
  revert a'. induction a as [|y a IH]; intros [|y' a'] Ha Ha' H; cbn in H.
  - by injection H as ->.
  - injection H as -> _. set_solver.
  - injection H as -> _. set_solver.
  - injection H as -> H. apply not_elem_of_cons in Ha as [_ Ha].
    apply not_elem_of_cons in Ha' as [_ Ha'].
    destruct (IH a' Ha Ha' H) as [-> ->]. done.
Qed.

(** A match of [exec] at the start of [s]: the text begins with the
    quote, group 1 is all that stands between it and the next quote of the
    same kind, and that is a stem, a dot and an extension. *)
Lemma matchAt_Some (q : Ascii.ascii) (s g : list Ascii.ascii) (n : nat) :
  isQuote q → matchAt q s = Some (g, n) →
  ∃ rest, s = q :: g ++ q :: rest ∧ (q ∉ g) ∧ isDataFile g ∧ n = length g + 2.
Proof.
  intros Hq H. unfold matchAt in H.
  apply matchRe_sound in H as (s' & caps' & HM & HK).
  apply Matches_fileRe in HM as (stem & ext & w & -> & Hne & Hstem & Hw & He & ->);
    [|done].
  cbn in HK. injection HK as <- <-.
  exists s'. split; [done|]. split.
  { intros Hin. apply elem_of_app in Hin as [Hin|Hin]; [done|].
    apply elem_of_cons in Hin as [Hin|Hin]; [by apply (quote_not_dot q)|].
    by apply (quote_not_in_extension q ext w). }
  split. { exists stem, ext. split; [done|]. split; [done|]. by exists w. }
  cbn [length]. rewrite !length_app. cbn [length]. lia.
Qed.

Lemma matchAt_complete (q : Ascii.ascii) (content rest : list Ascii.ascii) :
  isQuote q → q ∉ content → isDataFile content →
  matchAt q (q :: content ++ q :: rest) = Some (content, length content + 2).
Proof.
  intros Hq Hc (stem & ext & -> & Hne & w & Hw & He).
  assert (Hs : q ∉ stem) by (intros H; apply Hc; apply elem_of_app; by left).
  destruct (matchRe_complete true (fileRe q)
              (q :: (stem ++ charOf "." :: ext) ++ q :: rest) rest []
              [(1, stem ++ charOf "." :: ext); (2, ext)]
              (λ s' caps, Some (capture 1 caps,
                                length (q :: (stem ++ charOf "." :: ext) ++ q :: rest)
                                - length s'))
              (capture 1 [(1, stem ++ charOf "." :: ext); (2, ext)],
               length (q :: (stem ++ charOf "." :: ext) ++ q :: rest) - length rest))
    as [[g n] Hgn].
  { apply Matches_fileRe; [done|]. by exists stem, ext, w. }
  { done. }
  fold (matchAt q (q :: (stem ++ charOf "." :: ext) ++ q :: rest)) in Hgn.
  rewrite Hgn.
  destruct (matchAt_Some q _ g n Hq Hgn) as (rest' & Heq & Hg & _ & ->).
  injection Heq as Heq. symmetry in Heq.
  by apply split_at_first in Heq as [-> _].
Qed.

Lemma matchAt_other (q x : Ascii.ascii) (s : list Ascii.ascii) :
  isQuote q → x ≠ q → matchAt q (x :: s) = None.
Proof.
  intros Hq Hx. unfold matchAt, fileRe. cbn [matchRe atomMatches].
  destruct (sameChar true x q) eqn:E; [|done].
  by apply sameChar_quote in E.
Qed.

(** ** The loop over the matches *)

Lemma execLoop_nil (q : Ascii.ascii) (skip : nat) : execLoop q [] skip = [].
Proof. done. Qed.

Lemma execLoop_skip (q : Ascii.ascii) (a s : list Ascii.ascii) :
  execLoop q (a ++ s) (length a) = execLoop q s 0.
Proof. induction a as [|x a IH]; [done|]. exact IH. Qed.

Lemma execLoop_no_quote (q : Ascii.ascii) (pre s : list Ascii.ascii) :
  isQuote q → q ∉ pre → execLoop q (pre ++ s) 0 = execLoop q s 0.
Proof.
  intros Hq. induction pre as [|x pre IH]; [done|]. intros Hpre.
  apply not_elem_of_cons in Hpre as [Hx Hpre]. cbn [app execLoop].
  rewrite matchAt_other by done. by apply IH.
Qed.

Lemma execLoop_match (q : Ascii.ascii) (pre content rest : list Ascii.ascii) :
  isQuote q → q ∉ pre → q ∉ content → isDataFile content →
  execLoop q (pre ++ q :: content ++ q :: rest) 0 = content :: execLoop q rest 0.
Proof.
  intros Hq Hpre Hc Hd. rewrite execLoop_no_quote by done.
  cbn [execLoop]. rewrite matchAt_complete by done.
  replace (length content + 2 - 1) with (length (content ++ [q]))
    by (rewrite length_app; cbn; lia).
  replace (content ++ q :: rest) with ((content ++ [q]) ++ rest)
    by (by rewrite <- app_assoc).
  by rewrite execLoop_skip.
Qed.

Lemma execLoop_sound (q : Ascii.ascii) (s g : list Ascii.ascii) (skip : nat) :
  isQuote q → g ∈ execLoop q s skip →
  ∃ pre rest, s = pre ++ q :: g ++ q :: rest ∧ (q ∉ g) ∧ isDataFile g.
Proof.
  intros Hq. revert skip. induction s as [|x s IH]; intros skip Hg.
  { by apply not_elem_of_nil in Hg. }
  assert (Hrec : ∀ k, g ∈ execLoop q s k →
                 ∃ pre rest, x :: s = pre ++ q :: g ++ q :: rest ∧ (q ∉ g) ∧ isDataFile g).
  { intros k Hk. destruct (IH _ Hk) as (pre & rest & -> & H1 & H2).
    by exists (x :: pre), rest. }
  cbn [execLoop] in Hg. destruct skip as [|k]; [|by eapply Hrec].
  destruct (matchAt q (x :: s)) as [[g' n]|] eqn:Hm; [|by eapply Hrec].
  apply elem_of_cons in Hg as [->|Hg]; [|by eapply Hrec].
  destruct (matchAt_Some q _ _ _ Hq Hm) as (rest & Heq & H1 & H2 & _).
  exists [], rest. by rewrite Heq.
Qed.

(** ** [new Set] and [Map.set] *)

Lemma setAdd_elem (acc : list string) (x y : string) :
  y ∈ setAdd acc x ↔ y ∈ acc ∨ y = x.
Proof. unfold setAdd. case_decide; set_solver. Qed.

Lemma setAdd_NoDup (acc : list string) (x : string) :
  NoDup acc → NoDup (setAdd acc x).
Proof.
  intros H. unfold setAdd. case_decide; [done|].
  apply NoDup_app. split; [done|]. split; [|apply NoDup_singleton].
  intros y Hy Hx. apply list_elem_of_singleton in Hx as ->. done.
Qed.

Lemma foldl_setAdd (acc l : list string) :
  (∀ y, y ∈ foldl setAdd acc l ↔ y ∈ acc ∨ y ∈ l)
  ∧ (NoDup acc → NoDup (foldl setAdd acc l))
  ∧ acc `prefix_of` foldl setAdd acc l.
Proof.
  revert acc. induction l as [|x l IH]; intros acc; cbn [foldl].
  - split; [set_solver|]. done.
  - destruct (IH (setAdd acc x)) as (H1 & H2 & H3). split; [|split].
    + intros y. rewrite H1, setAdd_elem. set_solver.
    + intros H. by apply H2, setAdd_NoDup.
    + etrans; [|exact H3]. unfold setAdd. case_decide; [done|]. by apply prefix_app_r.
Qed.

Lemma mapSet_fresh (k v : string) (m : list (string * string)) :
  k ∉ m.*1 → mapSet k v m = m ++ [(k, v)].
Proof.
  induction m as [|[k' v'] m IH]; [done|]. cbn. intros H.
  apply not_elem_of_cons in H as [Hk H].
  rewrite decide_False by done. by rewrite IH.
Qed.

Lemma foldl_mapSet (f : string → string) (l : list string) (acc : list (string * string)) :
  NoDup (acc.*1 ++ l) →
  foldl (λ m p, mapSet p (f p) m) acc l = acc ++ ((λ p, (p, f p)) <$> l).
Proof.
  revert acc. induction l as [|x l IH]; intros acc H; cbn [foldl fmap list_fmap].
  - by rewrite app_nil_r.
  - rewrite mapSet_fresh.
    + rewrite IH; [by rewrite <- app_assoc|].
      rewrite fmap_app. cbn. by rewrite <- app_assoc.
    + apply NoDup_app in H as (_ & H & _). intros Hin. apply (H _ Hin). left.
Qed.

(** ** [resolvePath] *)

Lemma endsWith_spec (p s : string) :
  endsWith p s = true ↔ ∃ k, s = k +:+ p.
Proof.
  unfold endsWith. rewrite bool_decide_eq_true. split.
  - intros [k Hk]. exists (str k). apply chars_inj.
    by rewrite chars_app, chars_str.
  - intros [k ->]. exists (chars k). by rewrite chars_app.
Qed.

Lemma sliceButLast_app (b c : string) :
  String.length c = 1 → sliceButLast (b +:+ c) = b.
Proof.
  intros Hc. destruct c as [|x [|y c]]; try discriminate Hc.
  unfold sliceButLast. rewrite chars_app. cbn [chars String.list_ascii_of_string].
  rewrite length_app. cbn [length].
  replace (length (chars b) + 1 - 1) with (length (chars b)) by lia.
  rewrite take_app_length. apply str_chars.
Qed.

Lemma sliceFrom_app (a p : string) : sliceFrom (String.length a) (a +:+ p) = p.
Proof.
  unfold sliceFrom. rewrite chars_app.
  replace (String.length a) with (length (chars a)).
  - rewrite drop_app_length. apply str_chars.
  - induction a as [|c a IH]; [done|]. cbn. by rewrite IH.
Qed.

Lemma isAbsoluteUrl_app (a b : string) :
  isAbsoluteUrl a = true → isAbsoluteUrl (a +:+ b) = true.
Proof.
  unfold isAbsoluteUrl. intros H. apply orb_true_iff in H as [H|H];
    apply orb_true_iff; [left|right]; by apply startsWith_app.
Qed.

(** When the page's origin and the configured base are [http://] or
    [https://] URLs, so is every URL that [resolvePath] returns, whatever
    the path; resolving a resolved URL again changes nothing. *)
Theorem resolvePath_gives_absolute_urls
    (origin path : string) (options : PathResolutionOptions) :
  isAbsoluteUrl origin = true → isAbsoluteUrl (baseUrl options) = true →
  isAbsoluteUrl (resolvePath origin path options) = true
  ∧ resolvePath origin (resolvePath origin path options) options
    = resolvePath origin path options.
Proof.
  intros Ho Hb.
  assert (Habs : isAbsoluteUrl (resolvePath origin path options) = true).
  { unfold resolvePath. fold (isAbsoluteUrl path).
    destruct (isAbsoluteUrl path) eqn:Hp; [done|].
    destruct (startsWith "/" path); [by apply isAbsoluteUrl_app|].
    destruct (endsWith "/" (baseUrl options)) eqn:He.
    - apply endsWith_spec in He as [k Hk]. rewrite Hk, sliceButLast_app by done.
      rewrite <- append_assoc, <- Hk. by apply isAbsoluteUrl_app.
    - by apply isAbsoluteUrl_app. }
  split; [done|].
  unfold resolvePath at 1. fold (isAbsoluteUrl (resolvePath origin path options)).
  by rewrite Habs.
Qed.

Lemma resolvePath_gives_absolute_urls_witness :
  isAbsoluteUrl (resolvePath "http://localhost:3000" "./datasets/data.parquet"
                             {| baseUrl := "https://data.sql-workbench.com/" |}) = true.
Proof.
  apply (resolvePath_gives_absolute_urls "http://localhost:3000"
           "./datasets/data.parquet" {| baseUrl := "https://data.sql-workbench.com/" |});
    reflexivity.
Defined.

(** A path that is relative (not a URL, not rooted at the origin) resolves
    to the base, a slash and the path; writing it with a leading [./], and
    giving the base with one trailing slash, each make no difference. *)
Theorem resolvePath_of_relative_path (origin path base : string) :
  isAbsoluteUrl path = false → startsWith "/" path = false →
  startsWith "./" path = false → endsWith "/" base = false →
  let resolved := base +:+ "/" +:+ path in
  resolvePath origin path {| baseUrl := base |} = resolved
  ∧ resolvePath origin ("./" +:+ path) {| baseUrl := base |} = resolved
  ∧ resolvePath origin path {| baseUrl := base +:+ "/" |} = resolved
  ∧ resolvePath origin ("./" +:+ path) {| baseUrl := base +:+ "/" |} = resolved.
Proof.
  intros Ha Hr Hd He resolved.
  assert (He' : endsWith "/" (base +:+ "/") = true)
    by (apply endsWith_spec; by exists base).
  assert (Hs : sliceFrom 2 ("./" +:+ path) = path) by apply (sliceFrom_app "./").
  unfold resolvePath. fold (isAbsoluteUrl path). fold (isAbsoluteUrl ("./" +:+ path)).
  cbn [baseUrl]. rewrite Ha, Hr, Hd, He, He', Hs.
  rewrite sliceButLast_app by done.
  assert (H1 : isAbsoluteUrl ("./" +:+ path) = false) by reflexivity.
  assert (H2 : startsWith "/" ("./" +:+ path) = false) by reflexivity.
  assert (H3 : startsWith "./" ("./" +:+ path) = true)
    by (apply startsWith_spec; rewrite chars_app; by apply prefix_app_r).
  rewrite H1, H2, H3. by repeat split.
Qed.

Lemma resolvePath_of_relative_path_witness :
  resolvePath "http://localhost:3000" "./data.parquet"
              {| baseUrl := "https://data.sql-workbench.com/" |}
  = "https://data.sql-workbench.com/data.parquet".
Proof.
  apply (resolvePath_of_relative_path "http://localhost:3000" "data.parquet"
           "https://data.sql-workbench.com"); reflexivity.
Defined.

(** ** [extractFilePaths] and [resolvePathsInSQL] *)

Lemma execLoop_str_sound (q : Ascii.ascii) (sql p : string) :
  isQuote q → p ∈ str <$> execLoop q (chars sql) 0 →
  ∃ pre post, chars sql = pre ++ q :: chars p ++ q :: post
              ∧ (q ∉ chars p) ∧ isDataFile (chars p).
Proof.
  intros Hq Hp. apply list_elem_of_fmap in Hp as (g & -> & Hg).
  destruct (execLoop_sound q _ _ _ Hq Hg) as (pre & post & H1 & H2 & H3).
  exists pre, post. by rewrite chars_str.
Qed.

(** The list that [extractFilePaths] returns has no element twice. Each
    of its elements stands in the statement between two quotes of the same
    kind, single or double, with no such quote inside, and is a stem that
    is not empty, a dot, and one of [parquet], [csv], [json], [arrow] in
    any case. A statement without quote characters gives the empty list. *)
Theorem extracted_paths_are_quoted_data_files (sql : string) :
  NoDup (extractFilePaths sql)
  ∧ (∀ p, p ∈ extractFilePaths sql →
       ∃ q pre post, isQuote q
                     ∧ chars sql = pre ++ q :: chars p ++ q :: post
                     ∧ (q ∉ chars p) ∧ isDataFile (chars p))
  ∧ (singleQuote ∉ chars sql → doubleQuote ∉ chars sql → extractFilePaths sql = []).
Proof.
  unfold extractFilePaths, setOf. split; [|split].
  - apply foldl_setAdd. constructor.
  - intros p Hp. apply foldl_setAdd in Hp as [Hp|Hp]; [by apply not_elem_of_nil in Hp|].
    apply elem_of_app in Hp as [Hp|Hp].
    + destruct (execLoop_str_sound singleQuote sql p) as (pre & post & H);
        [by left|done|]. exists singleQuote, pre, post. split; [by left|done].
    + destruct (execLoop_str_sound doubleQuote sql p) as (pre & post & H);
        [by right|done|]. exists doubleQuote, pre, post. split; [by right|done].
  - intros H1 H2.
    rewrite <- (app_nil_r (chars sql)).
    rewrite (execLoop_no_quote singleQuote) by first [done | by left | by right].
    by rewrite (execLoop_no_quote doubleQuote) by first [done | by left | by right].
Qed.

(** The first file reference in single quotes is the first element of the
    list: when the statement is some text without a single quote, then a
    quoted data file, then anything. *)
Theorem extractFilePaths_starts_with_first_quoted_file
    (sql p : string) (pre post : list Ascii.ascii) :
  chars sql = pre ++ singleQuote :: chars p ++ singleQuote :: post →
  singleQuote ∉ pre → singleQuote ∉ chars p → isDataFile (chars p) →
  ∃ more, extractFilePaths sql = p :: more.
Proof.
  intros Hsql Hpre Hp Hd. unfold extractFilePaths, setOf.
  rewrite Hsql.
  rewrite (execLoop_match singleQuote pre (chars p) post)
    by first [done | by left | by right].
  cbn [fmap list_fmap app foldl]. rewrite str_chars.
  match goal with |- context [foldl setAdd ?acc ?l] =>
    destruct (foldl_setAdd acc l) as (_ & _ & [more Hmore]) end.
  exists more. rewrite Hmore. unfold setAdd. by rewrite decide_False by apply not_elem_of_nil.
Qed.

Lemma extractFilePaths_starts_with_first_quoted_file_witness :
  ∃ more, extractFilePaths "SELECT * FROM 'data.parquet' WHERE name = 'x'"
          = "data.parquet" :: more.
Proof.
  apply (extractFilePaths_starts_with_first_quoted_file
           "SELECT * FROM 'data.parquet' WHERE name = 'x'" "data.parquet"
           (chars "SELECT * FROM ") (chars " WHERE name = 'x'")).
  - reflexivity.
  - by vm_compute; intros H; repeat (apply elem_of_cons in H as [H|H]; [discriminate H|]);
      apply not_elem_of_nil in H.
  - by vm_compute; intros H; repeat (apply elem_of_cons in H as [H|H]; [discriminate H|]);
      apply not_elem_of_nil in H.
  - exists (chars "data"), (chars "parquet"). split; [reflexivity|]. split; [done|].
    exists (chars "parquet"). split; [left|reflexivity].
Defined.

(** The map of [resolvePathsInSQL] has one entry for each path that
    [extractFilePaths] returns, in the same order, and its value is that
    path resolved. *)
Theorem resolvePathsInSQL_entries
    (origin sql : string) (options : PathResolutionOptions) :
  resolvePathsInSQL origin sql options
  = (λ p, (p, resolvePath origin p options)) <$> extractFilePaths sql.
Proof.
  unfold resolvePathsInSQL.
  rewrite (foldl_mapSet (λ p, resolvePath origin p options)); [done|].
  cbn. apply extracted_paths_are_quoted_data_files.
Qed.

(** ** The page: symbolic evaluation and case analysis *)

Ltac psimpl :=
  cbn [manager origin displayed embeds runs trace history act upd_embeds upd_runs
       observe on_embed load fst snd] in *.

Ltac unfold_page :=
  unfold Embedded_run, run_begin, run_continue, run_timer, run_settle, run_finish,
    run_loop, request.

Ltac page_cases a :=
  destruct a; cbn [pageStep]; unfold_page; psimpl;
  repeat (case_match; simplify_eq; psimpl).

Lemma pageRun_cons (a : PageAction) (sched : list PageAction) (pg : Page) :
  pageRun (a :: sched) pg = pageRun sched (pageStep a pg).
Proof. reflexivity. Qed.

Lemma pageRun_app (s1 s2 : list PageAction) (pg : Page) :
  pageRun (s1 ++ s2) pg = pageRun s2 (pageRun s1 pg).
Proof. apply fold_left_app. Qed.

Lemma pageRun_snoc (a : PageAction) (sched : list PageAction) (pg : Page) :
  pageRun (sched ++ [a]) pg = pageStep a (pageRun sched pg).
Proof. by rewrite pageRun_app. Qed.

(** An invariant of the page is proved step by step. *)
Lemma pageRun_ind (P : Page → Prop) (ok : PageAction → Prop) (pg : Page)
    (sched : list PageAction) :
  (∀ a pg, ok a → P pg → P (pageStep a pg)) →
  Forall ok sched → P pg → P (pageRun sched pg).
Proof.
  intros Hstep Hs. revert pg.
  induction Hs as [|a sched Ha _ IH]; intros pg H; [done|].
  rewrite pageRun_cons. apply IH. by apply Hstep.
Qed.

Lemma origin_pageStep (a : PageAction) (pg : Page) :
  origin (pageStep a pg) = origin pg ∧ displayed (pageStep a pg) = displayed pg.
Proof. page_cases a; done. Qed.

Lemma elem_of_snoc {A} (l : list A) (x : A) : x ∈ l ++ [x].
Proof. apply elem_of_app. right. by apply list_elem_of_singleton. Qed.

Lemma elem_of_snoc_l {A} (l : list A) (x y : A) : x ∈ l → x ∈ l ++ [y].
Proof. intros H. apply elem_of_app. by left. Qed.

(** ** The messages that the embeds show *)

Lemma errText_wrapped (e : Thrown) :
  is_wrapped e = true → is_wrapped (ErrObj (errText e)) = true.
Proof. by destruct e. Qed.

Lemma pageStep_caught_inv (a : PageAction) (pg : Page) :
  page_no_close a → caught_inv pg → caught_inv (pageStep a pg).
Proof.
  intros Ha (Hm & Hr & Ht).
  assert (Hthrew : ∀ t e, tasks (manager pg) !! t = Some (Done (Threw e)) →
                          is_wrapped (ErrObj (errText e)) = true).
  { intros t e H. apply errText_wrapped.
    destruct Hm as (Hm & _). exact (Forall_lookup_1 _ _ _ _ Hm H). }
  page_cases a; unfold caught_inv; psimpl.
  all: try done.
  all: split; [by repeat (apply step_errors_wrapped; [done|])|].
  all: split.
  all: repeat first [ apply Forall_app_2 | apply Forall_insert
                    | apply Forall_cons_2 | apply Forall_nil_2 ].
  all: try done.
  all: try (by eapply Hthrew).
  all: match goal with
       | H : runs _ !! _ = Some _ |- _ => exact (Forall_lookup_1 run_wrapped _ _ _ Hr H)
       end.
Qed.

(** Unless other code calls [close], a message that a run shows in
    the error box of its embed begins with one of the manager's own
    prefixes. *)
Theorem shown_errors_are_messages_of_the_manager
    (sched : list PageAction) (g : option nat) (o : string) (d : string → string)
    (r e : nat) (now : Z) (message : string) :
  Forall page_no_close sched →
  Finished r e now (Caught message) ∈ trace (pageRun sched (load g o d)) →
  ∃ p, p ∈ manager_prefixes ∧ String.prefix p message = true.
Proof.
  intros Hs Hf.
  assert (H : caught_inv (pageRun sched (load g o d))).
  { apply (pageRun_ind caught_inv page_no_close); [apply pageStep_caught_inv|done|].
    by repeat split. }
  destruct H as (_ & _ & H). rewrite Forall_forall in H. specialize (H _ Hf).
  destruct (is_wrapped_spec (ErrObj message) H) as (m & p & Hm & Hp & Hpre).
  injection Hm as <-. eauto.
Qed.


Lemma shown_errors_are_messages_of_the_manager_witness :
  ∃ p, p ∈ manager_prefixes
       ∧ String.prefix p
           (errText (initError (loadError (ErrObj "no package") (ErrObj "offline")))) = true.
Proof.
  apply (shown_errors_are_messages_of_the_manager example_page_import_fails None
           "https://site.example.org" (λ s, s) 0 0 200).
  - unfold example_page_import_fails. repeat constructor.
  - apply (list_elem_of_lookup_2 _ 3). vm_compute. reflexivity.
Defined.

(** ** The warnings of [configure] *)

Lemma step_no_warning (a : Action) (w : World) :
  match a with
  | ACall (CConfigure _) => db (mgr w) = None
  | ACall (CConfigureInitQueries _) => initQueriesExecuted (mgr w) = false
  | _ => True
  end →
  Forall (λ ev, is_warning ev = false) (log w) →
  Forall (λ ev, is_warning ev = false) (log (step a w)).
Proof.
  intros Ha Hl. step_cases a; try done.
  all: repeat (apply Forall_app_2; [|by repeat constructor]); done.
Qed.

Lemma isInitialized_false (w : World) : isInitialized w = false → db (mgr w) = None.
Proof.
  unfold isInitialized. intros H. apply bool_decide_eq_false in H.
  destruct (db (mgr w)) as [h|]; [|done]. exfalso. by apply H.
Qed.

Lemma pageStep_no_warning (a : PageAction) (pg : Page) :
  no_outside_configure a →
  Forall (λ ev, is_warning ev = false) (log (manager pg)) →
  Forall (λ ev, is_warning ev = false) (log (manager (pageStep a pg))).
Proof.
  intros Ha Hl. page_cases a; try done.
  all: repeat (apply step_no_warning; [try done|]); try done.
  all: try by apply isInitialized_false.
  by destruct a as [[]| | |].
Qed.

(** On a page where no other code calls [configure] or
    [configureInitQueries], the console never shows a warning of the
    manager: an embed configures the manager only while no engine instance
    exists. *)
Theorem embeds_never_configure_too_late
    (sched : list PageAction) (g : option nat) (o : string) (d : string → string)
    (msg : string) :
  Forall no_outside_configure sched →
  EWarn msg ∉ log (manager (pageRun sched (load g o d))).
Proof.
  intros Hs Hin.
  assert (H : Forall (λ ev, is_warning ev = false)
                (log (manager (pageRun sched (load g o d))))).
  { apply (pageRun_ind (λ pg, Forall (λ ev, is_warning ev = false) (log (manager pg)))
             no_outside_configure); [apply pageStep_no_warning|done|constructor]. }
  rewrite Forall_forall in H. by specialize (H _ Hin).
Qed.

Lemma embeds_never_configure_too_late_witness :
  EWarn "DuckDB already initialized, configuration will not take effect"
    ∉ log (manager (pageRun example_page_import_fails
                      (load None "https://site.example.org" (λ s, s)))).
Proof.
  apply (embeds_never_configure_too_late example_page_import_fails None
           "https://site.example.org" (λ s, s)).
  unfold example_page_import_fails. repeat constructor.
Defined.

(** ** How long an embed shows that it is loading *)

Lemma run_started_mono (tr l : list PageEvent) (r : nat) (t : RunTask) :
  run_started tr r t → run_started (tr ++ l) r t.
Proof.
  destruct t; cbn; try done.
  - intros H. apply elem_of_app. by left.
  - intros H. apply elem_of_app. by left.
  - intros (sql & st & H & Hd). exists sql, st. split; [|done]. apply elem_of_app. by left.
Qed.

Lemma event_started_mono (tr l : list PageEvent) (ev : PageEvent) :
  event_started tr ev → event_started (tr ++ l) ev.
Proof.
  destruct ev; cbn; try done.
  intros (sql & st & H & Hd). exists sql, st. split; [|done]. apply elem_of_app. by left.
Qed.

Lemma Forall_event_started_mono (tr l evs : list PageEvent) :
  Forall (event_started tr) evs → Forall (event_started (tr ++ l)) evs.
Proof. intros H. eapply Forall_impl; [exact H|]. intros ev. apply event_started_mono. Qed.

Lemma Forall_event_started_snoc (tr : list PageEvent) (ev : PageEvent) :
  Forall (event_started tr) tr → event_started (tr ++ [ev]) ev →
  Forall (event_started (tr ++ [ev])) (tr ++ [ev]).
Proof.
  intros H Hev. apply Forall_app_2; [by apply Forall_event_started_mono|].
  by repeat constructor.
Qed.

(** The readings of the clock in the hypotheses, as inequalities. *)
Ltac clock_facts :=
  repeat match goal with
         | H : (_ <? _)%Z = true |- _ => apply Z.ltb_lt in H
         | H : (_ <? _)%Z = false |- _ => apply Z.ltb_ge in H
         | H : (_ <=? _)%Z = true |- _ => apply Z.leb_le in H
         | H : (_ <=? _)%Z = false |- _ => apply Z.leb_gt in H
         end.

Lemma pageStep_loading_inv (a : PageAction) (pg : Page) :
  loading_inv pg → loading_inv (pageStep a pg).
Proof.
  intros (Hr & Ht).
  page_cases a; unfold loading_inv; psimpl.
  all: try done.
  all: clock_facts.
  all: try match goal with
           | H : runs _ !! ?r = Some ?t |- _ =>
             pose proof (Hr r t H) as Hold; cbn [run_started] in Hold
           end.
  all: split.
  all: try (intros r' t' Hl;
            first [ apply lookup_snoc_Some in Hl as [[_ Hl]|[-> <-]]
                  | apply list_lookup_insert_Some in Hl as [(<- & <- & _)|[_ Hl]] ];
            try (by repeat apply run_started_mono; eauto)).
  all: try (by repeat apply run_started_mono; eauto).
  all: try done.
  all: cbn [run_started].
  all: try (by eauto using elem_of_snoc, elem_of_snoc_l).
  all: repeat (apply Forall_event_started_snoc; [|cbn [event_started]; try done]).
  all: try done.
  all: try destruct Hold as (sql0 & st0 & Hold & Hdue).
  all: eexists _, _; (split; [first [exact Hold | apply elem_of_snoc_l, Hold]|lia]).
Qed.

(** A run that has finished was started at least 200 clock units
    before: the state of the embed is not set to success or to error, and
    no result or message is shown, before that time has passed. *)
Theorem a_run_lasts_at_least_200
    (sched : list PageAction) (g : option nat) (o : string) (d : string → string)
    (r e : nat) (now : Z) (res : RunResult) :
  Finished r e now res ∈ trace (pageRun sched (load g o d)) →
  ∃ sql startTime,
    Started r e sql startTime ∈ trace (pageRun sched (load g o d))
    ∧ (200 ≤ now - startTime)%Z.
Proof.
  intros Hf.
  assert (H : loading_inv (pageRun sched (load g o d))).
  { apply (pageRun_ind loading_inv (λ _, True)).
    - intros a pg _. apply pageStep_loading_inv.
    - by apply Forall_forall.
    - split; [by intros [|?] ? ?|constructor]. }
  destruct H as (_ & H). rewrite Forall_forall in H. specialize (H _ Hf).
  destruct H as (sql & st & H & Hd). exists sql, st. split; [done|lia].
Qed.

Lemma a_run_lasts_at_least_200_witness :
  ∃ sql startTime,
    Started 0 0 sql startTime
      ∈ trace (pageRun example_page_import_fails
                 (load None "https://site.example.org" (λ s, s)))
    ∧ (200 ≤ 200 - startTime)%Z.
Proof.
  apply (a_run_lasts_at_least_200 example_page_import_fails None
           "https://site.example.org" (λ s, s) 0 0 200
           (Caught (errText (initError (loadError (ErrObj "no package")
                                          (ErrObj "offline")))))).
  apply (list_elem_of_lookup_2 _ 3). vm_compute. reflexivity.
Defined.

(** ** The elements of an embed *)

Ltac em_crush :=
  repeat match goal with
         | em : Embedded |- _ => destruct em as [? ? [?|] [?|] [[]|] [[]|] [] []]
         end;
  unfold elements_ok, setState, showLoading, showError, showResult, showResetButton,
    Embedded_reset, Embedded_destroy, setCode, getCode, new_Embedded in *;
  cbn in *.

Lemma state_showLoading (em : Embedded) : state (showLoading em) = state em.
Proof. unfold showLoading. by destruct (outputElement em). Qed.

Lemma state_showError (m : string) (em : Embedded) : state (showError m em) = state em.
Proof. unfold showError. by destruct (outputElement em). Qed.

Lemma state_showResult (q : QueryResult) (em : Embedded) :
  state (showResult q em) = state em.
Proof. unfold showResult. by destruct (outputElement em). Qed.

Lemma state_showResetButton (em : Embedded) : state (showResetButton em) = state em.
Proof. unfold showResetButton. by destruct (resetButton em). Qed.

Lemma state_setState (st : EmbeddedState) (em : Embedded) : state (setState st em) = st.
Proof.
  unfold setState. cbn. by destruct (runButton em), (resetButton em).
Qed.

Lemma state_setCode (d : string → string) (c : string) (em : Embedded) :
  state (setCode d c em) = state em.
Proof. unfold setCode. by destruct (editorElement em). Qed.

Lemma state_destroy (em : Embedded) : state (Embedded_destroy em) = state em.
Proof. unfold Embedded_destroy. by destruct (destroyed em). Qed.

Lemma state_reset (d : string → string) (em : Embedded) :
  state (Embedded_reset d em) = StIdle.
Proof.
  unfold Embedded_reset.
  destruct em as [? ? [?|] [?|] [[]|] [[]|] ? ?]; reflexivity.
Qed.

Lemma elements_ok_new (d : string → string) (opts : EmbeddedOptions) (code : string) :
  elements_ok (new_Embedded d opts code).
Proof. unfold elements_ok. cbn. split; [by eexists|]. split; [by eexists|]. by eexists _, _. Qed.

Ltac elements_tac em :=
  unfold elements_ok, setState, showLoading, showError, showResult, showResetButton,
    Embedded_reset, Embedded_destroy, setCode;
  destruct em as [? ? [?|] [?|] [[]|] [[]|] ? []]; cbn;
  intros H; try done; repeat split; try (by eexists); try (by destruct_and?);
  try (destruct H as (_ & _ & run & reset & ? & ? & ? & ?); simplify_eq/=;
       by eexists _, _).

Lemma elements_ok_setState (st : EmbeddedState) (em : Embedded) :
  elements_ok em → elements_ok (setState st em).
Proof. elements_tac em. Qed.

Lemma elements_ok_showLoading (em : Embedded) :
  elements_ok em → elements_ok (showLoading em).
Proof. elements_tac em. Qed.

Lemma elements_ok_showError (m : string) (em : Embedded) :
  elements_ok em → elements_ok (showError m em).
Proof. elements_tac em. Qed.

Lemma elements_ok_showResult (q : QueryResult) (em : Embedded) :
  elements_ok em → elements_ok (showResult q em).
Proof. elements_tac em. Qed.

Lemma elements_ok_showResetButton (em : Embedded) :
  elements_ok em → elements_ok (showResetButton em).
Proof. elements_tac em. Qed.

Lemma elements_ok_reset (d : string → string) (em : Embedded) :
  elements_ok em → elements_ok (Embedded_reset d em).
Proof. elements_tac em. Qed.

Lemma elements_ok_destroy (em : Embedded) :
  elements_ok em → elements_ok (Embedded_destroy em).
Proof. elements_tac em. Qed.

Lemma elements_ok_setCode (d : string → string) (c : string) (em : Embedded) :
  elements_ok em → elements_ok (setCode d c em).
Proof. elements_tac em. Qed.

Lemma elements_ok_input (c : string) (em : Embedded) :
  elements_ok em →
  elements_ok match editorElement em with
              | Some _ => set_editorElement (Some c) em
              | None => em
              end.
Proof. elements_tac em. Qed.

Lemma pageStep_elements_ok (a : PageAction) (pg : Page) :
  Forall elements_ok (embeds pg) → Forall elements_ok (embeds (pageStep a pg)).
Proof.
  intros He.
  assert (Hem : ∀ e em, embeds pg !! e = Some em → elements_ok em)
    by (intros e em; apply (Forall_lookup_1 _ _ _ _ He)).
  page_cases a; try done.
  all: try (apply Forall_app_2; [done|]; repeat constructor; apply elements_ok_new).
  all: apply Forall_insert; [done|].
  all: eauto 8 using elements_ok_setState, elements_ok_showLoading, elements_ok_showError,
         elements_ok_showResult, elements_ok_showResetButton, elements_ok_reset,
         elements_ok_destroy, elements_ok_setCode, elements_ok_input.
  match goal with
  | H : editorElement ?em = Some _ |- elements_ok (set_editorElement (Some ?c) ?em) =>
    pose proof (elements_ok_input c em) as Hi; rewrite H in Hi; eauto
  end.
Qed.

(** ** One run at a time *)

Lemma flying_snoc (e : nat) (rs : list RunTask) (t : RunTask) :
  flying e (rs ++ [t]) = flying e rs + (if in_flight e t then 1 else 0).
Proof.
  unfold flying. rewrite List.filter_app, length_app. cbn.
  by destruct (in_flight e t).
Qed.

Lemma flying_insert (e r : nat) (rs : list RunTask) (t t' : RunTask) :
  rs !! r = Some t →
  flying e (<[r := t']> rs) + (if in_flight e t then 1 else 0)
  = flying e rs + (if in_flight e t' then 1 else 0).
Proof.
  unfold flying. revert r. induction rs as [|x rs IH]; intros [|r] H; try done.
  - injection H as ->. cbn. destruct (in_flight e t), (in_flight e t'); cbn; lia.
  - cbn. specialize (IH r H). destruct (in_flight e x); cbn; [by f_equal|done].
Qed.

Ltac use_lookups :=
  repeat match goal with
         | H : embeds ?p !! ?e = Some _ |- context [embeds ?p !! ?e] => rewrite H
         | H : embeds ?p !! ?e = None |- context [embeds ?p !! ?e] => rewrite H
         | H : embeds ?p !! ?e = Some _, H' : context [embeds ?p !! ?e] |- _ =>
           rewrite H in H'
         | H : embeds ?p !! ?e = None, H' : context [embeds ?p !! ?e] |- _ =>
           rewrite H in H'
         end.

Lemma state_input (c : string) (em : Embedded) :
  state match editorElement em with
        | Some _ => set_editorElement (Some c) em
        | None => em
        end = state em.
Proof. by destruct (editorElement em). Qed.

Ltac state_simpl :=
  rewrite ?state_showResetButton, ?state_showError, ?state_showResult,
    ?state_showLoading, ?state_setState, ?state_reset, ?state_destroy,
    ?state_setCode, ?state_input;
  cbn [state set_editorElement].

Lemma reset_button_enabled (em : Embedded) (b : Button) :
  elements_ok em → resetButton em = Some b →
  disabled b = bool_decide (state em = StLoading).
Proof.
  unfold elements_ok. destruct (destroyed em).
  - intros (_ & _ & _ & H) Hb. congruence.
  - intros (_ & _ & run & reset & _ & H & _ & Hd) Hb. congruence.
Qed.

Lemma flight_lookup (es : list Embedded) (e e' : nat) (em em' : Embedded) (n : nat) :
  es !! e = Some em →
  (e' = e → n = if bool_decide (state em' = StLoading) then 1 else 0) →
  (e' ≠ e → n = match es !! e' with
                | Some em => if bool_decide (state em = StLoading) then 1 else 0
                | None => 0
                end) →
  n = match <[e := em']> es !! e' with
      | Some em => if bool_decide (state em = StLoading) then 1 else 0
      | None => 0
      end.
Proof.
  intros He H1 H2. destruct (decide (e' = e)) as [->|Hne].
  - rewrite list_lookup_insert_eq by (by eapply lookup_lt_Some). by apply H1.
  - rewrite list_lookup_insert_ne by done. by apply H2.
Qed.

Lemma flight_lookup_snoc (es : list Embedded) (e' : nat) (em : Embedded) (n : nat) :
  state em ≠ StLoading →
  n = match es !! e' with
      | Some em => if bool_decide (state em = StLoading) then 1 else 0
      | None => 0
      end →
  n = match (es ++ [em]) !! e' with
      | Some em => if bool_decide (state em = StLoading) then 1 else 0
      | None => 0
      end.
Proof.
  intros Hst Hn. destruct (decide (e' < length es)) as [Hlt|Hge].
  - by rewrite lookup_app_l.
  - rewrite lookup_ge_None_2 in Hn by lia. rewrite lookup_app_r by lia.
    destruct (e' - length es) as [|k]; cbn; [|done].
    by rewrite bool_decide_eq_false_2.
Qed.

Lemma pageStep_flight_ok (a : PageAction) (pg : Page) :
  no_scripted_reset a →
  Forall elements_ok (embeds pg) →
  (∀ e, flight_ok pg e) → ∀ e, flight_ok (pageStep a pg) e.
Proof.
  intros Ha He Hf e'.
  assert (Hem : ∀ e em, embeds pg !! e = Some em → elements_ok em)
    by (intros e em; apply (Forall_lookup_1 _ _ _ _ He)).
  pose proof (Hf e') as Hf'.
  page_cases a; unfold flight_ok in *; psimpl; use_lookups.
  all: try done.
  all: try match goal with
           | |- context [match embeds ?p !! ?e with _ => _ end !! _] =>
             destruct (embeds p !! e) as [em0|] eqn:Hlk
           end.
  all: try match goal with
           | H : embeds _ !! _ = Some ?em, Hb : resetButton ?em = Some ?b |- _ =>
             pose proof (reset_button_enabled em b (Hem _ _ H) Hb) as Hen
           end.
  all: rewrite ?flying_snoc; cbn [in_flight].
  all: try match goal with
           | H : runs _ !! ?r = Some ?t |- context [flying ?e (<[?r := ?t']> _)] =>
             pose proof (flying_insert e r _ t t' H) as Hins; cbn [in_flight] in Hins
           end.
  all: try (by apply flight_lookup_snoc).
  all: try (eapply flight_lookup; [eassumption|intros ->|intros Hne]).
  all: state_simpl; use_lookups.
  all: repeat match goal with
              | H : bool_decide _ = _ |- _ => rewrite H in *
              end.
  all: repeat case_bool_decide; simplify_eq; use_lookups.
  all: repeat match goal with
              | H : bool_decide _ = _ |- _ => rewrite H in *
              end.
  all: repeat case_bool_decide; try done; try lia; try congruence.
Qed.

Lemma pageRun_elements_ok (sched : list PageAction) (g : option nat) (o : string)
    (d : string → string) :
  Forall elements_ok (embeds (pageRun sched (load g o d))).
Proof.
  apply (pageRun_ind (λ pg, Forall elements_ok (embeds pg)) (λ _, True)).
  - intros a pg _. apply pageStep_elements_ok.
  - by apply Forall_forall.
  - constructor.
Qed.

(** Unless a script calls [reset()], an embed has a call of [run]
    that has not finished exactly while it is in the loading state, and
    then it has only one; its Run and Reset buttons are disabled exactly
    in that state. *)
Theorem one_run_at_a_time_per_embed
    (sched : list PageAction) (g : option nat) (o : string) (d : string → string)
    (e : nat) (em : Embedded) :
  Forall no_scripted_reset sched →
  embeds (pageRun sched (load g o d)) !! e = Some em →
  flying e (runs (pageRun sched (load g o d)))
  = (if bool_decide (state em = StLoading) then 1 else 0)
  ∧ ∀ b, runButton em = Some b ∨ resetButton em = Some b →
         disabled b = bool_decide (state em = StLoading).
Proof.
  intros Hs Hem. split.
  - assert (H : Forall elements_ok (embeds (pageRun sched (load g o d)))
                ∧ ∀ e, flight_ok (pageRun sched (load g o d)) e).
    { apply (pageRun_ind (λ pg, Forall elements_ok (embeds pg) ∧ ∀ e, flight_ok pg e)
               no_scripted_reset); [|done|].
      - intros a pg Ha [H1 H2]. split; [by apply pageStep_elements_ok|].
        by apply pageStep_flight_ok.
      - split; [constructor|]. by intros [|?]. }
    destruct H as [_ H]. specialize (H e). unfold flight_ok in H. by rewrite Hem in H.
  - pose proof (Forall_lookup_1 _ _ _ _ (pageRun_elements_ok sched g o d) Hem) as Hok.
    unfold elements_ok in Hok. destruct (destroyed em).
    + destruct Hok as (_ & _ & H1 & H2). intros b [H|H]; congruence.
    + destruct Hok as (_ & _ & run & reset & H1 & H2 & H3 & H4).
      intros b [H|H]; congruence.
Qed.

Lemma one_run_at_a_time_per_embed_witness :
  flying 0 (runs (pageRun example_page_run_twice
                    (load None "https://site.example.org" (λ s, s)))) = 1
  ∧ ∀ b, runButton (showLoading (setState StLoading
                       (new_Embedded (λ s, s) example_options "SELECT 1"))) = Some b
         ∨ resetButton (showLoading (setState StLoading
                          (new_Embedded (λ s, s) example_options "SELECT 1"))) = Some b →
         disabled b = true.
Proof.
  apply (one_run_at_a_time_per_embed example_page_run_twice None
           "https://site.example.org" (λ s, s) 0
           (showLoading (setState StLoading
              (new_Embedded (λ s, s) example_options "SELECT 1")))).
  - unfold example_page_run_twice. repeat constructor.
  - vm_compute. reflexivity.
Defined.

(** ** After [destroy] *)

Lemma page_eq (p q : Page) :
  manager p = manager q → origin p = origin q → displayed p = displayed q →
  embeds p = embeds q → runs p = runs q → trace p = trace q →
  history p = history q → p = q.
Proof. destruct p, q; cbn; intros; by subst. Qed.

(** Calling [run()] on an embed after its [destroy()] does nothing:
    the manager is not called, nothing is shown and no state changes. *)
Theorem run_after_destroy_does_nothing
    (sched : list PageAction) (g : option nat) (o : string) (d : string → string)
    (e : nat) (em : Embedded) :
  embeds (pageRun sched (load g o d)) !! e = Some em →
  destroyed em = true →
  pageStep (PRun e) (pageRun sched (load g o d))
  = upd_runs (λ rs, rs ++ [Run_Done]) (pageRun sched (load g o d)).
Proof.
  intros Hem Hd.
  pose proof (Forall_lookup_1 _ _ _ _ (pageRun_elements_ok sched g o d) Hem) as Hok.
  unfold elements_ok in Hok. rewrite Hd in Hok. destruct Hok as (Hed & Hout & _ & _).
  cbn [pageStep]. unfold Embedded_run. rewrite Hem.
  destruct (bool_decide (state em = StLoading)); [done|].
  unfold getCode. rewrite Hed. cbn [default].
  change (isBlank "") with true. cbn iota.
  apply page_eq; try done. psimpl. rewrite Hem.
  unfold showError. rewrite Hout. by rewrite list_insert_id.
Qed.


Lemma run_after_destroy_does_nothing_witness :
  pageStep (PRun 0)
    (pageRun [PCreate example_options "SELECT 1"; PDestroy 0]
       (load None "https://site.example.org" (λ s, s)))
  = upd_runs (λ rs, rs ++ [Run_Done])
      (pageRun [PCreate example_options "SELECT 1"; PDestroy 0]
         (load None "https://site.example.org" (λ s, s))).
Proof.
  apply (run_after_destroy_does_nothing [PCreate example_options "SELECT 1"; PDestroy 0]
           None "https://site.example.org" (λ s, s) 0
           (Embedded_destroy (new_Embedded (λ s, s) example_options "SELECT 1"))).
  - reflexivity.
  - reflexivity.
Defined.

(** ** Settled tasks of the manager stay as they are *)

Lemma step_done_stable (a : Action) (w : World) (t : nat) (o : Outcome) :
  tasks w !! t = Some (Done o) → tasks (step a w) !! t = Some (Done o).
Proof.
  intros Ht. step_cases a.
  all: try done.
  all: repeat first [ rewrite list_lookup_insert_ne by congruence
                    | apply lookup_app_l_Some ].
  all: done.
Qed.

(** ** A later page *)

Lemma extends_refl (pg : Page) : extends pg pg.
Proof. repeat split; eauto. Qed.

Lemma extends_trans (p1 p2 p3 : Page) : extends p1 p2 → extends p2 p3 → extends p1 p3.
Proof.
  intros (A1 & A2 & A3 & A4) (B1 & B2 & B3 & B4).
  split; [congruence|]. split; [eauto|]. split; [|eauto].
  intros e em H. destruct (A3 e em H) as (em1 & H1 & Ho).
  destruct (B3 e em1 H1) as (em2 & H2 & Ho2). exists em2. split; [done|congruence].
Qed.

Lemma extends_act (a : Action) (pg : Page) : extends pg (act a pg).
Proof.
  repeat split; psimpl; eauto. intros t o. apply step_done_stable.
Qed.

Lemma extends_observe (ev : PageEvent) (pg : Page) : extends pg (observe ev pg).
Proof.
  repeat split; psimpl; eauto. intros ev' H. apply elem_of_app. by left.
Qed.

Lemma extends_upd_runs (f : list RunTask → list RunTask) (pg : Page) :
  extends pg (upd_runs f pg).
Proof. repeat split; psimpl; eauto. Qed.

Lemma extends_on_embed (e : nat) (f : Embedded → Embedded) (pg : Page) :
  (∀ em, options (f em) = options em) → extends pg (on_embed e f pg).
Proof.
  intros Hf. repeat split; psimpl; eauto.
  intros e' em H. destruct (embeds pg !! e) as [em0|] eqn:He; [|eauto].
  destruct (decide (e' = e)) as [->|Hne].
  - rewrite list_lookup_insert_eq by (by eapply lookup_lt_Some).
    eexists. split; [done|]. rewrite Hf. congruence.
  - rewrite list_lookup_insert_ne by done. eauto.
Qed.

Lemma extends_create (em : Embedded) (pg : Page) :
  extends pg (upd_embeds (λ es, es ++ [em]) pg).
Proof.
  repeat split; psimpl; eauto.
  intros e' em' H. exists em'. split; [|done]. by apply lookup_app_l_Some.
Qed.

Lemma options_setState st em : options (setState st em) = options em.
Proof. unfold setState. cbn. by destruct (runButton em), (resetButton em). Qed.

Lemma options_showLoading em : options (showLoading em) = options em.
Proof. unfold showLoading. by destruct (outputElement em). Qed.

Lemma options_showError m em : options (showError m em) = options em.
Proof. unfold showError. by destruct (outputElement em). Qed.

Lemma options_showResult q em : options (showResult q em) = options em.
Proof. unfold showResult. by destruct (outputElement em). Qed.

Lemma options_showResetButton em : options (showResetButton em) = options em.
Proof. unfold showResetButton. by destruct (resetButton em). Qed.

Lemma options_setCode d c em : options (setCode d c em) = options em.
Proof. unfold setCode. by destruct (editorElement em). Qed.

Lemma options_destroy em : options (Embedded_destroy em) = options em.
Proof. unfold Embedded_destroy. by destruct (destroyed em). Qed.

Lemma options_reset d em : options (Embedded_reset d em) = options em.
Proof.
  unfold Embedded_reset. destruct em as [? ? [?|] [?|] [[]|] [[]|] ? ?]; reflexivity.
Qed.

Lemma options_input c em :
  options match editorElement em with
          | Some _ => set_editorElement (Some c) em
          | None => em
          end = options em.
Proof. by destruct (editorElement em). Qed.

Ltac options_tac :=
  intros; rewrite ?options_showResetButton, ?options_showError, ?options_showResult,
            ?options_showLoading, ?options_setState, ?options_reset, ?options_destroy,
            ?options_setCode, ?options_input; try done.

(** ** The requests of a run *)

Lemma requests_of_app (r : nat) (l1 l2 : list PageEvent) :
  requests_of r (l1 ++ l2) = requests_of r l1 ++ requests_of r l2.
Proof. apply omap_app. Qed.

Lemma requests_of_snoc (r : nat) (l : list PageEvent) (ev : PageEvent) :
  requests_of r (l ++ [ev])
  = requests_of r l ++ match ev with
                       | Requested r' req => if decide (r' = r) then [req] else []
                       | _ => []
                       end.
Proof.
  rewrite requests_of_app. f_equal. destruct ev; try done.
  cbn. by destruct (decide _).
Qed.

Lemma elem_of_requests_of (r : nat) (req : Request) (l : list PageEvent) :
  req ∈ requests_of r l ↔ Requested r req ∈ l.
Proof.
  unfold requests_of. rewrite list_elem_of_omap. split.
  - intros (ev & Hin & Hev). destruct ev; try done.
    destruct (decide _) as [->|]; [|done]. by injection Hev as ->.
  - intros H. exists (Requested r req). split; [done|]. by rewrite decide_True.
Qed.

Lemma zip_with_snoc {A B C} (f : A → B → C) (l : list A) (ts : list B) (x : A) (t : B) :
  l !! length ts = Some x →
  zip_with f l (ts ++ [t]) = zip_with f l ts ++ [f x t].
Proof.
  revert l. induction ts as [|t0 ts IH]; intros [|y l] H; try done.
  - injection H as ->. by destruct l.
  - cbn in *. by rewrite (IH l H).
Qed.

Lemma drop_cons_inv {A} (n : nat) (l rest : list A) (x : A) :
  drop n l = x :: rest → l !! n = Some x ∧ rest = drop (S n) l.
Proof.
  intros H. assert (Hx : l !! n = Some x).
  { pose proof (lookup_drop l n 0) as Hl. rewrite H in Hl. cbn in Hl.
    by rewrite Nat.add_0_r in Hl. }
  split; [done|]. rewrite (drop_S _ _ _ Hx) in H. by injection H.
Qed.

Lemma drop_nil_inv {A} (n : nat) (l : list A) : drop n l = [] → (length l ≤ n)%nat.
Proof. intros H. pose proof (length_drop l n) as Hl. rewrite H in Hl. cbn in Hl. lia. Qed.

Lemma registrations_only (l : list (string * string)) (ts : list nat) (sql : string)
    (task : nat) :
  ReqQuery sql task ∉ zip_with registration l ts.
Proof.
  revert ts. induction l as [|x l IH]; intros [|t ts]; cbn; try (by apply not_elem_of_nil).
  intros H. apply elem_of_cons in H as [H|H]; [done|]. by apply (IH ts).
Qed.

Lemma returned_mono (pg pg' : Page) (ts : list nat) :
  extends pg pg' →
  Forall (returned (tasks (manager pg))) ts → Forall (returned (tasks (manager pg'))) ts.
Proof.
  intros (_ & _ & _ & H) Hts. eapply Forall_impl; [exact Hts|].
  intros t [v Hv]. exists v. by apply H.
Qed.

Lemma frame_queried (pg pg' : Page) (r : nat) (sql : string) (task : nat) :
  extends pg pg' → requests_of r (trace pg') = requests_of r (trace pg) →
  queried pg r sql task → queried pg' r sql task.
Proof.
  intros Hext Hreq (e & em & st & ts & H1 & H2 & H3 & H4 & H5).
  pose proof Hext as (Ho & Htr & Hem & Hts).
  destruct (Hem e em H2) as (em' & Hem' & Hopt).
  exists e, em', st, ts. rewrite Ho, Hopt, Hreq.
  split; [by apply Htr|]. split; [done|]. split; [done|]. split; [done|].
  by apply (returned_mono pg).
Qed.

Lemma frame_run_requests (pg pg' : Page) (r : nat) (t : RunTask) :
  extends pg pg' → requests_of r (trace pg') = requests_of r (trace pg) →
  run_requests pg r t → run_requests pg' r t.
Proof.
  intros Hext Hreq. destruct t; try done.
  intros (em & ts & H1 & H2 & H3 & H4 & H5 & H6).
  pose proof Hext as (Ho & Htr & Hem & Hts).
  destruct (Hem e em H2) as (em' & Hem' & Hopt).
  exists em', ts. rewrite Ho, Hopt, Hreq.
  split; [by apply Htr|]. split; [done|]. split; [done|]. split; [done|].
  split; [done|]. by apply (returned_mono pg).
Qed.

(** The invariant after a step in which only run [r] may have called the
    manager. *)
Lemma requests_inv_step (pg pg2 : Page) (f : list RunTask → list RunTask) (r : nat)
    (t : RunTask) :
  requests_inv pg →
  extends pg pg2 →
  (∀ r', r' ≠ r → requests_of r' (trace pg2) = requests_of r' (trace pg)) →
  (∀ r' t', r' ≠ r → f (runs pg2) !! r' = Some t' → runs pg !! r' = Some t') →
  f (runs pg2) !! r = Some t →
  (length (runs pg) ≤ length (f (runs pg2)))%nat →
  run_requests pg2 r t →
  (∀ sql task, ReqQuery sql task ∈ requests_of r (trace pg2) → queried pg2 r sql task) →
  requests_inv (upd_runs f pg2).
Proof.
  intros (I1 & I2 & I3) Hext Hreq Hruns Hr Hlen Ht Hq.
  assert (I1' : ∀ r', (length (runs pg) ≤ r')%nat → requests_of r' (trace pg) = []).
  { intros r' Hr'. destruct (requests_of r' (trace pg)) as [|req l] eqn:E; [done|].
    assert (Hin : req ∈ requests_of r' (trace pg)) by (rewrite E; left).
    apply elem_of_requests_of, I1 in Hin. lia. }
  split; [|split]; psimpl.
  - intros r' req Hin. apply elem_of_requests_of in Hin.
    destruct (decide (r' = r)) as [->|Hne]; [by eapply lookup_lt_Some|].
    rewrite Hreq in Hin by done.
    apply elem_of_requests_of, I1 in Hin. lia.
  - intros r' t' Hl. destruct (decide (r' = r)) as [->|Hne].
    + rewrite Hr in Hl. injection Hl as <-. exact Ht.
    + apply (frame_run_requests pg); [done|by apply Hreq|].
      apply I2. by apply Hruns.
  - intros r' sql task Hin. destruct (decide (r' = r)) as [->|Hne].
    + by apply Hq.
    + rewrite Hreq in Hin by done.
      apply (frame_queried pg); [done|by apply Hreq|]. by apply I3.
Qed.

(** The invariant after a step in which no run continued. *)
Lemma requests_inv_quiet (pg pg2 : Page) :
  requests_inv pg →
  extends pg pg2 →
  trace pg2 = trace pg → runs pg2 = runs pg →
  requests_inv pg2.
Proof.
  intros (I1 & I2 & I3) Hext Htr Hruns.
  split; [|split].
  - intros r req. rewrite Htr, Hruns. apply I1.
  - intros r t. rewrite Hruns. intros H.
    apply (frame_run_requests pg); [done|by rewrite Htr|]. by apply I2.
  - intros r sql task. rewrite Htr. intros H.
    apply (frame_queried pg); [done|by rewrite Htr|]. by apply I3.
Qed.

Lemma extends_run_finish (r e : nat) (res : RunResult) (pg : Page) :
  extends pg (run_finish r e res pg).
Proof.
  unfold run_finish. eapply extends_trans; [|apply extends_observe].
  apply extends_on_embed. intros em. destruct res; options_tac.
Qed.

Lemma run_settle_quiet (r e : nat) (startTime : Z) (res : RunResult) (pg : Page) :
  extends pg (run_settle r e startTime res pg).1
  ∧ (∀ r', requests_of r' (trace (run_settle r e startTime res pg).1)
           = requests_of r' (trace pg))
  ∧ runs (run_settle r e startTime res pg).1 = runs pg
  ∧ ∀ pgx, run_requests pgx r (run_settle r e startTime res pg).2.
Proof.
  unfold run_settle. case_match; cbn [fst snd].
  - split; [apply extends_refl|]. done.
  - split; [apply extends_run_finish|]. unfold run_finish. psimpl.
    split; [|done]. intros r'. rewrite requests_of_snoc. by rewrite app_nil_r.
Qed.

Lemma run_loop_requests (r e : nat) (sql : string) (startTime : Z)
    (rest : list (string * string)) (pg : Page) (em : Embedded) (ts : list nat) :
  Started r e sql startTime ∈ trace pg →
  embeds pg !! e = Some em →
  requests_of r (trace pg)
  = zip_with registration (pathMapOf (origin pg) (options em) sql) ts →
  rest = drop (length ts) (pathMapOf (origin pg) (options em) sql) →
  (length ts ≤ length (pathMapOf (origin pg) (options em) sql))%nat →
  Forall (returned (tasks (manager pg))) ts →
  extends pg (run_loop r e sql startTime rest pg).1
  ∧ (∀ r', r' ≠ r →
       requests_of r' (trace (run_loop r e sql startTime rest pg).1)
       = requests_of r' (trace pg))
  ∧ runs (run_loop r e sql startTime rest pg).1 = runs pg
  ∧ run_requests (run_loop r e sql startTime rest pg).1 r
      (run_loop r e sql startTime rest pg).2
  ∧ (∀ sql' task,
       ReqQuery sql' task ∈ requests_of r (trace (run_loop r e sql startTime rest pg).1) →
       queried (run_loop r e sql startTime rest pg).1 r sql' task).
Proof.
  intros Hst Hem Hreq Hrest Hlen Hret.
  unfold run_loop, request. destruct rest as [|[p u] rest]; cbn [fst snd].
  - symmetry in Hrest. apply drop_nil_inv in Hrest.
    split. { eapply extends_trans; [apply extends_act|apply extends_observe]. }
    split. { intros r' Hne. psimpl. rewrite requests_of_snoc. rewrite decide_False by done.
             by rewrite app_nil_r. }
    split; [done|]. split; [done|].
    intros sql' task Hin. psimpl. rewrite requests_of_snoc, decide_True in Hin by done.
    rewrite Hreq in Hin. apply elem_of_app in Hin as [Hin|Hin].
    { by apply registrations_only in Hin. }
    apply list_elem_of_singleton in Hin. injection Hin as -> ->.
    exists e, em, startTime, ts. psimpl.
    split; [by apply elem_of_snoc_l|]. split; [done|].
    split. { rewrite requests_of_snoc, decide_True by done. by rewrite Hreq. }
    split; [lia|].
    eapply Forall_impl; [exact Hret|]. intros t [v Hv]. exists v.
    by apply step_done_stable.
  - symmetry in Hrest. apply drop_cons_inv in Hrest as [Hlk ->].
    split. { eapply extends_trans; [apply extends_act|apply extends_observe]. }
    split. { intros r' Hne. psimpl. rewrite requests_of_snoc. rewrite decide_False by done.
             by rewrite app_nil_r. }
    split; [done|]. split.
    + exists em, ts. psimpl.
      split; [by apply elem_of_snoc_l|]. split; [done|].
      split. { rewrite requests_of_snoc, decide_True by done. rewrite Hreq.
               by rewrite (zip_with_snoc _ _ _ _ _ Hlk). }
      split; [done|]. split; [by eapply lookup_lt_Some|].
      eapply Forall_impl; [exact Hret|]. intros t [v Hv]. exists v.
      by apply step_done_stable.
    + intros sql' task Hin. psimpl.
      rewrite requests_of_snoc, decide_True in Hin by done.
      rewrite Hreq in Hin. apply elem_of_app in Hin as [Hin|Hin].
      { by apply registrations_only in Hin. }
      by apply list_elem_of_singleton in Hin.
Qed.

Lemma requests_inv_insert (pg pg2 : Page) (r : nat) (t t0 : RunTask) :
  requests_inv pg →
  runs pg !! r = Some t0 →
  extends pg pg2 →
  (∀ r', r' ≠ r → requests_of r' (trace pg2) = requests_of r' (trace pg)) →
  runs pg2 = runs pg →
  run_requests pg2 r t →
  (∀ sql task, ReqQuery sql task ∈ requests_of r (trace pg2) → queried pg2 r sql task) →
  requests_inv (upd_runs (<[r := t]>) pg2).
Proof.
  intros Hinv Hr Hext Hreq Hruns Ht Hq.
  apply (requests_inv_step pg pg2 _ r t); try done; rewrite Hruns.
  - intros r' t' Hne. by rewrite list_lookup_insert_ne.
  - apply list_lookup_insert_eq. by eapply lookup_lt_Some.
  - by rewrite length_insert.
Qed.

Lemma requests_inv_snoc (pg pg2 : Page) (t : RunTask) :
  requests_inv pg →
  extends pg pg2 →
  (∀ r', r' ≠ length (runs pg) →
         requests_of r' (trace pg2) = requests_of r' (trace pg)) →
  runs pg2 = runs pg →
  run_requests pg2 (length (runs pg)) t →
  (∀ sql task, ReqQuery sql task ∈ requests_of (length (runs pg)) (trace pg2) →
               queried pg2 (length (runs pg)) sql task) →
  requests_inv (upd_runs (λ rs, rs ++ [t]) pg2).
Proof.
  intros Hinv Hext Hreq Hruns Ht Hq.
  apply (requests_inv_step pg pg2 _ (length (runs pg)) t); try done; rewrite Hruns.
  - intros r' t' Hne Hl. apply lookup_app_Some in Hl as [Hl|[Hge Hl]]; [done|].
    apply list_lookup_singleton_Some in Hl as [Hl _]. lia.
  - by apply list_lookup_middle.
  - rewrite length_app. lia.
Qed.

Lemma requests_of_fresh (pg : Page) (r : nat) :
  requests_inv pg → (length (runs pg) ≤ r)%nat → requests_of r (trace pg) = [].
Proof.
  intros (I1 & _ & _) Hr. destruct (requests_of r (trace pg)) as [|req l] eqn:E; [done|].
  assert (Hin : req ∈ requests_of r (trace pg)) by (rewrite E; left).
  apply elem_of_requests_of, I1 in Hin. lia.
Qed.

(** A run that made no call in this step, and does not await a
    registration after it. *)
Lemma requests_inv_insert_quiet (pg pg2 : Page) (r : nat) (t t0 : RunTask) :
  requests_inv pg →
  runs pg !! r = Some t0 →
  extends pg pg2 →
  (∀ r', requests_of r' (trace pg2) = requests_of r' (trace pg)) →
  runs pg2 = runs pg →
  (∀ pgx, run_requests pgx r t) →
  requests_inv (upd_runs (<[r := t]>) pg2).
Proof.
  intros Hinv Hr Hext Hreq Hruns Ht.
  apply (requests_inv_insert pg pg2 r t t0); try done.
  intros sql task Hin. rewrite Hreq in Hin.
  apply (frame_queried pg); [done|by apply Hreq|].
  destruct Hinv as (_ & _ & I3). by apply I3.
Qed.

Lemma run_begin_quiet (r e : nat) (em : Embedded) (sql : string) (pg : Page) :
  extends pg (run_begin r e em sql pg).1
  ∧ (∀ r', requests_of r' (trace (run_begin r e em sql pg).1)
           = requests_of r' (trace pg))
  ∧ runs (run_begin r e em sql pg).1 = runs pg
  ∧ Started r e sql (run_begin r e em sql pg).2 ∈ trace (run_begin r e em sql pg).1.
Proof.
  unfold run_begin. cbn [fst snd].
  set (pg0 := on_embed e (λ em0, showLoading (setState StLoading em0)) pg).
  set (pg1 := observe (Started r e sql (clock (manager pg0))) pg0).
  assert (H0 : extends pg pg0) by (apply extends_on_embed; options_tac).
  assert (H1 : extends pg pg1) by (eapply extends_trans; [exact H0|apply extends_observe]).
  assert (R1 : ∀ r', requests_of r' (trace pg1) = requests_of r' (trace pg)).
  { intros r'. unfold pg1, pg0. psimpl. rewrite requests_of_snoc. by rewrite app_nil_r. }
  assert (S1 : Started r e sql (clock (manager pg0)) ∈ trace pg1).
  { unfold pg1. psimpl. apply elem_of_snoc. }
  destruct (isInitialized (manager pg1)).
  - done.
  - split. { eapply extends_trans; [exact H1|].
             eapply extends_trans; [apply extends_act|apply extends_observe]. }
    split. { intros r'. psimpl. rewrite requests_of_snoc, app_nil_r. apply R1. }
    split; [done|]. psimpl. by apply elem_of_snoc_l.
Qed.

Lemma pageStep_requests_inv (a : PageAction) (pg : Page) :
  requests_inv pg → requests_inv (pageStep a pg).
Proof.
  intros Hinv. destruct a as [a|opts code|e|e|e|e|e|e code|e|r|r]; cbn [pageStep].
  - (* the manager's world *)
    apply (requests_inv_quiet pg); [done|apply extends_act|done|done].
  - (* an embed is constructed *)
    apply (requests_inv_quiet pg); [done|apply extends_create|done|done].
  - (* run() *)
    unfold Embedded_run.
    destruct (embeds pg !! e) as [em|] eqn:Hem.
    2:{ apply (requests_inv_snoc pg); try done; [apply extends_refl|].
        intros sql task Hin. rewrite requests_of_fresh in Hin by done.
        by apply not_elem_of_nil in Hin. }
    destruct (bool_decide (state em = StLoading)).
    { apply (requests_inv_snoc pg); try done; [apply extends_refl|].
      intros sql task Hin. rewrite requests_of_fresh in Hin by done.
      by apply not_elem_of_nil in Hin. }
    destruct (isBlank (getCode em)).
    { apply (requests_inv_snoc pg); try done.
      - apply extends_on_embed. options_tac.
      - intros sql task Hin. psimpl. rewrite requests_of_fresh in Hin by done.
        by apply not_elem_of_nil in Hin. }
    destruct (run_begin (length (runs pg)) e em (getCode em) pg) as [pg1 startTime] eqn:E.
    pose proof (run_begin_quiet (length (runs pg)) e em (getCode em) pg) as (B1 & B2 & B3 & B4).
    rewrite E in B1, B2, B3, B4. cbn [fst snd] in B1, B2, B3, B4.
    pose proof B1 as (Ho & _ & Hems & _).
    destruct (Hems e em Hem) as (em1 & Hem1 & Hopt).
    pose proof (run_loop_requests (length (runs pg)) e (getCode em) startTime
                  (resolvePathsInSQL (origin pg1) (getCode em)
                     {| baseUrl := baseUrl' (options em) |}) pg1 em1 [] B4 Hem1)
      as (L1 & L2 & L3 & L4 & L5).
    { rewrite B2. rewrite requests_of_fresh by done. by destruct (pathMapOf _ _ _). }
    { by rewrite Hopt. }
    { cbn. lia. }
    { constructor. }
    destruct (run_loop _ _ _ _ _ _) as [pg2 t]. cbn [fst snd] in L1, L2, L3, L4, L5.
    apply (requests_inv_snoc pg); try done.
    + by eapply extends_trans.
    + intros r' Hne. rewrite L2 by done. apply B2.
    + congruence.
  - (* the Reset button *)
    repeat case_match; try done.
    apply (requests_inv_quiet pg); [done| |done|done].
    apply extends_on_embed. options_tac.
  - (* Ctrl+Backspace *)
    repeat case_match; try done.
    apply (requests_inv_quiet pg); [done| |done|done].
    apply extends_on_embed. options_tac.
  - (* reset() *)
    apply (requests_inv_quiet pg); [done| |done|done].
    apply extends_on_embed. options_tac.
  - (* destroy() *)
    apply (requests_inv_quiet pg); [done| |done|done].
    apply extends_on_embed. options_tac.
  - (* the user types *)
    apply (requests_inv_quiet pg); [done| |done|done].
    apply extends_on_embed. options_tac.
  - (* updateEditor *)
    apply (requests_inv_quiet pg); [done| |done|done].
    apply extends_on_embed. options_tac.
  - (* a run continues *)
    unfold run_continue.
    destruct (runs pg !! r) as [[e sql startTime rest task|e sql startTime task| |]|] eqn:Hr;
      try done.
    + destruct (tasks (manager pg) !! task) as [[| | | | | | | | | | | | | | | |[v|err]]|] eqn:Ht;
        try done.
      * (* the registration returned *)
        pose proof Hinv as (_ & I2 & _).
        destruct (I2 r _ Hr) as (em & ts & H1 & H2 & H3 & H4 & H5 & H6).
        pose proof (run_loop_requests r e sql startTime rest pg em (ts ++ [task]) H1 H2 H3)
          as (L1 & L2 & L3 & L4 & L5).
        { rewrite length_app. cbn [length]. by rewrite Nat.add_1_r. }
        { rewrite length_app. cbn [length]. lia. }
        { apply Forall_app_2; [done|]. repeat constructor. by exists v. }
        destruct (run_loop _ _ _ _ _ _) as [pg2 t]. cbn [fst snd] in L1, L2, L3, L4, L5.
        by apply (requests_inv_insert pg pg2 r t _ Hinv Hr).
      * (* the registration failed *)
        pose proof (run_settle_quiet r e startTime (Caught (errText err)) pg)
          as (S1 & S2 & S3 & S4).
        destruct (run_settle _ _ _ _ _) as [pg2 t]. cbn [fst snd] in S1, S2, S3, S4.
        by apply (requests_inv_insert_quiet pg pg2 r t _ Hinv Hr).
    + destruct (tasks (manager pg) !! task) as [[| | | | | | | | | | | | | | | |[[| |result]|err]]|] eqn:Ht;
        try done.
      * pose proof (run_settle_quiet r e startTime (Shown result) pg)
          as (S1 & S2 & S3 & S4).
        destruct (run_settle _ _ _ _ _) as [pg2 t]. cbn [fst snd] in S1, S2, S3, S4.
        by apply (requests_inv_insert_quiet pg pg2 r t _ Hinv Hr).
      * pose proof (run_settle_quiet r e startTime (Caught (errText err)) pg)
          as (S1 & S2 & S3 & S4).
        destruct (run_settle _ _ _ _ _) as [pg2 t]. cbn [fst snd] in S1, S2, S3, S4.
        by apply (requests_inv_insert_quiet pg pg2 r t _ Hinv Hr).
  - (* the timer of a run *)
    unfold run_timer.
    destruct (runs pg !! r) as [[| |e res due|]|] eqn:Hr; try done.
    case_match; [|done].
    apply (requests_inv_insert_quiet pg _ r Run_Done _ Hinv Hr); try done.
    + apply extends_run_finish.
    + intros r'. unfold run_finish. psimpl. rewrite requests_of_snoc. by rewrite app_nil_r.
Qed.

Lemma pageRun_requests_inv (sched : list PageAction) (g : option nat) (o : string)
    (d : string → string) :
  requests_inv (pageRun sched (load g o d)).
Proof.
  apply (pageRun_ind requests_inv (λ _, True)).
  - intros a pg _. apply pageStep_requests_inv.
  - by apply Forall_forall.
  - split; [|split].
    + intros r req H. by apply not_elem_of_nil in H.
    + by intros [|?] ? ?.
    + intros r sql task H. by apply not_elem_of_nil in H.
Qed.

Lemma pageRun_origin (sched : list PageAction) (pg : Page) :
  origin (pageRun sched pg) = origin pg.
Proof.
  revert pg. induction sched as [|a sched IH]; intros pg; [done|].
  rewrite pageRun_cons, IH. apply origin_pageStep.
Qed.

(** When a run calls [query], it has called [registerFile] once for
    each entry of the path map of the text it read from the editor, in the
    order of the map and under the last segment of the path, every one of
    these calls has returned, and apart from [configure] it has asked
    nothing else of the manager. *)
Theorem query_follows_the_registration_of_its_files
    (sched : list PageAction) (g : option nat) (o : string) (d : string → string)
    (r : nat) (sql : string) (task : nat) :
  Requested r (ReqQuery sql task) ∈ trace (pageRun sched (load g o d)) →
  ∃ e em startTime ts,
    Started r e sql startTime ∈ trace (pageRun sched (load g o d))
    ∧ embeds (pageRun sched (load g o d)) !! e = Some em
    ∧ requests_of r (trace (pageRun sched (load g o d)))
      = zip_with registration
          (resolvePathsInSQL o sql {| baseUrl := baseUrl' (options em) |}) ts
        ++ [ReqQuery sql task]
    ∧ length ts
      = length (resolvePathsInSQL o sql {| baseUrl := baseUrl' (options em) |})
    ∧ Forall (returned (tasks (manager (pageRun sched (load g o d))))) ts.
Proof.
  intros Hin. apply elem_of_requests_of in Hin.
  destruct (pageRun_requests_inv sched g o d) as (_ & _ & I3).
  destruct (I3 r sql task Hin) as (e & em & st & ts & H1 & H2 & H3 & H4 & H5).
  rewrite pageRun_origin in H3, H4. by exists e, em, st, ts.
Qed.

Lemma query_follows_the_registration_of_its_files_witness :
  ∃ e em startTime ts,
    Started 0 e "SELECT * FROM 'data/sales.parquet'" startTime
      ∈ trace (pageRun example_page_file (load None "https://site.example.org" (λ s, s)))
    ∧ embeds (pageRun example_page_file (load None "https://site.example.org" (λ s, s)))
        !! e = Some em
    ∧ requests_of 0
        (trace (pageRun example_page_file (load None "https://site.example.org" (λ s, s))))
      = zip_with registration
          (resolvePathsInSQL "https://site.example.org"
             "SELECT * FROM 'data/sales.parquet'" {| baseUrl := baseUrl' (options em) |}) ts
        ++ [ReqQuery "SELECT * FROM 'data/sales.parquet'" 3]
    ∧ length ts
      = length (resolvePathsInSQL "https://site.example.org"
                  "SELECT * FROM 'data/sales.parquet'"
                  {| baseUrl := baseUrl' (options em) |})
    ∧ Forall (returned (tasks (manager (pageRun example_page_file
                (load None "https://site.example.org" (λ s, s)))))) ts.
Proof.
  apply (query_follows_the_registration_of_its_files example_page_file None
           "https://site.example.org" (λ s, s) 0).
  apply (list_elem_of_lookup_2 _ 3). vm_compute. reflexivity.
Defined.

(** ** The name under which a file is registered *)

Lemma split_spec (sep : Ascii.ascii) (s cur : list Ascii.ascii) :
  sep ∉ cur →
  ∃ pre piece,
    last (split sep s cur) = Some piece
    ∧ cur ++ s = pre ++ piece
    ∧ (sep ∉ piece)
    ∧ (pre = [] ∨ ∃ pre', pre = pre' ++ [sep]).
Proof.
  revert cur. induction s as [|x s IH]; intros cur Hcur.
  - exists [], cur. cbn. rewrite app_nil_r. by repeat split; [|left].
  - cbn [split]. destruct (Ascii.eqb x sep) eqn:Hx.
    + apply Ascii.eqb_eq in Hx as ->.
      destruct (IH []) as (pre & piece & Hl & Heq & Hn & Hc); [apply not_elem_of_nil|].
      cbn in Heq. subst s.
      exists (cur ++ sep :: pre), piece. split.
      { destruct (split sep (pre ++ piece) []) eqn:E; [done|]. exact Hl. }
      split; [by rewrite <- app_assoc|]. split; [done|]. right.
      destruct Hc as [->|[pre' ->]].
      * by exists cur.
      * exists (cur ++ sep :: pre'). by rewrite <- app_assoc.
    + apply Ascii.eqb_neq in Hx.
      destruct (IH (cur ++ [x])) as (pre & piece & Hl & Heq & Hn & Hc).
      { intros H. apply elem_of_app in H as [H|H]; [done|].
        apply list_elem_of_singleton in H. congruence. }
      exists pre, piece. split; [done|]. split; [|done].
      by rewrite <- app_assoc in Heq.
Qed.

(** The name under which [run] registers a file is the part of the
    path after its last slash: it has no slash, the path ends with it, and
    what comes before it is empty or ends with a slash. For a path with a
    slash the name is therefore not the path that the statement
    mentions. *)
Theorem fileName_is_the_last_segment (path : string) :
  ∃ pre,
    path = pre +:+ fileName path
    ∧ (charOf "/" ∉ chars (fileName path))
    ∧ (pre = "" ∨ ∃ pre', pre = pre' +:+ "/")
    ∧ (charOf "/" ∈ chars path → fileName path ≠ path).
Proof.
  unfold fileName.
  destruct (split_spec (charOf "/") (chars path) []) as (pre & piece & Hl & Heq & Hn & Hc);
    [apply not_elem_of_nil|].
  rewrite Hl. cbn [app] in Heq. exists (str pre).
  split. { rewrite <- str_app, <- Heq. by rewrite str_chars. }
  rewrite chars_str.
  split; [done|]. split.
  - destruct Hc as [->|[pre' ->]]; [by left|]. right. exists (str pre').
    by rewrite str_app.
  - intros Hin Hsame. apply Hn. rewrite <- Hsame in Hin. by rewrite chars_str in Hin.
Qed.

(** ** The statement that a call of [query] sends *)

Lemma user_stmts_snoc (t : nat) (l : list Event) (ev : Event) :
  user_stmts t (l ++ [ev])
  = user_stmts t l ++ match ev with
                      | EQuery _ (User t') sql => if decide (t' = t) then [sql] else []
                      | _ => []
                      end.
Proof.
  unfold user_stmts. rewrite omap_app. f_equal. destruct ev as [| | | | | | | | |c [i|t'] sql| | | | | |]; try done.
  cbn. by destruct (decide _).
Qed.

Lemma step_tasks_length (a : Action) (w : World) :
  (length (tasks w) ≤ length (tasks (step a w)))%nat.
Proof.
  step_cases a.
  all: rewrite ?length_insert, ?length_app; cbn [length]; lia.
Qed.

Lemma step_stmts_fresh (a : Action) (w : World) :
  stmts_fresh w → stmts_fresh (step a w).
Proof.
  intros Hf t Ht. pose proof (step_tasks_length a w) as Hlen.
  assert (Hw : user_stmts t (log w) = []) by (apply Hf; lia).
  clear Hlen. revert Ht. step_cases a; intros Ht.
  all: rewrite ?user_stmts_snoc, ?Hw; cbn [app]; try done.
  all: rewrite length_insert in Ht.
  all: match goal with
       | H : tasks _ !! ?i = Some _ |- _ => apply lookup_lt_Some in H
       end.
  all: rewrite decide_False by lia; done.
Qed.

Lemma log_step (a : Action) (w : World) : ∀ ev, ev ∈ log w → ev ∈ log (step a w).
Proof.
  intros ev Hev. step_cases a; try done.
  all: repeat apply elem_of_snoc_l; done.
Qed.

(** A step of another task leaves a task and its statements as they
    are. *)
Lemma step_other_task (a : Action) (w : World) (t : nat) :
  match a with
  | AWake t' | AResume t' _ => t' ≠ t
  | _ => True
  end →
  (t < length (tasks w))%nat →
  tasks (step a w) !! t = tasks w !! t
  ∧ user_stmts t (log (step a w)) = user_stmts t (log w).
Proof.
  intros Ha Ht. step_cases a.
  all: rewrite ?user_stmts_snoc; cbn [app]; rewrite ?app_nil_r.
  all: rewrite ?(decide_False (P := _ = t)) by done; rewrite ?app_nil_r.
  all: rewrite ?list_lookup_insert_ne by done.
  all: rewrite ?lookup_app_l by (rewrite ?length_app; lia).
  all: done.
Qed.

Lemma query_call_frame (sql : string) (w w' : World) (t : nat) :
  tasks w' !! t = tasks w !! t →
  user_stmts t (log w') = user_stmts t (log w) →
  (∀ ev, ev ∈ log w → ev ∈ log w') →
  query_call sql w t → query_call sql w' t.
Proof.
  unfold query_call. intros -> -> Hl.
  destruct (tasks w !! t) as [[| | | | | | | | | | | | | | | |[[| |]|]]|]; try done.
  intros [H1 H2]. split; [done|]. by apply Hl.
Qed.

Lemma step_query_call (sql : string) (t : nat) (a : Action) (w : World) :
  (t < length (tasks w))%nat →
  query_call sql w t → query_call sql (step a w) t.
Proof.
  intros Ht Hq.
  assert (Hother : match a with
                   | AWake t' | AResume t' _ => t' ≠ t
                   | _ => True
                   end → query_call sql (step a w) t).
  { intros Ha. destruct (step_other_task a w t Ha Ht) as [H1 H2].
    apply (query_call_frame sql w); [done|done|apply log_step|done]. }
  destruct a as [c|t'|t' r|now]; try (by apply Hother).
  - destruct (decide (t' = t)) as [->|Hne]; [|by apply Hother]. clear Hother.
    destruct (tasks w !! t) as [y|] eqn:Hl; [|by unfold query_call in Hq; rewrite Hl in Hq].
    unfold query_call in Hq. rewrite Hl in Hq.
    cbn [step]. unfold wake. rewrite Hl.
    destruct y as [| | | | | | | | |s wt|s wt|s st| | | | |o]; try done.
    all: try (by unfold query_call; rewrite Hl).
    all: destruct Hq as [-> Hq].
    all: unfold_step; repeat case_match; simplify_eq; wsimpl.
    all: unfold query_call; wsimpl.
    all: rewrite ?Hl; try done.
    all: rewrite ?list_lookup_insert_eq by (rewrite ?length_app; lia); cbn.
    all: rewrite ?user_stmts_snoc; cbn [app]; rewrite ?app_nil_r.
    all: rewrite ?decide_True by done.
    all: rewrite ?Hq; try done.
  - destruct (decide (t' = t)) as [->|Hne]; [|by apply Hother]. clear Hother.
    destruct (tasks w !! t) as [y|] eqn:Hl; [|by unfold query_call in Hq; rewrite Hl in Hq].
    unfold query_call in Hq. rewrite Hl in Hq.
    cbn [step]. unfold resume. rewrite Hl.
    destruct y as [| | | | | | | | |s wt|s wt|s st| | | | |o]; try done.
    all: try (by unfold query_call; rewrite Hl).
    destruct Hq as [-> Hq].
    destruct r as [[| | | |table]|err].
    all: unfold query_call; wsimpl.
    all: rewrite ?Hl; try done.
    all: rewrite ?list_lookup_insert_eq by (rewrite ?length_app; lia); cbn.
    all: rewrite ?user_stmts_snoc; cbn [app]; rewrite ?app_nil_r.
    all: try done.
    split; [done|]. apply elem_of_snoc.
Qed.

Lemma call_query_call (sql : string) (w : World) :
  stmts_fresh w →
  query_call sql (step (ACall (CQuery sql)) w)
    (length (tasks (step (ACall (CQuery sql)) w)) - 1).
Proof.
  intros Hf. cbn [step call]. unfold_step. repeat case_match; simplify_eq; wsimpl.
  all: unfold query_call; wsimpl.
  all: rewrite ?length_app; cbn [length].
  all: rewrite ?user_stmts_snoc; cbn [app]; rewrite ?app_nil_r.
  all: rewrite ?Hf by lia.
  all: repeat match goal with
              | |- context [(?l ++ [?x]) !! ?i] =>
                replace i with (length l) by (rewrite ?length_app; cbn [length]; lia);
                rewrite (list_lookup_middle l [] x) by done
              end.
  all: done.
Qed.

Lemma run_tasks_length (l : list Action) (w : World) :
  (length (tasks w) ≤ length (tasks (run l w)))%nat.
Proof.
  revert w. induction l as [|a l IH]; intros w; [done|].
  rewrite run_cons. pose proof (step_tasks_length a w). pose proof (IH (step a w)). lia.
Qed.

Lemma run_query_call (sql : string) (t : nat) (l : list Action) (w : World) :
  (t < length (tasks w))%nat → query_call sql w t → query_call sql (run l w) t.
Proof.
  revert w. induction l as [|a l IH]; intros w Ht Hq; [done|].
  rewrite run_cons. apply IH; [|by apply step_query_call].
  pose proof (step_tasks_length a w). lia.
Qed.

Lemma run_stmts_fresh (l : list Action) (w : World) :
  stmts_fresh w → stmts_fresh (run l w).
Proof.
  revert w. induction l as [|a l IH]; intros w H; [done|].
  rewrite run_cons. apply IH. by apply step_stmts_fresh.
Qed.

Lemma run_done_stable (l : list Action) (w : World) (t : nat) (o : Outcome) :
  tasks w !! t = Some (Done o) → tasks (run l w) !! t = Some (Done o).
Proof.
  revert w. induction l as [|a l IH]; intros w H; [done|].
  rewrite run_cons. apply IH. by apply step_done_stable.
Qed.

(** ** A page later on *)

Lemma pageStep_later (a : PageAction) (pg : Page) : later pg (pageStep a pg).
Proof.
  page_cases a; split.
  all: try (intros ev Hev; by repeat apply elem_of_snoc_l).
  all: try (by exists []).
  all: try (by eexists [_]).
  all: try (by eexists [_; _]).
Qed.

Lemma shown_ok_later (pg pg' : Page) (r e : nat) (result : QueryResult) :
  later pg pg' → shown_ok pg r e result → shown_ok pg' r e result.
Proof.
  intros (Htr & l & Hl) (sql & st & task & H1 & H2 & H3 & H4).
  exists sql, st, task. rewrite Hl.
  split; [by apply Htr|]. split; [by apply Htr|].
  split; [by apply run_done_stable|].
  apply run_query_call; [by eapply lookup_lt_Some|done].
Qed.

Lemma run_shows_later (pg pg' : Page) (r : nat) (t : RunTask) :
  later pg pg' →
  match t with
  | Run_Query _ _ _ task => (task < length (tasks (manager pg)))%nat
  | _ => True
  end →
  run_shows pg r t → run_shows pg' r t.
Proof.
  intros L Ht. destruct t as [| |e [result|m] due|]; cbn; try done.
  - destruct L as (Htr & _). apply Htr.
  - destruct L as (Htr & l & Hl). intros (H1 & H2 & H3). rewrite Hl.
    split; [by apply Htr|]. split; [by apply Htr|]. by apply run_query_call.
  - by apply shown_ok_later.
Qed.

Lemma event_shows_later (pg pg' : Page) (ev : PageEvent) :
  later pg pg' → event_shows pg ev → event_shows pg' ev.
Proof.
  intros L. destruct ev as [| | |r e now [result|m]]; cbn; try done.
  by apply shown_ok_later.
Qed.

Lemma Forall_event_shows_later (pg pg' : Page) (evs : list PageEvent) :
  later pg pg' → Forall (event_shows pg) evs → Forall (event_shows pg') evs.
Proof.
  intros L H. eapply Forall_impl; [exact H|]. intros ev. by apply event_shows_later.
Qed.

Ltac in_trace :=
  repeat first [ apply elem_of_snoc | apply elem_of_snoc_l ]; try done.

Lemma pageStep_shows_inv (a : PageAction) (pg : Page) :
  shows_inv pg → shows_inv (pageStep a pg).
Proof.
  intros (Hf & Hr & Ht).
  pose proof (pageStep_later a pg) as L.
  split.
  { destruct L as (_ & l & ->). by apply run_stmts_fresh. }
  assert (Hold : ∀ r t, runs pg !! r = Some t → run_shows (pageStep a pg) r t).
  { intros r t H. apply (run_shows_later pg); [done| |by apply Hr].
    destruct t; try done. destruct (Hr _ _ H) as (_ & _ & Hq).
    unfold query_call in Hq. destruct (tasks (manager pg) !! task) eqn:E; [|done].
    by eapply lookup_lt_Some. }
  assert (Holdt : Forall (event_shows (pageStep a pg)) (trace pg))
    by (by apply (Forall_event_shows_later pg)).
  clear L. revert Hold Holdt.
  page_cases a; intros Hold Holdt.
  all: split.
  all: try done.
  all: try (intros r' t' Hl;
            first [ apply lookup_snoc_Some in Hl as [[_ Hl]|[-> <-]]
                  | apply list_lookup_insert_Some in Hl as [(<- & <- & _)|[_ Hl]] ];
            try (by apply Hold)).
  all: try done.
  all: repeat (apply Forall_app_2; [|repeat constructor]).
  all: try done.
  all: clear Hold Holdt; unfold run_shows, event_shows; psimpl.
  all: try match goal with
           | H : runs _ !! _ = Some _ |- _ =>
             pose proof (Hr _ _ H) as Hrun; cbn [run_shows] in Hrun
           end.
  all: try (split; [in_trace|]; split; [in_trace|];
            apply call_query_call; by repeat apply step_stmts_fresh).
  all: try (destruct Hrun as (S1 & S2 & S3); eexists _, _, _;
            split; [in_trace; exact S1|]; split; [in_trace; exact S2|];
            split; [eassumption|exact S3]).
  all: try (destruct Hrun as (sql0 & st0 & task0 & S1 & S2 & S3 & S4);
            exists sql0, st0, task0;
            split; [in_trace|]; split; [in_trace|]; by split).
  all: by in_trace.
Qed.

Lemma pageRun_shows_inv (sched : list PageAction) (g : option nat) (o : string)
    (d : string → string) :
  shows_inv (pageRun sched (load g o d)).
Proof.
  apply (pageRun_ind shows_inv (λ _, True)).
  - intros a pg _. apply pageStep_shows_inv.
  - by apply Forall_forall.
  - split; [by intros t _|]. split; [by intros [|?] ? ?|constructor].
Qed.

(** The table that an embed shows after a run is the result that the
    manager returned to the call [query(sql)] of this run, where [sql] is
    the text that the run had read from the editor of this embed; for this
    call the connection was sent [sql] and nothing else, and it answered
    without error. *)
Theorem an_embed_shows_the_result_of_its_own_statement
    (sched : list PageAction) (g : option nat) (o : string) (d : string → string)
    (r e : nat) (now : Z) (result : QueryResult) :
  Finished r e now (Shown result) ∈ trace (pageRun sched (load g o d)) →
  ∃ sql startTime task,
    Started r e sql startTime ∈ trace (pageRun sched (load g o d))
    ∧ Requested r (ReqQuery sql task) ∈ trace (pageRun sched (load g o d))
    ∧ tasks (manager (pageRun sched (load g o d))) !! task
      = Some (Done (Returned (RResult result)))
    ∧ user_stmts task (log (manager (pageRun sched (load g o d)))) = [sql]
    ∧ EQueryDone (User task) true ∈ log (manager (pageRun sched (load g o d))).
Proof.
  intros Hin. destruct (pageRun_shows_inv sched g o d) as (_ & _ & H).
  rewrite Forall_forall in H. specialize (H _ Hin). cbn in H.
  destruct H as (sql & st & task & H1 & H2 & H3 & H4).
  exists sql, st, task. split; [done|]. split; [done|]. split; [done|].
  unfold query_call in H4. by rewrite H3 in H4.
Qed.

Lemma an_embed_shows_the_result_of_its_own_statement_witness :
  ∃ sql startTime task,
    Started 0 0 sql startTime
      ∈ trace (pageRun example_page_result (load None "https://site.example.org" (λ s, s)))
    ∧ Requested 0 (ReqQuery sql task)
      ∈ trace (pageRun example_page_result (load None "https://site.example.org" (λ s, s)))
    ∧ tasks (manager (pageRun example_page_result
                        (load None "https://site.example.org" (λ s, s)))) !! task
      = Some (Done (Returned (RResult (toQueryResult example_table 250))))
    ∧ user_stmts task
        (log (manager (pageRun example_page_result
                         (load None "https://site.example.org" (λ s, s))))) = [sql]
    ∧ EQueryDone (User task) true
      ∈ log (manager (pageRun example_page_result
                        (load None "https://site.example.org" (λ s, s)))).
Proof.
  apply (an_embed_shows_the_result_of_its_own_statement example_page_result None
           "https://site.example.org" (λ s, s) 0 0 250).
  apply (list_elem_of_lookup_2 _ 4). vm_compute. reflexivity.
Defined.

(** ** The manager of a page with embeds *)

(** What the embeds do to the manager is what callers may do: the
    manager's world on a page is the world after a schedule of the
    manager, the history of the page. *)
Lemma pageStep_history (a : PageAction) (pg : Page) :
  ∃ l, history (pageStep a pg) = history pg ++ l
       ∧ manager (pageStep a pg) = run l (manager pg)
       ∧ (page_no_close a → Forall no_close l).
Proof.
  page_cases a.
  all: first [ by exists []; rewrite app_nil_r
             | by eexists [_]; repeat split; try done; repeat constructor
             | by eexists [_; _]; rewrite <- app_assoc; repeat split; try done;
               repeat constructor ].
Qed.

Lemma pageRun_history (sched : list PageAction) (g : option nat) (o : string)
    (d : string → string) :
  Forall page_no_close sched →
  manager (pageRun sched (load g o d)) = run (history (pageRun sched (load g o d))) (boot g)
  ∧ Forall no_close (history (pageRun sched (load g o d))).
Proof.
  intros Hs.
  apply (pageRun_ind (λ pg, manager pg = run (history pg) (boot g)
                            ∧ Forall no_close (history pg)) page_no_close);
    [|done|by split].
  intros a pg Ha [Hm Hh].
  destruct (pageStep_history a pg) as (l & -> & -> & Hl).
  split; [by rewrite run_app, Hm|]. apply Forall_app_2; [done|by apply Hl].
Qed.

(** On a page with any number of embeds, unless other code calls [close]:
    the manager constructs at most one engine instance, every statement
    that any embed or other caller had sent went to the connection that
    the manager holds, and every file was registered with the engine
    instance that it holds. *)
Theorem embeds_share_one_engine
    (sched : list PageAction) (g : option nat) (o : string) (d : string → string) :
  Forall page_no_close sched →
  let w := manager (pageRun sched (load g o d)) in
  (constructions (log w) ≤ 1)%nat
  ∧ (∀ c by_whom sql, EQuery c by_whom sql ∈ log w → connection (mgr w) = Some c)
  ∧ (∀ h name url, ERegister h name url ∈ log w → db (mgr w) = Some h).
Proof.
  intros Hs w. destruct (pageRun_history sched g o d Hs) as [Hm Hh].
  fold w in Hm. rewrite Hm.
  pose proof (run_init_inv _ _ Hh (boot_init_inv g)) as (Hn & _).
  pose proof (run_lifetime _ _ Hh (boot_init_inv g) (boot_lifetime g)) as (L1 & _).
  rewrite Forall_forall in L1.
  split. { rewrite Hn. destruct (db (mgr _)); lia. }
  split. { intros c by_whom sql H. exact (L1 _ H). }
  intros h name url H. exact (L1 _ H).
Qed.

Lemma embeds_share_one_engine_witness :
  let w := manager (pageRun example_page_two_embeds
                      (load None "https://site.example.org" (λ s, s))) in
  (constructions (log w) ≤ 1)%nat
  ∧ (∀ c by_whom sql, EQuery c by_whom sql ∈ log w → connection (mgr w) = Some c)
  ∧ (∀ h name url, ERegister h name url ∈ log w → db (mgr w) = Some h).
Proof.
  apply (embeds_share_one_engine example_page_two_embeds None
           "https://site.example.org" (λ s, s)).
  unfold example_page_two_embeds, init_ok. cbn [map app]. repeat constructor.
Defined.

(** ** The link to SQL Workbench *)

Lemma triples_ind {A} (P : list A → Prop) :
  P [] → (∀ a, P [a]) → (∀ a b, P [a; b]) →
  (∀ a b c rest, P rest → P (a :: b :: c :: rest)) →
  ∀ l, P l.
Proof.
  intros H0 H1 H2 H3 l.
  assert (H : P l ∧ (∀ a, P (a :: l)) ∧ (∀ a b, P (a :: b :: l))).
  { induction l as [|x l (IH0 & IH1 & IH2)]; [by repeat split|].
    split; [apply IH1|]. split; [intros a; apply IH2|]. intros a b. by apply H3. }
  apply H.
Qed.

Lemma sextet_urlChar (n : nat) :
  (n < 64)%nat →
  replaceChar (charOf "/") (charOf "_") (replaceChar (charOf "+") (charOf "-") [sextet n])
  = [urlChar n]
  ∧ urlChar n ≠ charOf "="
  ∧ urlValue (urlChar n) = n
  ∧ urlSafe (urlChar n) = true.
Proof.
  intros Hn.
  assert (H : Forall (λ n,
             replaceChar (charOf "/") (charOf "_")
               (replaceChar (charOf "+") (charOf "-") [sextet n]) = [urlChar n]
             ∧ urlChar n ≠ charOf "="
             ∧ urlValue (urlChar n) = n
             ∧ urlSafe (urlChar n) = true) (seq 0 64)).
  { repeat constructor; by vm_compute. }
  rewrite Forall_forall in H. apply H. apply elem_of_seq. lia.
Qed.

Lemma strip_app (s1 s2 : list Ascii.ascii) :
  removeChar (charOf "=")
    (replaceChar (charOf "/") (charOf "_")
       (replaceChar (charOf "+") (charOf "-") (s1 ++ s2)))
  = removeChar (charOf "=")
      (replaceChar (charOf "/") (charOf "_") (replaceChar (charOf "+") (charOf "-") s1))
    ++ removeChar (charOf "=")
         (replaceChar (charOf "/") (charOf "_") (replaceChar (charOf "+") (charOf "-") s2)).
Proof. unfold removeChar, replaceChar. by rewrite !map_app, List.filter_app. Qed.

Lemma strip_sextet (n : nat) (s : list Ascii.ascii) :
  (n < 64)%nat →
  removeChar (charOf "=")
    (replaceChar (charOf "/") (charOf "_")
       (replaceChar (charOf "+") (charOf "-") (sextet n :: s)))
  = urlChar n
    :: removeChar (charOf "=")
         (replaceChar (charOf "/") (charOf "_") (replaceChar (charOf "+") (charOf "-") s)).
Proof.
  intros Hn. destruct (sextet_urlChar n Hn) as (H1 & H2 & _).
  change (sextet n :: s) with ([sextet n] ++ s). rewrite strip_app, H1.
  unfold removeChar at 1. cbn [List.filter].
  destruct (Ascii.eqb (urlChar n) (charOf "=")) eqn:E; [|done].
  by apply Ascii.eqb_eq in E.
Qed.

Lemma strip_padding (s : list Ascii.ascii) :
  removeChar (charOf "=")
    (replaceChar (charOf "/") (charOf "_")
       (replaceChar (charOf "+") (charOf "-") (charOf "=" :: s)))
  = removeChar (charOf "=")
      (replaceChar (charOf "/") (charOf "_") (replaceChar (charOf "+") (charOf "-") s)).
Proof. reflexivity. Qed.

Lemma byte_bound (a : Ascii.ascii) : (byte a < 256)%nat.
Proof. apply Ascii.nat_ascii_bounded. Qed.

Lemma ascii_of_byte (a : Ascii.ascii) (n : nat) : n = byte a → Ascii.ascii_of_nat n = a.
Proof. intros ->. apply Ascii.ascii_nat_embedding. Qed.

(** Quotients and remainders in the goal, with their equations, for
    [lia]. *)
Ltac divmod_facts :=
  repeat match goal with
         | |- context [Nat.div ?x ?k] =>
           lazymatch goal with
           | _ : x = k * Nat.div x k + Nat.modulo x k |- _ => fail
           | _ => pose proof (Nat.div_mod_eq x k);
                  pose proof (Nat.mod_upper_bound x k ltac:(lia))
           end
         | |- context [Nat.modulo ?x ?k] =>
           lazymatch goal with
           | _ : x = k * Nat.div x k + Nat.modulo x k |- _ => fail
           | _ => pose proof (Nat.div_mod_eq x k);
                  pose proof (Nat.mod_upper_bound x k ltac:(lia))
           end
         end.

Ltac divlia := divmod_facts; lia.

Lemma decodeLink_btoa (bytes : list Ascii.ascii) :
  decodeLink
    (removeChar (charOf "=")
       (replaceChar (charOf "/") (charOf "_")
          (replaceChar (charOf "+") (charOf "-") (btoa bytes))))
  = bytes.
Proof.
  induction bytes as [|a|a b|a b c rest IH] using triples_ind.
  - reflexivity.
  - pose proof (byte_bound a). cbn [btoa].
    rewrite (strip_sextet (byte a / 4)) by divlia.
    rewrite (strip_sextet (byte a mod 4 * 16)) by divlia.
    rewrite !strip_padding.
    cbn [decodeLink removeChar replaceChar map List.filter].
    destruct (sextet_urlChar (byte a / 4)) as (_ & _ & -> & _); [divlia|].
    destruct (sextet_urlChar (byte a mod 4 * 16)) as (_ & _ & -> & _); [divlia|].
    f_equal. apply ascii_of_byte. divlia.
  - pose proof (byte_bound a). pose proof (byte_bound b). cbn [btoa].
    rewrite (strip_sextet (byte a / 4)) by divlia.
    rewrite (strip_sextet (byte a mod 4 * 16 + byte b / 16)) by divlia.
    rewrite (strip_sextet (byte b mod 16 * 4)) by divlia.
    rewrite !strip_padding.
    cbn [decodeLink removeChar replaceChar map List.filter].
    destruct (sextet_urlChar (byte a / 4)) as (_ & _ & -> & _); [divlia|].
    destruct (sextet_urlChar (byte a mod 4 * 16 + byte b / 16)) as (_ & _ & -> & _); [divlia|].
    destruct (sextet_urlChar (byte b mod 16 * 4)) as (_ & _ & -> & _); [divlia|].
    f_equal; [apply ascii_of_byte; divlia|]. f_equal. apply ascii_of_byte. divlia.
  - pose proof (byte_bound a). pose proof (byte_bound b). pose proof (byte_bound c).
    cbn [btoa app].
    rewrite (strip_sextet (byte a / 4)) by divlia.
    rewrite (strip_sextet (byte a mod 4 * 16 + byte b / 16)) by divlia.
    rewrite (strip_sextet (byte b mod 16 * 4 + byte c / 64)) by divlia.
    rewrite (strip_sextet (byte c mod 64)) by divlia.
    cbn [decodeLink].
    destruct (sextet_urlChar (byte a / 4)) as (_ & _ & -> & _); [divlia|].
    destruct (sextet_urlChar (byte a mod 4 * 16 + byte b / 16)) as (_ & _ & -> & _); [divlia|].
    destruct (sextet_urlChar (byte b mod 16 * 4 + byte c / 64)) as (_ & _ & -> & _); [divlia|].
    destruct (sextet_urlChar (byte c mod 64)) as (_ & _ & -> & _); [divlia|].
    rewrite IH. cbn [app].
    f_equal; [apply ascii_of_byte; divlia|]. f_equal; [apply ascii_of_byte; divlia|].
    f_equal. apply ascii_of_byte. divlia.
Qed.

Lemma link_chars_safe (bytes : list Ascii.ascii) :
  Forall (λ c, urlSafe c = true)
    (removeChar (charOf "=")
       (replaceChar (charOf "/") (charOf "_")
          (replaceChar (charOf "+") (charOf "-") (btoa bytes)))).
Proof.
  induction bytes as [|a|a b|a b c rest IH] using triples_ind.
  - constructor.
  - pose proof (byte_bound a). cbn [btoa].
    rewrite (strip_sextet (byte a / 4)) by divlia.
    rewrite (strip_sextet (byte a mod 4 * 16)) by divlia.
    rewrite !strip_padding.
    repeat (constructor; [apply sextet_urlChar; divlia|]). constructor.
  - pose proof (byte_bound a). pose proof (byte_bound b). cbn [btoa].
    rewrite (strip_sextet (byte a / 4)) by divlia.
    rewrite (strip_sextet (byte a mod 4 * 16 + byte b / 16)) by divlia.
    rewrite (strip_sextet (byte b mod 16 * 4)) by divlia.
    rewrite !strip_padding.
    repeat (constructor; [apply sextet_urlChar; divlia|]). constructor.
  - pose proof (byte_bound a). pose proof (byte_bound b). pose proof (byte_bound c).
    cbn [btoa app].
    rewrite (strip_sextet (byte a / 4)) by divlia.
    rewrite (strip_sextet (byte a mod 4 * 16 + byte b / 16)) by divlia.
    rewrite (strip_sextet (byte b mod 16 * 4 + byte c / 64)) by divlia.
    rewrite (strip_sextet (byte c mod 64)) by divlia.
    repeat (constructor; [apply sextet_urlChar; divlia|]). exact IH.
Qed.

Lemma append_inj_r (p a b : string) : p +:+ a = p +:+ b → a = b.
Proof.
  induction p as [|c p IH]; [done|].
  change (String c p +:+ a) with (String c (p +:+ a)).
  change (String c p +:+ b) with (String c (p +:+ b)).
  intros H. injection H as H. by apply IH.
Qed.

(** The URL that [openInSQLWorkbench] opens is
    [https://sql-workbench.com/#queries=v1,] followed by letters, digits,
    hyphens and underscores only, so that nothing in it needs escaping and
    no padding is left; it opens nothing for a text that is white space
    only. *)
Theorem link_is_made_of_url_safe_characters (em : Embedded) (url : string) :
  openInSQLWorkbench em = Some url →
  isBlank (getCode em) = false
  ∧ ∃ fragment,
      url = "https://sql-workbench.com/#queries=v1," +:+ fragment
      ∧ Forall (λ c, urlSafe c = true) (chars fragment).
Proof.
  unfold openInSQLWorkbench. destruct (isBlank (getCode em)); [done|].
  intros H. injection H as <-. split; [done|].
  exists (encodeQueryForURL (getCode em)). split; [done|].
  unfold encodeQueryForURL. rewrite chars_str. apply link_chars_safe.
Qed.

Lemma link_is_made_of_url_safe_characters_witness :
  isBlank (getCode (new_Embedded (λ s, s) example_options "SELECT 1")) = false
  ∧ ∃ fragment,
      "https://sql-workbench.com/#queries=v1,U0VMRUNUIDE"
      = "https://sql-workbench.com/#queries=v1," +:+ fragment
      ∧ Forall (λ c, urlSafe c = true) (chars fragment).
Proof.
  apply (link_is_made_of_url_safe_characters
           (new_Embedded (λ s, s) example_options "SELECT 1")).
  vm_compute. reflexivity.
Defined.

(** Two embeds for which [openInSQLWorkbench] opens the same URL hold the
    same text: the link determines the statement, although the padding of
    the Base64 text is removed. *)
Theorem link_determines_the_statement (em1 em2 : Embedded) (url : string) :
  openInSQLWorkbench em1 = Some url →
  openInSQLWorkbench em2 = Some url →
  getCode em1 = getCode em2.
Proof.
  unfold openInSQLWorkbench.
  destruct (isBlank (getCode em1)); [done|]. destruct (isBlank (getCode em2)); [done|].
  intros H1 H2. rewrite <- H1 in H2. injection H2 as H2. apply append_inj_r in H2.
  unfold encodeQueryForURL in H2.
  apply (f_equal chars) in H2. rewrite !chars_str in H2.
  apply (f_equal decodeLink) in H2. rewrite !decodeLink_btoa in H2.
  by apply chars_inj.
Qed.

Lemma link_determines_the_statement_witness :
  getCode (new_Embedded (λ s, s) example_options "SELECT 1")
  = getCode (setCode (λ s, s) "SELECT 1" (new_Embedded (λ s, s) example_options "x")).
Proof.
  apply (link_determines_the_statement
           (new_Embedded (λ s, s) example_options "SELECT 1")
           (setCode (λ s, s) "SELECT 1" (new_Embedded (λ s, s) example_options "x"))
           "https://sql-workbench.com/#queries=v1,U0VMRUNUIDE").
  - vm_compute. reflexivity.
  - vm_compute. reflexivity.
Defined.

(** * Debounced calls *)

Lemma lastCall_snoc_called {A} (l : list (DebounceEvent A)) (args : A) (t : Z) :
  lastCall (l ++ [DCalled args t]) = Some (args, t).
Proof. unfold lastCall. rewrite omap_app. cbn. by rewrite last_snoc. Qed.

Lemma lastCall_snoc_ran {A} (l : list (DebounceEvent A)) (args : A) (t : Z) :
  lastCall (l ++ [DRan args t]) = lastCall l.
Proof. unfold lastCall. rewrite omap_app. cbn. by rewrite app_nil_r. Qed.

Lemma ran_late_snoc {A} (wait : Z) (l : list (DebounceEvent A)) (ev : DebounceEvent A) :
  (∀ l1 e l2, l = l1 ++ e :: l2 → ran_late wait l1 e) →
  ran_late wait l ev →
  ∀ l1 e l2, l ++ [ev] = l1 ++ e :: l2 → ran_late wait l1 e.
Proof.
  intros Hl Hev l1 e l2 Heq.
  destruct l2 as [|x l2 _] using rev_ind.
  - apply app_inj_tail in Heq as [-> ->]. exact Hev.
  - rewrite app_comm_cons, app_assoc in Heq. apply app_inj_tail in Heq as [-> _].
    by eapply Hl.
Qed.

Lemma debounceStep_inv {A} (wait : Z) (a : DebounceAction A) (d : Debounced A) :
  debounce_inv wait d → debounce_inv wait (debounceStep wait a d).
Proof.
  intros (Ht & Ho). destruct a as [args|id|now]; cbn [debounceStep].
  - split; cbn [timers timeout observed].
    + intros id due args' Hl. rewrite lastCall_snoc_called.
      apply lookup_snoc_Some in Hl as [[Hlt Hl]|[-> Hl]].
      * exfalso. destruct (timeout d) as [id0|] eqn:Hto.
        -- unfold clearTimeout in Hl, Hlt.
           destruct (timers d !! id0) as [[due0 args0| |]|] eqn:H0.
           ++ apply list_lookup_insert_Some in Hl as [(_ & ? & _)|[Hne Hl]]; [done|].
              destruct (Ht _ _ _ Hl) as [Hid _]. congruence.
           ++ destruct (Ht _ _ _ Hl) as [Hid _]. congruence.
           ++ destruct (Ht _ _ _ Hl) as [Hid _]. congruence.
           ++ destruct (Ht _ _ _ Hl) as [Hid _]. congruence.
        -- destruct (Ht _ _ _ Hl) as [Hid _]. congruence.
      * injection Hl as <- <-. split; [done|]. do 2 f_equal. lia.
    + by apply ran_late_snoc.
  - destruct (timers d !! id) as [[due args| |]|] eqn:Hid; try done.
    destruct (due <=? time d)%Z eqn:Hdue; [|done].
    apply Z.leb_le in Hdue.
    split; cbn [timers timeout observed].
    + intros id' due' args' Hl. rewrite lastCall_snoc_ran.
      apply list_lookup_insert_Some in Hl as [(_ & ? & _)|[Hne Hl]]; [done|].
      by apply Ht.
    + apply ran_late_snoc; [done|]. cbn.
      destruct (Ht _ _ _ Hid) as [_ Hlast]. eexists. split; [exact Hlast|lia].
  - done.
Qed.

Lemma debounceRun_inv {A} (wait : Z) (sched : list (DebounceAction A)) (d : Debounced A) :
  debounce_inv wait d → debounce_inv wait (debounceRun wait sched d).
Proof.
  revert d. induction sched as [|a sched IH]; intros d Hd; [done|].
  cbn [debounceRun fold_left]. apply IH. by apply debounceStep_inv.
Qed.

(** Whenever [func] is called through the closure that [debounce(func,
    wait)] returned, it is called with the arguments of the latest call of
    that closure, and that call was made at least [wait] before. The
    timers are taken not to fire before they are due. *)
Theorem debounced_function_runs_after_a_quiet_period {A : Type}
    (wait : Z) (sched : list (DebounceAction A))
    (before after : list (DebounceEvent A)) (args : A) (t : Z) :
  observed (debounceRun wait sched debounce) = before ++ DRan args t :: after →
  ∃ t0, lastCall before = Some (args, t0) ∧ (t0 + wait ≤ t)%Z.
Proof.
  intros Hobs.
  assert (H : debounce_inv wait (debounceRun wait sched (@debounce A))).
  { apply debounceRun_inv. split; [by intros [|?] ? ? ?|].
    intros l1 ev l2 H. by destruct l1. }
  destruct H as (_ & H). exact (H _ _ _ Hobs).
Qed.

Lemma debounced_function_runs_after_a_quiet_period_witness :
  ∃ t0, lastCall [DCalled "a" 0%Z; DCalled "b" 100%Z] = Some ("b", t0)
        ∧ (t0 + 150 ≤ 260)%Z.
Proof.
  apply (debounced_function_runs_after_a_quiet_period 150
           [DCall "a"; DTick 100; DCall "b"; DTick 160; DFire 0; DTick 260; DFire 1]
           [DCalled "a" 0%Z; DCalled "b" 100%Z] [] "b" 260).
  reflexivity.
Defined.
